(** * Flashcard quiz: the LaTeX segmenter and the LaTeX-to-HTML transcoder

    A shallow embedding of [src/flashcards.py]: [parse_latex_file],
    [load_all_flashcards] and [prepare_latex_for_katex], together with the
    fragment of Python's [re] and [str] runtime these three functions call;
    then the endpoint [get_cards], the entry point [main] and the script of
    the page that runs the quiz.

    Text is a list of Unicode code points, as a Python [str] is.  Positions
    and lengths are natural numbers, slices are [firstn]/[skipn]. *)

From Equations Require Import Equations.
From Stdlib Require Import Ascii String.
From Stdlib Require Import List Arith NArith Lia Bool.
From Stdlib Require Import Permutation Sorting.Sorted.
Import ListNotations.

(** ** Text *)

Abbreviation char := N (only parsing).
Abbreviation str := (list N) (only parsing).

(** [u "..."] is the text of a string literal (one code point per
    character of the literal). *)
Definition u (s : String.string) : str :=
  map N_of_ascii (String.list_ascii_of_string s).
Arguments u s%_string.

Definition nl : char := 10%N.      (* '\n' *)
Definition dq : char := 34%N.      (* the double quote *)
Definition bsl : char := 92%N.     (* the backslash *)

Definition str_eqb (a b : str) : bool :=
  if list_eq_dec N.eq_dec a b then true else false.

(** [content[a:b]] and [content[a:]] for [0 <= a], [0 <= b]. *)
Definition slice (a b : nat) (s : str) : str := firstn (b - a) (skipn a s).
Definition slice_from (a : nat) (s : str) : str := skipn a s.

(** [str.isspace] on one code point (CPython's [_PyUnicode_IsWhitespace]). *)
Definition isspace (c : char) : bool :=
  ((9 <=? c) && (c <=? 13) || (28 <=? c) && (c <=? 32)
   || (c =? 133) || (c =? 160) || (c =? 5760)
   || (8192 <=? c) && (c <=? 8202)
   || (c =? 8232) || (c =? 8233) || (c =? 8239) || (c =? 8287)
   || (c =? 12288))%N.

(** First code point of each run of ten decimal digits (general category
    Nd) in the Unicode database of CPython 3.11; the mathematical digits
    120782..120831 are five consecutive runs. *)
Definition decimal_zeros : list N :=
  [48; 1632; 1776; 1984; 2406; 2534; 2662; 2790; 2918; 3046; 3174; 3302;
   3430; 3558; 3664; 3792; 3872; 4160; 4240; 6112; 6160; 6470; 6608; 6784;
   6800; 6992; 7088; 7232; 7248; 42528; 43216; 43264; 43472; 43504; 43600;
   44016; 65296; 66720; 68912; 69734; 69872; 69942; 70096; 70384; 70736;
   70864; 71248; 71360; 71472; 71904; 72016; 72784; 73040; 73120; 92768;
   92864; 93008; 120782; 120792; 120802; 120812; 120822; 123200; 123632;
   125264; 130032]%N.

(** What [\d] matches in a [str] pattern. *)
Definition isdecimal (c : char) : bool :=
  existsb (fun z => (z <=? c) && (c <? z + 10))%N decimal_zeros.

(** [str.lstrip()], [str.rstrip()], [str.strip()] with no argument. *)
Fixpoint lstrip (s : str) : str :=
  match s with
  | c :: s' => if isspace c then lstrip s' else s
  | [] => []
  end.

Definition rstrip (s : str) : str := rev (lstrip (rev s)).

Definition strip (s : str) : str := rstrip (lstrip s).

(** [s.split('\n')]: never the empty list. *)
Fixpoint split_lines (s : str) : list str :=
  match s with
  | [] => [[]]
  | c :: s' =>
      if (c =? nl)%N then [] :: split_lines s'
      else match split_lines s' with
           | l :: ls => (c :: l) :: ls
           | [] => [[c]]
           end
  end.

(** ['\n'.join(lines)]. *)
Fixpoint join_lines (lines : list str) : str :=
  match lines with
  | [] => []
  | [l] => l
  | l :: ls => l ++ nl :: join_lines ls
  end.

(** ** Exceptions *)

Inductive exn :=
| OSError              (* the file cannot be opened or read *)
| UnicodeDecodeError   (* the bytes of the file are not UTF-8 *)
| ReError.             (* re.error: invalid group reference *)

Inductive result (A : Type) :=
| Ok (a : A)
| Raise (e : exn).
Arguments Ok {A} a.
Arguments Raise {A} e.

Definition bind {A B} (x : result A) (f : A -> result B) : result B :=
  match x with
  | Ok a => f a
  | Raise e => Raise e
  end.

Notation "x <- e1 ;; e2" := (bind e1 (fun x => e2))
  (at level 61, e1 at next level, right associativity).

(** ** The fragment of [re] the program uses

    Every pattern of the program is a sequence of single-character atoms,
    each with a quantifier, around at most one capture group. *)

Module Re.

Inductive charset :=
| Exactly (c : char)   (* a literal character *)
| Except (c : char)    (* [^c] *)
| Dot                  (* .  without re.DOTALL: anything but '\n' *)
| DotAll               (* .  under re.DOTALL *)
| Digit.               (* \d *)

Definition mem (cs : charset) (c : char) : bool :=
  match cs with
  | Exactly d => (c =? d)%N
  | Except d => negb (c =? d)%N
  | Dot => negb (c =? nl)%N
  | DotAll => true
  | Digit => isdecimal c
  end.

Inductive quant :=
| Once        (* x *)
| Optional    (* x? *)
| Star        (* x*, greedy *)
| Plus        (* x+, greedy *)
| LazyStar.   (* x*?, shortest first *)

Inductive node :=
| Atom (cs : charset) (q : quant)
| GroupOpen       (* the "(" of group 1 *)
| GroupClose.     (* the ")" of group 1 *)

Definition regex := list node.

(** A literal piece of a pattern. *)
Definition lit (s : String.string) : regex :=
  map (fun c => Atom (Exactly c) Once) (u s).
Arguments lit s%_string.

(** The outcome of a successful match attempt: the end position and the
    span of group 1 when the group took part. *)
Definition outcome := (nat * option (nat * nat))%type.

Section Backtracking.
Variable cs : charset.
Variable k : str -> nat -> option outcome.

(** Longest run first, giving characters back one at a time. *)
Fixpoint greedy (s : str) (pos : nat) : option outcome :=
  match s with
  | c :: s' =>
      if mem cs c then
        match greedy s' (S pos) with
        | Some r => Some r
        | None => k s pos
        end
      else k s pos
  | [] => k s pos
  end.

(** Shortest run first, taking one more character on failure. *)
Fixpoint lazy (s : str) (pos : nat) : option outcome :=
  match k s pos with
  | Some r => Some r
  | None =>
      match s with
      | c :: s' => if mem cs c then lazy s' (S pos) else None
      | [] => None
      end
  end.

Definition once (s : str) (pos : nat) : option outcome :=
  match s with
  | c :: s' => if mem cs c then k s' (S pos) else None
  | [] => None
  end.

Definition optional (s : str) (pos : nat) : option outcome :=
  match once s pos with
  | Some r => Some r
  | None => k s pos
  end.
End Backtracking.

(** [run r s pos gs g]: match [r] against the text [s] that starts at
    absolute position [pos]; [gs] is where group 1 was opened, [g] its
    span once closed. *)
Fixpoint run (r : regex) (gs : nat) (g : option (nat * nat))
  : str -> nat -> option outcome :=
  match r with
  | [] => fun _ pos => Some (pos, g)
  | GroupOpen :: r' => fun s pos => run r' pos g s pos
  | GroupClose :: r' => fun s pos => run r' gs (Some (gs, pos)) s pos
  | Atom cs Once :: r' => once cs (run r' gs g)
  | Atom cs Optional :: r' => optional cs (run r' gs g)
  | Atom cs Star :: r' => greedy cs (run r' gs g)
  | Atom cs Plus :: r' => once cs (greedy cs (run r' gs g))
  | Atom cs LazyStar :: r' => lazy cs (run r' gs g)
  end.

(** A match object: [start()], [end()] and the span of group 1. *)
Record rmatch := Match {
  m_start : nat;
  m_end : nat;
  m_span1 : option (nat * nat)
}.

(** [pattern.match] at one position of the text. *)
Definition match_at (r : regex) (s : str) (pos : nat) : option rmatch :=
  match run r pos None s pos with
  | Some (e, g) => Some (Match pos e g)
  | None => None
  end.

(** [m.group(1)] on the text the match was made in. *)
Definition group1 (content : str) (m : rmatch) : str :=
  match m_span1 m with
  | Some (a, b) => slice a b content
  | None => []
  end.

(** The scan of [re.search]: the first position where the pattern matches. *)
Fixpoint search_from (r : regex) (s : str) (pos : nat) : option rmatch :=
  match match_at r s pos with
  | Some m => Some m
  | None =>
      match s with
      | _ :: s' => search_from r s' (S pos)
      | [] => None
      end
  end.

Definition search (r : regex) (s : str) : option rmatch := search_from r s 0.

(** The scan of [re.finditer]: matches left to right, each attempt starting
    where the previous match ended.  (After an empty match the scan moves
    one character on; no pattern of this program matches the empty text,
    see [run_progress].) *)
Equations? finditer_from (r : regex) (s : str) (pos : nat) : list rmatch
  by wf (length s) lt :=
  finditer_from r [] pos with match_at r [] pos := {
    | Some m => [m]
    | None => [] };
  finditer_from r (c :: s') pos with match_at r (c :: s') pos := {
    | Some m =>
        m :: finditer_from r (skipn (m_end m - S pos) s') (Nat.max (m_end m) (S pos))
    | None => finditer_from r s' (S pos) }.
Proof.
  simpl. pose proof (length_skipn (m_end m - S pos) s'). lia.
Qed.

Definition finditer (r : regex) (s : str) : list rmatch := finditer_from r s 0.

(** Replacement templates: literal text and references to group 1. *)
Inductive piece :=
| Text (s : str)
| Group1.           (* \1 *)

Definition template := list piece.

Definition has_group (r : regex) : bool :=
  existsb (fun n => match n with GroupClose => true | _ => false end) r.

Definition refers_to_group (t : template) : bool :=
  existsb (fun p => match p with Group1 => true | _ => false end) t.

(** [re.sub] parses the template before it scans: a reference to a group
    the pattern does not have raises [re.error]. *)
Definition template_ok (r : regex) (t : template) : bool :=
  implb (refers_to_group t) (has_group r).

Definition expand (t : template) (content : str) (m : rmatch) : str :=
  flat_map (fun p => match p with
                     | Text s => s
                     | Group1 => group1 content m
                     end) t.

(** The output of [re.sub]: the text between the matches, unchanged, and
    the expansion of the template at each match. *)
Fixpoint splice (t : template) (content : str) (ms : list rmatch) (last : nat) : str :=
  match ms with
  | [] => slice_from last content
  | m :: ms' =>
      slice last (m_start m) content ++ expand t content m
        ++ splice t content ms' (m_end m)
  end.

Definition sub (r : regex) (t : template) (content : str) : result str :=
  if template_ok r t then Ok (splice t content (finditer r content) 0)
  else Raise ReError.

End Re.

Import Re.

(** ** The segmenter: [parse_latex_file] *)

(** [r'\\section\{([^}]+)\}'] *)
Definition section_pattern : regex :=
  lit "\section{" ++ [GroupOpen; Atom (Except 125%N) Plus; GroupClose] ++ lit "}".

(** [r'\\part\{'] *)
Definition part_pattern : regex := lit "\part{".

(** [enumerate(l)] *)
Definition enumerate {A} (l : list A) : list (nat * A) :=
  combine (seq 0 (length l)) l.

(** Truth value of a [str]. *)
Definition nonempty (s : str) : bool :=
  match s with
  | [] => false
  | _ :: _ => true
  end.

Definition answer_end_of (content : str) (sections : list rmatch)
    (i : nat) (m : rmatch) : nat :=
  let answer_start := m_end m in
  if i + 1 <? length sections then
    m_start (nth (i + 1) sections m)
  else
    match search part_pattern (slice_from answer_start content) with
    | Some next_part => answer_start + m_start next_part
    | None => length content
    end.

(** One turn of the loop over [enumerate(sections)]: the pair the turn
    appends, if it appends one. *)
Definition card_of (content : str) (sections : list rmatch)
    (i : nat) (m : rmatch) : option (str * str) :=
  let question := strip (group1 content m) in
  let answer_start := m_end m in
  let answer_end := answer_end_of content sections i m in
  let answer := strip (slice answer_start answer_end content) in
  if nonempty question && nonempty answer then Some (question, answer)
  else None.

(** The body of [parse_latex_file] once the file is read. *)
Definition parse_content (content : str) : list (str * str) :=
  let sections := finditer section_pattern content in
  fold_left
    (fun flashcards im =>
       match card_of content sections (fst im) (snd im) with
       | Some card => flashcards ++ [card]
       | None => flashcards
       end)
    (enumerate sections) [].

(** A file is what [open(filepath, 'r', encoding='utf-8')] followed by
    [f.read()] gives: the decoded text, or the exception raised. *)
Definition file := result str.

Definition parse_latex_file (f : file) : result (list (str * str)) :=
  content <- f ;;
  Ok (parse_content content).

(** ** The loader: [load_all_flashcards] *)

(** A directory: its entries, name and file, in the order the file system
    lists them. *)
Definition directory := list (str * file).

Definition card := (str * str * str)%type.

Definition startswith (p s : str) : bool := str_eqb (firstn (length p) s) p.
Definition endswith (p s : str) : bool :=
  str_eqb (skipn (length s - length p) s) p.

(** A name matches the glob pattern ['lecture_*.tex']. *)
Definition glob_match (name : str) : bool :=
  (length (u "lecture_") + length (u ".tex") <=? length name)
  && startswith (u "lecture_") name && endswith (u ".tex") name.

Definition glob (d : directory) : directory :=
  filter (fun e => glob_match (fst e)) d.

(** Order of [str]: code point by code point. *)
Fixpoint str_leb (a b : str) : bool :=
  match a, b with
  | [], _ => true
  | _ :: _, [] => false
  | x :: a', y :: b' =>
      if (x <? y)%N then true
      else if (x =? y)%N then str_leb a' b' else false
  end.

(** [sorted] on the paths of one directory: by name, stable. *)
Fixpoint insert_sorted (e : str * file) (l : directory) : directory :=
  match l with
  | [] => [e]
  | e' :: l' =>
      if str_leb (fst e) (fst e') then e :: l
      else e' :: insert_sorted e l'
  end.

Fixpoint sorted (l : directory) : directory :=
  match l with
  | [] => []
  | e :: l' => insert_sorted e (sorted l')
  end.

Definition tag (name : str) (qa : str * str) : card :=
  (fst qa, snd qa, name).

(** The loop over the sorted files; an exception ends it. *)
Fixpoint load_files (files : directory) (all_cards : list card)
  : result (list card) :=
  match files with
  | [] => Ok all_cards
  | (name, f) :: rest =>
      cards <- parse_latex_file f ;;
      load_files rest (all_cards ++ map (tag name) cards)
  end.

Definition load_all_flashcards (lectures_dir : directory) : result (list card) :=
  load_files (sorted (glob lectures_dir)) [].

(** [lectures_path.glob('lecture_*.tex')] lists the directory before it
    matches names.  When the listing is refused, [scandir] raises
    [PermissionError] and the selector of [Path.glob] ends the iteration
    without raising: the glob finds nothing, whatever the directory holds.
    A path is a directory with its entries and whether they can be
    listed. *)
Inductive path :=
| Listable (entries : directory)
| Unlistable (entries : directory).

Definition entries_of (lectures_path : path) : directory :=
  match lectures_path with
  | Listable entries => entries
  | Unlistable entries => entries
  end.

Definition path_glob (lectures_path : path) : directory :=
  match lectures_path with
  | Listable entries => glob entries
  | Unlistable _ => []
  end.

(** [load_all_flashcards] on a path; on a directory that can be listed it
    is the loader above. *)
Definition load_all_flashcards_from (lectures_path : path) : result (list card) :=
  load_files (sorted (path_glob lectures_path)) [].

(** ** The transcoder: [prepare_latex_for_katex] *)

Definition keyword (s : String.string) : template :=
  [Text (u "<span class=" ++ dq :: u "algo-keyword" ++ dq :: u ">" ++ u s
           ++ u "</span>")].
Arguments keyword s%_string.

Definition div (s : String.string) : template :=
  [Text (u "<div class=" ++ dq :: u s ++ dq :: u ">")].
Arguments div s%_string.

Definition group : regex := [GroupOpen; Atom (Except 125%N) Plus; GroupClose].

(** The calls of [re.sub], in the order of the source. *)
Definition substitutions : list (regex * template) :=
  [ (* r'\\\[(.*?)\\\]' -> r'$$\1$$', flags=re.DOTALL *)
    (lit "\[" ++ [GroupOpen; Atom DotAll LazyStar; GroupClose] ++ lit "\]",
     [Text (u "$$"); Group1; Text (u "$$")]);
    (lit "\begin{algorithm}", div "algorithm");
    (lit "\end{algorithm}", [Text (u "</div>")]);
    (* r'\\begin\{algorithmic\}\[\d*\]' *)
    (lit "\begin{algorithmic}[" ++ [Atom Digit Star] ++ lit "]",
     div "algorithmic");
    (lit "\end{algorithmic}", [Text (u "</div>")]);
    (* r'\\textbf\{([^}]+)\}' and the like *)
    (lit "\textbf{" ++ group ++ lit "}",
     [Text (u "<strong>"); Group1; Text (u "</strong>")]);
    (lit "\textit{" ++ group ++ lit "}",
     [Text (u "<em>"); Group1; Text (u "</em>")]);
    (lit "\emph{" ++ group ++ lit "}",
     [Text (u "<em>"); Group1; Text (u "</em>")]);
    (lit "\begin{itemize}", [Text (u "<ul>")]);
    (lit "\end{itemize}", [Text (u "</ul>")]);
    (lit "\begin{enumerate}", [Text (u "<ol>")]);
    (lit "\end{enumerate}", [Text (u "</ol>")]);
    (* r'\\item\[(.*?)\]' -> r'<li><strong>\1</strong> ' *)
    (lit "\item[" ++ [GroupOpen; Atom Dot LazyStar; GroupClose] ++ lit "]",
     [Text (u "<li><strong>"); Group1; Text (u "</strong> ")]);
    (lit "\item", [Text (u "<li>")]);
    (* r'\\subsection\*?\{([^}]+)\}' *)
    (lit "\subsection" ++ [Atom (Exactly 42%N) Optional] ++ lit "{" ++ group
       ++ lit "}",
     [Text (u "<h4>"); Group1; Text (u "</h4>")]);
    (lit "\Require", keyword "Require:");
    (lit "\Ensure", keyword "Ensure:");
    (lit "\State", [Text (u "<br>&nbsp;&nbsp;")]);
    (lit "\Repeat", keyword "Repeat:");
    (lit "\Until", keyword "Until:");
    (lit "\If", keyword "If");
    (lit "\Else", keyword "Else");
    (lit "\EndIf", [Text []]);
    (lit "\For", keyword "For");
    (lit "\EndFor", [Text []]);
    (lit "\Return", keyword "Return:");
    (lit "\quad", [Text (u "&emsp;")]);
    (lit "\qquad", [Text (u "&emsp;&emsp;")]);
    (lit "\;", [Text (u "&thinsp;")]);
    (lit "\,", [Text (u "&thinsp;")]);
    (lit "\!", [Text []]);
    (lit "\\", [Text (u "<br>")]);
    (lit "\newline", [Text (u "<br>")]) ].

Fixpoint apply_substitutions (subs : list (regex * template)) (text : str)
  : result str :=
  match subs with
  | [] => Ok text
  | (r, t) :: subs' =>
      text <- sub r t text ;;
      apply_substitutions subs' text
  end.

(** The loop over [text.split('\n')]. *)
Definition display_line (line : str) : str :=
  let stripped := strip line in
  if nonempty stripped then stripped else u "<br>".

Definition prepare_latex_for_katex (text : str) : result str :=
  text <- apply_substitutions substitutions text ;;
  Ok (join_lines (map display_line (split_lines text))).

(** ** The endpoint: [get_cards] *)

(** One object of the response: the keys ['question'], ['answer'] and
    ['source']. *)
Record api_card := ApiCard {
  card_question : str;
  card_answer : str;
  card_source : str
}.

(** The loop over [flashcard_data['cards']]; the list it builds is what
    [jsonify] is given under the key ['cards']. *)
Fixpoint get_cards_loop (data : list card) (cards : list api_card)
  : result (list api_card) :=
  match data with
  | [] => Ok cards
  | (question, answer, source) :: rest =>
      q <- prepare_latex_for_katex question ;;
      a <- prepare_latex_for_katex answer ;;
      get_cards_loop rest (cards ++ [ApiCard q a source])
  end.

Definition get_cards (flashcard_data_cards : list card) : result (list api_card) :=
  get_cards_loop flashcard_data_cards [].

(** ** The entry point: [main] *)

(** What [main] prints, with the numbers the last message carries. *)
Inductive message :=
| DirectoryNotFound           (* "Error: Lectures directory not found at ..." *)
| LoadingFlashcards           (* "Loading flashcards from LaTeX files..." *)
| NoFlashcardsFound           (* "No flashcards found." *)
| Loaded (num_cards num_lectures : nat)
| StartingServer
| OpenBrowser
| PressCtrlC.

Inductive event :=
| Print (m : message)
| AppRun.                     (* app.run(host='0.0.0.0', port=5000, debug=False) *)

(** [len(set(c[2] for c in cards))] *)
Definition count_lectures (cards : list card) : nat :=
  length (nodup (list_eq_dec N.eq_dec) (map (fun c => snd c) cards)).

(** [main]: [lectures] is the lectures directory when it exists,
    [flashcard_data_cards] the stored cards on entry.  The result is what
    was printed and called, the stored cards on exit, and the exception
    that ended the run, if one did. *)
Definition main (lectures : option directory) (flashcard_data_cards : list card)
  : list event * list card * option exn :=
  match lectures with
  | None => ([Print DirectoryNotFound], flashcard_data_cards, None)
  | Some lectures_dir =>
      match load_all_flashcards lectures_dir with
      | Raise e => ([Print LoadingFlashcards], flashcard_data_cards, Some e)
      | Ok cards =>
          match cards with
          | [] => ([Print LoadingFlashcards; Print NoFlashcardsFound], cards, None)
          | _ :: _ =>
              let num_cards := length cards in
              let num_lectures := count_lectures cards in
              ([Print LoadingFlashcards; Print (Loaded num_cards num_lectures);
                Print StartingServer; Print OpenBrowser; Print PressCtrlC; AppRun],
               cards, None)
          end
      end
  end.

(** ** The quiz in the page: the script of [HTML_TEMPLATE]

    The variables of the script are the fields of a state, and the
    functions behind the buttons and the keys are functions on the state.
    What they write into the page ([displayCard]) is left out.  The score
    is a JavaScript number: its type, its zero and its addition are
    parameters.

    [cards = allCards] makes the two variables name one array, and
    [shuffle] writes into the array that [cards] names: the state records
    whether [cards] is the array of [allCards] or an array of its own. *)

Inductive array_ref :=
| SameArray                            (* the array that [allCards] names *)
| OwnArray (a : list api_card).        (* an array of its own *)

Section Quiz.
Variable number : Type.
Variable zero : number.
Variable plus : number -> number -> number.

Record quiz := Quiz {
  allCards : list api_card;
  cards : array_ref;
  currentIndex : nat;
  showingAnswer : bool;
  score : number;
  answered : nat
}.

(** The array that [cards] names. *)
Definition the_cards (st : quiz) : list api_card :=
  match cards st with
  | SameArray => allCards st
  | OwnArray a => a
  end.

(** The state once the cards have been fetched: [allCards = data.cards],
    and [cards] still the empty array of its declaration. *)
Definition fetched (data : list api_card) : quiz :=
  Quiz data (OwnArray []) 0 false zero 0.

(** [[...new Set(l)]]: the distinct values, in the order of their first
    occurrence. *)
Fixpoint distinct (seen l : list str) : list str :=
  match l with
  | [] => []
  | x :: t =>
      if existsb (str_eqb x) seen then distinct seen t
      else x :: distinct (x :: seen) t
  end.

(** The options [showSelector] writes: each source with its count. *)
Definition showSelector (allCards : list api_card) : list (str * nat) :=
  let sources := distinct [] (map card_source allCards) in
  map (fun s =>
         let count := length (filter (fun c => str_eqb (card_source c) s) allCards) in
         (s, count))
      sources.

(** [selected] is the list of the ids of the checked boxes. *)
Definition startQuiz (selected : list str) (st : quiz) : quiz :=
  let filtered := filter (fun c => existsb (str_eqb (card_source c)) selected)
                    (allCards st) in
  let cards := if length filtered =? 0 then SameArray else OwnArray filtered in
  Quiz (allCards st) cards 0 false zero 0.

Definition toggleAnswer (st : quiz) : quiz :=
  Quiz (allCards st) (cards st) (currentIndex st) (negb (showingAnswer st))
    (score st) (answered st).

Definition prevCard (st : quiz) : quiz :=
  if 0 <? currentIndex st then
    Quiz (allCards st) (cards st) (currentIndex st - 1) false (score st) (answered st)
  else st.

(** [currentIndex < cards.length - 1]; with no cards the bound is [-1] in
    the script and [0] here, and the test fails in both. *)
Definition nextCard (st : quiz) : quiz :=
  if currentIndex st <? length (the_cards st) - 1 then
    Quiz (allCards st) (cards st) (currentIndex st + 1) false (score st) (answered st)
  else st.

Definition rate (points : number) (st : quiz) : quiz :=
  if negb (showingAnswer st) then toggleAnswer st
  else
    nextCard (Quiz (allCards st) (cards st) (currentIndex st) (showingAnswer st)
                (plus (score st) points) (answered st + 1)).

(** [a[i] = x] on an index of the array. *)
Fixpoint set_nth {A} (i : nat) (x : A) (l : list A) : list A :=
  match l, i with
  | [], _ => []
  | _ :: t, 0 => x :: t
  | h :: t, S i' => h :: set_nth i' x t
  end.

(** [[a[i], a[j]] = [a[j], a[i]]] on two indices of the array. *)
Definition swap {A} (i j : nat) (l : list A) : list A :=
  match nth_error l i, nth_error l j with
  | Some a, Some b => set_nth j a (set_nth i b l)
  | _, _ => l
  end.

(** The loop of [shuffle], from [i] down to 1.  [random i] stands for the
    draw at step [i]: reduced modulo [i + 1] it ranges over [0 .. i], as
    [Math.floor(Math.random() * (i + 1))] does. *)
Fixpoint shuffle_loop (random : nat -> nat) (i : nat) (a : list api_card)
  : list api_card :=
  match i with
  | 0 => a
  | S i' =>
      let j := random i mod (i + 1) in
      shuffle_loop random i' (swap i j a)
  end.

Definition shuffle (random : nat -> nat) (st : quiz) : quiz :=
  let a := shuffle_loop random (length (the_cards st) - 1) (the_cards st) in
  match cards st with
  | SameArray => Quiz a SameArray 0 false zero 0
  | OwnArray _ => Quiz (allCards st) (OwnArray a) 0 false zero 0
  end.

(** What the buttons and the keys do. *)
Inductive action :=
| StartQuiz (selected : list str)
| ToggleAnswer
| PrevCard
| NextCard
| Rate (points : number)
| Shuffle (random : nat -> nat).

Definition step (a : action) (st : quiz) : quiz :=
  match a with
  | StartQuiz selected => startQuiz selected st
  | ToggleAnswer => toggleAnswer st
  | PrevCard => prevCard st
  | NextCard => nextCard st
  | Rate points => rate points st
  | Shuffle random => shuffle random st
  end.

Definition play (actions : list action) (st : quiz) : quiz :=
  fold_left (fun st a => step a st) actions st.

End Quiz.

Arguments Quiz {number}.
Arguments allCards {number}.
Arguments cards {number}.
Arguments currentIndex {number}.
Arguments showingAnswer {number}.
Arguments score {number}.
Arguments answered {number}.
Arguments the_cards {number}.
Arguments fetched {number}.
Arguments startQuiz {number}.
Arguments toggleAnswer {number}.
Arguments prevCard {number}.
Arguments nextCard {number}.
Arguments rate {number}.
Arguments shuffle {number}.
Arguments StartQuiz {number}.
Arguments ToggleAnswer {number}.
Arguments PrevCard {number}.
Arguments NextCard {number}.
Arguments Rate {number}.
Arguments Shuffle {number}.
Arguments step {number}.
Arguments play {number}.

(** * Vocabulary of the properties *)

(** The text [w] stands at position [p] of [s]. *)
Definition occurs_at (w : str) (p : nat) (s : str) : Prop :=
  firstn (length w) (skipn p s) = w.

(** A continuation that only moves forward, and never past the end. *)
Definition bounded (k : str -> nat -> option outcome) : Prop :=
  forall s pos e g, k s pos = Some (e, g) -> pos <= e <= pos + length s.

(** A pattern that begins with a plain character consumes text. *)
Definition consuming (r : regex) : bool :=
  match r with
  | Atom _ Once :: _ => true
  | Atom _ Plus :: _ => true
  | _ => false
  end.

(** Literal patterns. *)
Definition lits (w : str) : regex := map (fun c => Atom (Exactly c) Once) w.

(** Matches in text order, none starting before the previous one ended. *)
Inductive ordered : nat -> list rmatch -> Prop :=
| ordered_nil lo : ordered lo []
| ordered_cons lo m ms :
    lo <= m_start m -> m_start m <= m_end m -> ordered (m_end m) ms ->
    ordered lo (m :: ms).

(** [m] is what the pattern matches at [m_start m] of [content]. *)
Definition matched (r : regex) (content : str) (m : rmatch) : Prop :=
  match_at r (skipn (m_start m) content) (m_start m) = Some m.

Definition closing_brace : char := 125%N.

Definition part_marker : str := u "\part{".

(** The marker of each boundary followed by its answer span. *)
Fixpoint pieces (content : str) (sections : list rmatch)
    (ims : list (nat * rmatch)) : str :=
  match ims with
  | [] => []
  | (i, m) :: rest =>
      slice (m_start m) (m_end m) content
        ++ slice (m_end m) (answer_end_of content sections i m) content
        ++ pieces content sections rest
  end.

(** No whitespace at either end. *)
Definition trimmed (s : str) : Prop :=
  (forall c t, s = c :: t -> isspace c = false)
  /\ (forall t c, s = t ++ [c] -> isspace c = false).

(** What one boundary adds to the list of records. *)
Definition contribution (content : str) (sections : list rmatch)
    (im : nat * rmatch) : list (str * str) :=
  match card_of content sections (fst im) (snd im) with
  | Some card => [card]
  | None => []
  end.

Definition empty_section : str := u "\section{}".

(** The marker text at [p] lies wholly inside some answer span. *)
Definition in_answer_span (content : str) (p : nat) : Prop :=
  let sections := finditer section_pattern content in
  exists i m, nth_error sections i = Some m
    /\ m_end m <= p
    /\ p + length empty_section <= answer_end_of content sections i m.

(** The marker text at [p] comes before every boundary. *)
Definition before_all_boundaries (content : str) (p : nat) : Prop :=
  forall m, In m (finditer section_pattern content) -> p < m_start m.

(** The marker text at [p] comes after the [\part{] that ends the last span. *)
Definition after_part (content : str) (p : nat) : Prop :=
  let sections := finditer section_pattern content in
  exists i m, nth_error sections i = Some m
    /\ nth_error sections (S i) = None
    /\ occurs_at part_marker (answer_end_of content sections i m) content
    /\ answer_end_of content sections i m <= p.

(** The marker text at [p] lies in the title of a boundary that starts
    before it, and its closing brace is the one that ends that marker. *)
Definition in_title (content : str) (p : nat) : Prop :=
  exists m, In m (finditer section_pattern content)
    /\ m_start m < p /\ m_end m = p + length empty_section.

(** The claim as written: such a marker is no boundary, and its text is
    either inside an answer span or before every boundary. *)
Definition empty_section_claim (content : str) (p : nat) : Prop :=
  occurs_at empty_section p content ->
  (forall m, In m (finditer section_pattern content) -> m_start m <> p)
  /\ (in_answer_span content p \/ before_all_boundaries content p).


(** The records of one file, tagged with its name. *)
Definition records_of (e : str * file) : list card :=
  match snd e with
  | Ok content => map (tag (fst e)) (parse_content content)
  | Raise _ => []
  end.

(** Entries in the order of their names. *)
Definition name_le (e1 e2 : str * file) : Prop := str_leb (fst e1) (fst e2) = true.

(** The file name a record is tagged with. *)
Definition source (c : card) : str := snd c.

(** A name of the form [lecture_<digits>.tex]. *)
Definition numeric_lecture_name (name : str) : bool :=
  let index := firstn (length name - 12) (skipn 8 name) in
  glob_match name && nonempty index && forallb isdecimal index.

(** The claim as written: only files named with a numeric index are
    processed. *)
Definition only_numbered_lectures (d : directory) : Prop :=
  forall cards, load_all_flashcards d = Ok cards ->
  forall c, In c cards -> numeric_lecture_name (source c) = true.

(** Spans, outcomes and matches moved [d] positions to the right. *)
Definition shift_span (d : nat) (g : option (nat * nat)) : option (nat * nat) :=
  option_map (fun ab => (fst ab + d, snd ab + d)) g.

Definition shift_outcome (d : nat) (o : outcome) : outcome :=
  (fst o + d, shift_span d (snd o)).

Definition shift (d : nat) (m : rmatch) : rmatch :=
  Match (m_start m + d) (m_end m + d) (shift_span d (m_span1 m)).

(** [k'] is [k] moved [d] positions to the right. *)
Definition shifts (d : nat) (k k' : str -> nat -> option outcome) : Prop :=
  forall s pos, k' s (pos + d) = option_map (shift_outcome d) (k s pos).

(** The text [re.sub] returns. *)
Definition sub_text (r : regex) (t : template) (s : str) : str :=
  splice t s (finditer r s) 0.

(** A text without backslashes; a text without line breaks. *)
Definition plain (w : str) : bool := forallb (fun c => negb (c =? bsl)%N) w.

Definition one_line (w : str) : bool := forallb (fun c => negb (c =? nl)%N) w.

(** The pattern begins with a literal backslash. *)
Definition backslash_led (r : regex) : bool :=
  match r with
  | Atom (Exactly c) Once :: _ => (c =? bsl)%N
  | _ => false
  end.

(** The substitutions one after the other, as texts. *)
Fixpoint rewrite_all (subs : list (regex * template)) (text : str) : str :=
  match subs with
  | [] => text
  | (r, t) :: subs' => rewrite_all subs' (sub_text r t text)
  end.

Definition open_bracket : char := 91%N.
Definition close_bracket : char := 93%N.

(** The text does not begin with an opening bracket. *)
Definition unlabelled (w : str) : bool :=
  match w with
  | c :: _ => negb (c =? open_bracket)%N
  | [] => true
  end.

(** [r'\\item\[(.*?)\]'] and its template, the thirteenth substitution. *)
Definition item_label_pattern : regex :=
  lit "\item[" ++ [GroupOpen; Atom Dot LazyStar; GroupClose] ++ lit "]".

Definition item_label_template : template :=
  [Text (u "<li><strong>"); Group1; Text (u "</strong> ")].

(** A label: one line, no closing bracket. *)
Definition label_text (l : str) : bool :=
  forallb (fun x => negb (x =? nl)%N && negb (x =? close_bracket)%N) l.

(** The loop over the lines, on its own. *)
Definition line_pass (text : str) : str :=
  join_lines (map display_line (split_lines text)).

(** [x] stands somewhere in [s]. *)
Definition contains (x s : str) : Prop :=
  exists before after, s = before ++ x ++ after.

(** [w] occurs in [s], as a test. *)
Definition occurs (w s : str) : bool :=
  existsb (fun p => str_eqb (firstn (length w) (skipn p s)) w)
    (seq 0 (S (length s))).

Definition itemize_block (a b : str) : str :=
  u "\begin{itemize}\item" ++ a ++ u "\item" ++ b ++ u "\end{itemize}".

Definition labelled_itemize_block (l a b : str) : str :=
  u "\begin{itemize}\item[" ++ l ++ u "]" ++ a ++ u "\item" ++ b
    ++ u "\end{itemize}".

(** The claim as written: whatever text holds the block, the output has
    the opening list tag. *)
Definition itemize_claim (text : str) : Prop :=
  forall a b, contains (itemize_block a b) text ->
  exists out, prepare_latex_for_katex text = Ok out /\ occurs (u "<ul>") out = true.

(** A document written from a list of records: a section marker with the
    question as title, then the answer. *)
Definition render_card (qa : str * str) : str :=
  u "\section{" ++ fst qa ++ closing_brace :: snd qa.

Definition render (cards : list (str * str)) : str := flat_map render_card cards.

(** A title the marker can carry and the parser hands back as it is. *)
Definition clean_question (q : str) : Prop :=
  q <> [] /\ trimmed q /\ forallb (fun c => negb (c =? closing_brace)%N) q = true.

(** An answer the parser hands back as it is. *)
Definition clean_answer (a : str) : Prop :=
  a <> [] /\ trimmed a /\ plain a = true.

Definition clean_card (qa : str * str) : Prop :=
  clean_question (fst qa) /\ clean_answer (snd qa).

(** The capture group [([^}]+)] followed by the closing brace. *)
Definition braced_group : regex :=
  [GroupOpen; Atom (Except closing_brace) Plus; GroupClose;
   Atom (Exactly closing_brace) Once].

(** [r'\\\[(.*?)\\\]'] under [re.DOTALL] and its template, the first
    substitution. *)
Definition display_math_pattern : regex :=
  lit "\[" ++ [GroupOpen; Atom DotAll LazyStar; GroupClose] ++ lit "\]".

Definition display_math_template : template :=
  [Text (u "$$"); Group1; Text (u "$$")].

(** A piece of text that keeps its place on its line: one line, with no
    whitespace at its ends. *)
Definition solid (x : str) : Prop :=
  one_line x = true
  /\ (exists c m, x = c :: m /\ isspace c = false)
  /\ (exists m c, x = m ++ [c] /\ isspace c = false).
(** The argument of a command as the theorems below take it: not empty,
    one line, without backslash and without closing brace. *)
Definition braced_argument (x : str) : bool :=
  nonempty x && plain x && one_line x
  && forallb (fun c => negb (c =? closing_brace)%N) x.

(** A run of decimal digits. *)
Definition digits (d : str) : bool := forallb isdecimal d.
(** [r'\\subsection\*?\{([^}]+)\}'], the fifteenth substitution. *)
Definition subsection_pattern : regex :=
  lit "\subsection" ++ [Atom (Exactly 42%N) Optional] ++ lit "{" ++ braced_group.

(** [r'\\begin\{algorithmic\}\[\d*\]'], the fourth substitution. *)
Definition algorithmic_pattern : regex :=
  lit "\begin{algorithmic}[" ++ [Atom Digit Star] ++ lit "]".
(** The opening tag of the algorithmic container. *)
Definition algorithmic_open : str :=
  u "<div class=" ++ dq :: u "algorithmic" ++ dq :: u ">".

(** The invariant of the quiz over the fetched cards [data]. *)
Definition quiz_invariant {number} (data : list api_card) (st : quiz number) : Prop :=
  currentIndex st <= length (the_cards st) - 1
  /\ Permutation (allCards st) data
  /\ incl (the_cards st) data.

Definition chosen (selected : list str) (c : api_card) : Prop :=
  In (card_source c) selected.

(** Where the answer span of boundary [i] ends, in the words of the
    specification: at the start of the next boundary if there is one; else
    at the first [\part{] at or after the end of the marker if there is
    one; else at the end of the text. *)
Definition span_end (content : str) (sections : list rmatch)
    (i : nat) (m : rmatch) (a : nat) : Prop :=
  m_end m <= a <= length content
  /\ match nth_error sections (S i) with
     | Some next => a = m_start next
     | None =>
         (occurs_at part_marker a content
          /\ forall q, m_end m <= q < a -> ~ occurs_at part_marker q content)
         \/ (a = length content
             /\ forall q, m_end m <= q -> ~ occurs_at part_marker q content)
     end.

(** The record of a boundary whose answer span ends at [a]: the title and
    the span, both stripped, unless one of them is empty. *)
Definition record_of_span (content : str) (m : rmatch) (a : nat)
  : list (str * str) :=
  let question := strip (group1 content m) in
  let answer := strip (slice (m_end m) a content) in
  if nonempty question && nonempty answer then [(question, answer)] else [].

(** The claim as written: a lecture file that cannot be read makes the
    loader raise. *)
Definition unreadable_file_raises (lectures_path : path) : Prop :=
  forall name e,
    In (name, Raise e) (entries_of lectures_path) -> glob_match name = true ->
    exists e', load_all_flashcards_from lectures_path = Raise e'.

(** The literal start of a pattern. *)
Fixpoint lead (r : regex) : str :=
  match r with
  | Atom (Exactly c) Once :: r' => c :: lead r'
  | _ => []
  end.

(** [w] and [s] differ at a position both of them have. *)
Fixpoint clash (w s : str) : bool :=
  match w, s with
  | c :: w', d :: s' => if (c =? d)%N then clash w' s' else true
  | _, _ => false
  end.

(** No match of [r] starts inside [x], whatever follows [x]: from every
    position of [x] on, the literal start of [r] differs from [x] within
    [x]. *)
Fixpoint quiet_for (r : regex) (x : str) : bool :=
  match x with
  | [] => true
  | _ :: x' => clash (lead r) x && quiet_for r x'
  end.

(** No pattern of the table starts inside [x], whatever follows. *)
Definition quiet (x : str) : bool :=
  forallb (fun rt => quiet_for (fst rt) x) substitutions.


(** An item of a list: the item command and its body, or the item command
    with a bracketed label and its body. *)
Inductive item :=
| Bare (body : str)
| Labelled (label body : str).

Definition item_map (f : str -> str) (it : item) : item :=
  match it with
  | Bare body => Bare (f body)
  | Labelled label body => Labelled label (f body)
  end.

(** An item written with [bare] for the command without label, and with
    [opening] and [closing] around a label. *)
Definition item_text (bare opening closing : str) (it : item) : str :=
  match it with
  | Bare body => bare ++ body
  | Labelled label body => opening ++ label ++ closing ++ body
  end.

Definition item_source : item -> str :=
  item_text (u "\item") (u "\item[") (u "]").

Definition item_html : item -> str :=
  item_text (u "<li>") (u "<li><strong>") (u "</strong> ").

(** An itemize block: the begin marker, the text up to the first item, the
    items, the end marker. *)
Definition itemize (gap : str) (items : list item) : str :=
  u "\begin{itemize}" ++ gap ++ flat_map item_source items ++ u "\end{itemize}".

Definition itemize_html (gap : str) (items : list item) : str :=
  u "<ul>" ++ gap ++ flat_map item_html items ++ u "</ul>".

(** The substitution rewrites [x] and what follows [x] apart. *)
Definition splits (r : regex) (t : template) (x : str) : Prop :=
  forall s, sub_text r t (x ++ s) = sub_text r t x ++ sub_text r t s.

(** Each substitution of [subs] in turn rewrites the text that [x] has
    become and what follows it apart: no match begins in the one and ends
    in the other. *)
Fixpoint self_contained_for (subs : list (regex * template)) (x : str) : Prop :=
  match subs with
  | [] => True
  | (r, t) :: subs' => splits r t x /\ self_contained_for subs' (sub_text r t x)
  end.

Definition self_contained (x : str) : Prop :=
  self_contained_for substitutions x.

(** [subs] turn [x] into [y], and do so whatever follows [x]. *)
Definition evolves (subs : list (regex * template)) (x y : str) : Prop :=
  self_contained_for subs x /\ rewrite_all subs x = y.

(** The substitutions rewrite [x] and what follows [x] apart. *)
Definition settled (x : str) : Prop :=
  forall s, rewrite_all substitutions (x ++ s)
            = rewrite_all substitutions x ++ rewrite_all substitutions s.

(** The patterns of [subs] begin with a backslash. *)
Definition led (subs : list (regex * template)) : Prop :=
  forall rt, In rt subs -> backslash_led (fst rt) = true.

(** The items the substitutions [subs] take: no pattern can start inside a
    label, and the body is rewritten apart from what follows it. *)
Definition item_ok_for (subs : list (regex * template)) (it : item) : Prop :=
  match it with
  | Bare body => self_contained_for subs body
  | Labelled label body =>
      (forall rt, In rt subs -> quiet_for (fst rt) label = true)
      /\ self_contained_for subs body
  end.

(** The body of an item without label does not begin with a bracket; a
    label is one line without closing bracket. *)
Definition item_shape (it : item) : Prop :=
  match it with
  | Bare body => unlabelled body = true
  | Labelled label _ => label_text label = true
  end.

(** The items the theorem takes: the body is rewritten apart from what
    follows it; without label it does not begin with a bracket; no pattern
    can start inside a label, which is one line without closing bracket. *)
Definition item_ok (it : item) : Prop :=
  match it with
  | Bare body => self_contained body /\ unlabelled body = true
  | Labelled label body =>
      quiet label = true /\ label_text label = true /\ self_contained body
  end.

(** The template begins with a character that is no opening bracket. *)
Definition no_bracket (t : template) : bool :=
  match t with
  | Text (c :: _) :: _ => negb (c =? open_bracket)%N
  | _ => false
  end.

(** The substitutions before, between and after those of the lists. *)
Definition stages_1_8 : list (regex * template) := firstn 8 substitutions.
Definition stages_11_12 : list (regex * template) :=
  firstn 2 (skipn 10 substitutions).
Definition stages_15_33 : list (regex * template) := skipn 14 substitutions.
Definition begin_itemize : regex * template :=
  (lits (u "\begin{itemize}"), [Text (u "<ul>")]).
Definition end_itemize : regex * template :=
  (lits (u "\end{itemize}"), [Text (u "</ul>")]).
Definition item_label : regex * template :=
  (item_label_pattern, item_label_template).
Definition item_command : regex * template :=
  (lits (u "\item"), [Text (u "<li>")]).

(** A list written with its five markers. *)
Definition list_text (first last bare opening closing gap : str)
    (items : list item) : str :=
  first ++ gap ++ flat_map (item_text bare opening closing) items ++ last.

(** [subs] turn every list written as [F] into the list written as [F'],
    with the text up to the first item and the bodies rewritten. *)
Definition list_step (subs : list (regex * template))
    (F F' : str -> list item -> str) : Prop :=
  forall gap items,
    self_contained_for subs gap -> Forall (item_ok_for subs) items ->
    evolves subs (F gap items)
      (F' (rewrite_all subs gap) (map (item_map (rewrite_all subs)) items)).

(** The text begins, or ends, with a character that is not whitespace. *)
Definition visible_start (z : str) : bool :=
  match z with
  | c :: _ => negb (isspace c)
  | [] => false
  end.

Definition visible_end (x : str) : bool := visible_start (rev x).

(** What the line pass makes of a text that stands before, after, or
    between visible characters of the same text: the line that is shared
    with the neighbour keeps the whitespace on the neighbour's side, the
    other lines are stripped, and the blank ones become line breaks. *)
Definition line_pass_before (x : str) : str :=
  join_lines (map display_line (removelast (split_lines x))
                ++ [lstrip (last (split_lines x) [])]).

Definition line_pass_after (y : str) : str :=
  join_lines (rstrip (hd [] (split_lines y))
                :: map display_line (tl (split_lines y))).

Definition line_pass_between (x : str) : str :=
  match split_lines x with
  | l :: l' :: ls =>
      join_lines (rstrip l :: map display_line (removelast (l' :: ls))
                    ++ [lstrip (last (l' :: ls) [])])
  | _ => x
  end.

(** An item in the output. *)
Definition item_shown (it : item) : str :=
  match it with
  | Bare body => u "<li>" ++ line_pass_between body
  | Labelled label body =>
      u "<li><strong>" ++ label ++ u "</strong>"
        ++ line_pass_between (32%N :: body)
  end.

(** The label of the item, if it has one, is one line. *)
Definition label_on_one_line (it : item) : Prop :=
  match it with
  | Bare _ => True
  | Labelled label _ => one_line label = true
  end.

(** * Properties *)

(** ** Lists and slices *)

Lemma skipn_skipn_add {A} (a b : nat) (l : list A) :
  skipn a (skipn b l) = skipn (b + a) l.
Proof.
  revert l; induction b as [|b IH]; intros l; simpl.
  - reflexivity.
  - destruct l; simpl; [apply skipn_nil | apply IH].
Qed.

Lemma skipn_cons_nth {A} (p : nat) (l : list A) (c : A) (t : list A) :
  skipn p l = c :: t -> skipn (S p) l = t /\ p < length l.
Proof.
  revert l; induction p as [|p IH]; intros l H; simpl in *.
  - subst l; simpl. split; [reflexivity | lia].
  - destruct l as [|x l]; [discriminate|].
    destruct (IH _ H) as [H1 H2]. simpl. split; [exact H1 | lia].
Qed.

Lemma occurs_at_app (w : str) (p : nat) (s : str) :
  occurs_at w p s -> skipn p s = w ++ skipn (p + length w) s.
Proof.
  unfold occurs_at; intros H.
  rewrite <- (firstn_skipn (length w) (skipn p s)) at 1.
  rewrite H, skipn_skipn_add. reflexivity.
Qed.

Lemma occurs_at_bound (w : str) (p : nat) (s : str) :
  occurs_at w p s -> 0 < length w -> p + length w <= length s.
Proof.
  unfold occurs_at; intros H Hw.
  assert (L : length (firstn (length w) (skipn p s)) = length w) by now rewrite H.
  rewrite length_firstn, length_skipn in L. lia.
Qed.

Lemma firstn_plus {A} (a b : nat) (l : list A) :
  firstn (a + b) l = firstn a l ++ firstn b (skipn a l).
Proof.
  revert l; induction a as [|a IH]; intros l; simpl.
  - reflexivity.
  - destruct l as [|x l]; simpl.
    + now rewrite firstn_nil.
    + now rewrite IH.
Qed.

Lemma slice_slice_app (a b c : nat) (s : str) :
  a <= b -> b <= c -> slice a b s ++ slice b c s = slice a c s.
Proof.
  intros Hab Hbc. unfold slice.
  replace (c - a) with ((b - a) + (c - b)) by lia.
  rewrite firstn_plus, skipn_skipn_add.
  replace (a + (b - a)) with b by lia. reflexivity.
Qed.

Lemma slice_to_end (a : nat) (s : str) :
  slice a (length s) s = slice_from a s.
Proof.
  unfold slice, slice_from. apply firstn_all2. rewrite length_skipn. lia.
Qed.

Lemma slice_zero (b : nat) (s : str) : slice 0 b s = firstn b s.
Proof. unfold slice. now rewrite Nat.sub_0_r. Qed.

(** ** The matcher *)

Lemma once_bounded cs k : bounded k -> bounded (once cs k).
Proof.
  intros Hk [|c s] pos e g; simpl; [discriminate|].
  destruct (mem cs c); [|discriminate].
  intros H; apply Hk in H. lia.
Qed.

Lemma once_progress cs k s pos e g :
  bounded k -> once cs k s pos = Some (e, g) -> pos < e.
Proof.
  intros Hk. destruct s as [|c s]; simpl; [discriminate|].
  destruct (mem cs c); [|discriminate].
  intros H; apply Hk in H. lia.
Qed.

Lemma greedy_bounded cs k : bounded k -> bounded (greedy cs k).
Proof.
  intros Hk s; induction s as [|c s IH]; intros pos e g; simpl.
  - intros H; apply Hk in H; simpl in H; lia.
  - destruct (mem cs c).
    + destruct (greedy cs k s (S pos)) as [[e' g']|] eqn:E.
      * intros H; inversion H; subst. apply IH in E. lia.
      * intros H; apply Hk in H; simpl in H; lia.
    + intros H; apply Hk in H; simpl in H; lia.
Qed.

Lemma lazy_bounded cs k : bounded k -> bounded (lazy cs k).
Proof.
  intros Hk s; induction s as [|c s IH]; intros pos e g; simpl.
  - destruct (k [] pos) as [[e' g']|] eqn:E; [|discriminate].
    intros H; inversion H; subst. apply Hk in E; simpl in E; lia.
  - destruct (k (c :: s) pos) as [[e' g']|] eqn:E.
    + intros H; inversion H; subst. apply Hk in E; simpl in E; lia.
    + destruct (mem cs c); [|discriminate].
      intros H; apply IH in H. lia.
Qed.

Lemma optional_bounded cs k : bounded k -> bounded (optional cs k).
Proof.
  intros Hk s pos e g. unfold optional.
  destruct (once cs k s pos) as [[e' g']|] eqn:E.
  - intros H; inversion H; subst. now apply (once_bounded cs k Hk) in E.
  - apply Hk.
Qed.

Lemma run_bounded r : forall gs g, bounded (run r gs g).
Proof.
  induction r as [|n r IH]; intros gs g.
  - intros s pos e g' H; simpl in H. inversion H; subst. lia.
  - destruct n as [cs q| |]; simpl.
    + destruct q.
      * apply once_bounded, IH.
      * apply optional_bounded, IH.
      * apply greedy_bounded, IH.
      * apply once_bounded, greedy_bounded, IH.
      * apply lazy_bounded, IH.
    + intros s pos e g' H. apply (IH _ _ _ _ _ _ H).
    + intros s pos e g' H. apply (IH _ _ _ _ _ _ H).
Qed.

Lemma run_progress r gs g s pos e g' :
  consuming r = true -> run r gs g s pos = Some (e, g') -> pos < e.
Proof.
  destruct r as [|[cs [] | |] r]; simpl; try discriminate; intros _ H.
  - eapply once_progress; [apply run_bounded | exact H].
  - eapply once_progress; [apply greedy_bounded, run_bounded | exact H].
Qed.

Lemma match_at_start r s pos m : match_at r s pos = Some m -> m_start m = pos.
Proof.
  unfold match_at. destruct (run r pos None s pos) as [[e g]|]; [|discriminate].
  intros H; inversion H; reflexivity.
Qed.

Lemma match_at_bounds r s pos m :
  match_at r s pos = Some m -> pos <= m_end m <= pos + length s.
Proof.
  unfold match_at. destruct (run r pos None s pos) as [[e g]|] eqn:E; [|discriminate].
  intros H; inversion H; subst; simpl. now apply run_bounded in E.
Qed.

Lemma match_at_progress r s pos m :
  consuming r = true -> match_at r s pos = Some m -> pos < m_end m.
Proof.
  unfold match_at. intros Hc.
  destruct (run r pos None s pos) as [[e g]|] eqn:E; [|discriminate].
  intros H; inversion H; subst; simpl. eapply run_progress; eauto.
Qed.

Lemma run_lits_app w r gs g t pos :
  run (lits w ++ r) gs g (w ++ t) pos = run r gs g t (pos + length w).
Proof.
  revert pos; induction w as [|c w IH]; intros pos; simpl.
  - now rewrite Nat.add_0_r.
  - rewrite N.eqb_refl, IH. f_equal. lia.
Qed.

Lemma run_lits_inv w r gs g s pos o :
  run (lits w ++ r) gs g s pos = Some o -> firstn (length w) s = w.
Proof.
  revert s pos; induction w as [|c w IH]; intros s pos; simpl.
  - reflexivity.
  - destruct s as [|d s]; simpl; [discriminate|].
    destruct (N.eqb_spec d c); [|discriminate].
    intros H. subst d. f_equal. eapply IH; eauto.
Qed.

Lemma match_at_lits w s pos :
  match_at (lits w) s pos =
  if str_eqb (firstn (length w) s) w then Some (Match pos (pos + length w) None)
  else None.
Proof.
  unfold match_at, str_eqb.
  destruct (list_eq_dec N.eq_dec (firstn (length w) s) w) as [E|E].
  - rewrite <- (firstn_skipn (length w) s), E.
    rewrite <- (app_nil_r (lits w)), run_lits_app. reflexivity.
  - destruct (run (lits w) pos None s pos) eqn:R; [|reflexivity].
    rewrite <- (app_nil_r (lits w)) in R. apply run_lits_inv in R. contradiction.
Qed.

(** ** The scans *)

Lemma ordered_weaken lo lo' ms : lo' <= lo -> ordered lo ms -> ordered lo' ms.
Proof.
  intros Hl H; inversion H; subst; constructor; auto; lia.
Qed.

Lemma finditer_from_inv r content s pos :
  s = skipn pos content ->
  ordered pos (finditer_from r s pos)
  /\ Forall (matched r content) (finditer_from r s pos).
Proof.
  funelim (finditer_from r s pos); intros Hs; symmetry in Hs.
  - match goal with H : match_at _ _ _ = Some _ |- _ =>
      pose proof (match_at_start _ _ _ _ H) as Hst;
      pose proof (match_at_bounds _ _ _ _ H) as Hb; rename H into Hm end.
    split.
    + constructor; [lia | lia | constructor].
    + constructor; [|constructor]. unfold matched. now rewrite Hst, Hs.
  - split; constructor.
  - match goal with H : match_at _ _ _ = Some _ |- _ =>
      pose proof (match_at_start _ _ _ _ H) as Hst;
      pose proof (match_at_bounds _ _ _ _ H) as Hb; rename H into Hm end.
    destruct (skipn_cons_nth pos content c s' Hs) as [Hs' _].
    match goal with IH : forall _, _ -> ordered _ _ /\ _ |- _ =>
      destruct (IH content) as [IH1 IH2] end.
    { rewrite <- Hs', skipn_skipn_add. f_equal. lia. }
    split.
    + constructor; [lia | lia |].
      eapply ordered_weaken; [|exact IH1]. lia.
    + constructor; [|exact IH2]. unfold matched. now rewrite Hst, Hs.
  - destruct (skipn_cons_nth pos content c s' Hs) as [Hs' _].
    match goal with IH : forall _, _ -> ordered _ _ /\ _ |- _ =>
      destruct (IH content) as [IH1 IH2]; [now symmetry|] end.
    split; [|exact IH2].
    eapply ordered_weaken; [|exact IH1]. lia.
Qed.

Lemma finditer_inv r content :
  ordered 0 (finditer r content) /\ Forall (matched r content) (finditer r content).
Proof. apply finditer_from_inv. reflexivity. Qed.

(** [re.search] finds the leftmost position where the pattern matches. *)
Lemma search_from_Some r s pos m :
  search_from r s pos = Some m ->
  exists k, k <= length s
    /\ match_at r (skipn k s) (pos + k) = Some m
    /\ forall j, j < k -> match_at r (skipn j s) (pos + j) = None.
Proof.
  revert pos; induction s as [|c s IH]; intros pos; simpl.
  - destruct (match_at r [] pos) eqn:E; [|discriminate].
    intros H; inversion H; subst. exists 0. rewrite Nat.add_0_r.
    repeat split; auto. intros j Hj; lia.
  - destruct (match_at r (c :: s) pos) eqn:E.
    + intros H; inversion H; subst. exists 0. rewrite Nat.add_0_r.
      repeat split; auto; [lia | intros j Hj; lia].
    + intros H. destruct (IH _ H) as (k & Hk & Hm & Hmin).
      exists (S k). simpl. replace (pos + S k) with (S pos + k) by lia.
      repeat split; auto; [lia|].
      intros [|j] Hj; simpl.
      * now rewrite Nat.add_0_r.
      * replace (pos + S j) with (S pos + j) by lia. apply Hmin. lia.
Qed.

Lemma search_from_None r s pos :
  search_from r s pos = None ->
  forall j, j <= length s -> match_at r (skipn j s) (pos + j) = None.
Proof.
  revert pos; induction s as [|c s IH]; intros pos; simpl.
  - destruct (match_at r [] pos) eqn:E; [discriminate|].
    intros _ j Hj. replace j with 0 by lia. now rewrite Nat.add_0_r.
  - destruct (match_at r (c :: s) pos) eqn:E; [discriminate|].
    intros H [|j] Hj; simpl.
    + now rewrite Nat.add_0_r.
    + replace (pos + S j) with (S pos + j) by lia. apply IH; [exact H | lia].
Qed.



(** What a greedy run leaves to its continuation. *)
Lemma greedy_inv cs k s pos o :
  greedy cs k s pos = Some o ->
  exists n, n <= length s
    /\ forallb (mem cs) (firstn n s) = true
    /\ k (skipn n s) (pos + n) = Some o.
Proof.
  revert pos; induction s as [|c s IH]; intros pos; simpl.
  - intros H. exists 0. simpl. rewrite Nat.add_0_r. auto.
  - destruct (mem cs c) eqn:M.
    + destruct (greedy cs k s (S pos)) as [o'|] eqn:E.
      * intros H; inversion H; subst o'.
        destruct (IH _ E) as (n & Hn & Hall & Hk).
        exists (S n). simpl. rewrite M, Hall.
        replace (pos + S n) with (S pos + n) by lia. repeat split; auto. lia.
      * intros H. exists 0. simpl. rewrite Nat.add_0_r. repeat split; auto. lia.
    + intros H. exists 0. simpl. rewrite Nat.add_0_r. repeat split; auto. lia.
Qed.

(** A lazy run stops at the first place where its continuation succeeds. *)
Lemma lazy_inv cs k s pos o :
  lazy cs k s pos = Some o ->
  exists n, n <= length s
    /\ forallb (mem cs) (firstn n s) = true
    /\ k (skipn n s) (pos + n) = Some o
    /\ forall j, j < n -> k (skipn j s) (pos + j) = None.
Proof.
  revert pos; induction s as [|c s IH]; intros pos; simpl.
  - destruct (k [] pos) as [o'|] eqn:E; [|discriminate].
    intros H; inversion H; subst o'. exists 0. simpl. rewrite Nat.add_0_r.
    repeat split; auto. intros j Hj; lia.
  - destruct (k (c :: s) pos) as [o'|] eqn:E.
    + intros H; inversion H; subst o'. exists 0. simpl. rewrite Nat.add_0_r.
      repeat split; auto; [lia | intros j Hj; lia].
    + destruct (mem cs c) eqn:M; [|discriminate].
      intros H. destruct (IH _ H) as (n & Hn & Hall & Hk & Hmin).
      exists (S n). simpl. rewrite M, Hall.
      replace (pos + S n) with (S pos + n) by lia.
      repeat split; auto; [lia|].
      intros [|j] Hj; simpl.
      * now rewrite Nat.add_0_r.
      * replace (pos + S j) with (S pos + j) by lia. apply Hmin. lia.
Qed.

(** Matches of a consuming pattern are not empty and lie inside the text. *)
Lemma matched_range r content m :
  consuming r = true -> matched r content m ->
  m_start m < m_end m <= length content.
Proof.
  unfold matched; intros Hc Hm.
  pose proof (match_at_progress _ _ _ _ Hc Hm).
  pose proof (match_at_bounds _ _ _ _ Hm) as Hb.
  rewrite length_skipn in Hb. lia.
Qed.

Lemma ordered_nth lo ms i m :
  ordered lo ms -> nth_error ms i = Some m -> lo <= m_start m <= m_end m.
Proof.
  intros Ho; revert i; induction Ho as [|lo m' ms H1 H2 Ho IH]; intros i Hi.
  - destruct i; discriminate.
  - destruct i as [|i]; simpl in Hi.
    + inversion Hi; subst. lia.
    + specialize (IH _ Hi). lia.
Qed.

Lemma ordered_consecutive lo ms i m next :
  ordered lo ms -> nth_error ms i = Some m -> nth_error ms (S i) = Some next ->
  m_end m <= m_start next.
Proof.
  intros Ho; revert i; induction Ho as [|lo m' ms H1 H2 Ho IH]; intros i Hi Hn.
  - destruct i; discriminate.
  - destruct i as [|i]; simpl in Hi, Hn.
    + inversion Hi; subst. apply (ordered_nth _ _ 0 _ Ho) in Hn. lia.
    + eapply IH; eauto.
Qed.

(** ** Matching does not depend on the position *)

Lemma once_shifts cs d k k' : shifts d k k' -> shifts d (once cs k) (once cs k').
Proof.
  intros H [|c s] pos; simpl; [reflexivity|].
  destruct (mem cs c); [apply (H s (S pos)) | reflexivity].
Qed.

Lemma greedy_shifts cs d k k' : shifts d k k' -> shifts d (greedy cs k) (greedy cs k').
Proof.
  intros H s; induction s as [|c s IH]; intros pos; simpl.
  - apply H.
  - destruct (mem cs c); [|apply H].
    change (S (pos + d)) with (S pos + d). rewrite IH.
    destruct (greedy cs k s (S pos)); simpl; [reflexivity | apply H].
Qed.

Lemma lazy_shifts cs d k k' : shifts d k k' -> shifts d (lazy cs k) (lazy cs k').
Proof.
  intros H s; induction s as [|c s IH]; intros pos; simpl.
  - rewrite H. destruct (k [] pos); reflexivity.
  - rewrite H. destruct (k (c :: s) pos); simpl; [reflexivity|].
    destruct (mem cs c); [|reflexivity].
    change (S (pos + d)) with (S pos + d). apply IH.
Qed.

Lemma optional_shifts cs d k k' :
  shifts d k k' -> shifts d (optional cs k) (optional cs k').
Proof.
  intros H s pos. unfold optional.
  rewrite (once_shifts cs d k k' H).
  destruct (once cs k s pos); simpl; [reflexivity | apply H].
Qed.

Lemma run_shifts r d : forall gs g,
  shifts d (run r gs g) (run r (gs + d) (shift_span d g)).
Proof.
  induction r as [|n r IH]; intros gs g.
  - intros s pos. reflexivity.
  - destruct n as [cs q| |]; simpl.
    + destruct q.
      * apply once_shifts, IH.
      * apply optional_shifts, IH.
      * apply greedy_shifts, IH.
      * apply once_shifts, greedy_shifts, IH.
      * apply lazy_shifts, IH.
    + intros s pos. apply (IH pos g).
    + intros s pos. apply (IH gs (Some (gs, pos))).
Qed.

Lemma match_at_shift r s pos d :
  match_at r s (pos + d) = option_map (shift d) (match_at r s pos).
Proof.
  unfold match_at. pose proof (run_shifts r d pos None s pos) as H.
  change (shift_span d None) with (@None (nat * nat)) in H. rewrite H.
  destruct (run r pos None s pos) as [[e g]|]; reflexivity.
Qed.

Lemma finditer_from_shift r s pos d :
  finditer_from r s (pos + d) = map (shift d) (finditer_from r s pos).
Proof.
  funelim (finditer_from r s pos); simp finditer_from; rewrite match_at_shift;
    match goal with H : match_at _ _ _ = _ |- _ => rewrite H end; simpl;
    try reflexivity.
  - f_equal.
    match goal with IH : forall _, _ = map _ _ |- _ => rewrite <- IH end.
    f_equal; [f_equal|]; lia.
  - match goal with IH : forall _, _ = map _ _ |- _ => apply (IH d) end.
Qed.

(** ** [re.sub] without positions *)

Lemma sub_sub_text r t s :
  template_ok r t = true -> sub r t s = Ok (sub_text r t s).
Proof. intros H. unfold sub. now rewrite H. Qed.

Lemma slice_shift (pre s : str) a b :
  slice (a + length pre) (b + length pre) (pre ++ s) = slice a b s.
Proof.
  unfold slice. rewrite skipn_app.
  rewrite skipn_all2 by lia.
  replace (a + length pre - length pre) with a by lia.
  replace (b + length pre - (a + length pre)) with (b - a) by lia.
  reflexivity.
Qed.

Lemma expand_shift t (pre s : str) m :
  expand t (pre ++ s) (shift (length pre) m) = expand t s m.
Proof.
  unfold expand. induction t as [|p t IH]; simpl; [reflexivity|].
  rewrite IH. f_equal. destruct p; [reflexivity|].
  unfold group1. simpl. destruct (m_span1 m) as [[a b]|]; simpl; [|reflexivity].
  apply slice_shift.
Qed.

Lemma splice_shift t (pre s : str) ms last :
  splice t (pre ++ s) (map (shift (length pre)) ms) (last + length pre)
  = splice t s ms last.
Proof.
  revert last; induction ms as [|m ms IH]; intros last; simpl.
  - unfold slice_from. rewrite skipn_app, skipn_all2 by lia.
    replace (last + length pre - length pre) with last by lia. reflexivity.
  - rewrite slice_shift, expand_shift, IH. reflexivity.
Qed.

Lemma splice_shift_head t (pre s : str) ms :
  splice t (pre ++ s) (map (shift (length pre)) ms) 0
  = pre ++ splice t s ms 0.
Proof.
  destruct ms as [|m ms]; simpl.
  - reflexivity.
  - rewrite expand_shift, splice_shift.
    rewrite <- (slice_slice_app 0 (length pre) (m_start m + length pre)) by lia.
    rewrite <- (slice_shift pre s 0 (m_start m)). simpl.
    rewrite slice_zero, firstn_app, firstn_all, Nat.sub_diag. simpl.
    rewrite app_nil_r, <- !app_assoc. reflexivity.
Qed.

Lemma sub_text_nil r t : match_at r [] 0 = None -> sub_text r t [] = [].
Proof.
  intros H. unfold sub_text, finditer. simp finditer_from. now rewrite H.
Qed.

(** No match at the first character: it is copied. *)
Lemma sub_text_skip r t c s :
  match_at r (c :: s) 0 = None -> sub_text r t (c :: s) = c :: sub_text r t s.
Proof.
  intros H. unfold sub_text, finditer. simp finditer_from. rewrite H. simpl.
  pose proof (finditer_from_shift r s 0 1) as Hs.
  change (0 + 1) with 1 in Hs. rewrite Hs.
  apply (splice_shift_head t [c] s).
Qed.

(** A match at the start: the template, then the rest of the text. *)
Lemma sub_text_match r t s m :
  match_at r s 0 = Some m -> 0 < m_end m ->
  sub_text r t s = expand t s m ++ sub_text r t (skipn (m_end m) s).
Proof.
  intros H He. pose proof (match_at_start _ _ _ _ H) as Hst.
  pose proof (match_at_bounds _ _ _ _ H) as Hb. simpl in Hb.
  destruct s as [|c s]; [simpl in Hb; lia|].
  unfold sub_text, finditer. simp finditer_from. rewrite H. simpl.
  rewrite Hst. unfold slice at 1. simpl. f_equal.
  replace (Nat.max (m_end m) 1) with (0 + m_end m) by lia.
  rewrite finditer_from_shift.
  replace (skipn (m_end m - 1) s) with (skipn (m_end m) (c :: s))
    by (destruct (m_end m); [lia | simpl; f_equal; lia]).
  assert (L : length (firstn (m_end m) (c :: s)) = m_end m)
    by (rewrite length_firstn; lia).
  remember (firstn (m_end m) (c :: s)) as pre eqn:Epre.
  remember (skipn (m_end m) (c :: s)) as rest eqn:Erest.
  assert (Hsplit : c :: s = pre ++ rest)
    by (subst pre rest; symmetry; apply firstn_skipn).
  rewrite Hsplit, <- L. apply (splice_shift t pre rest _ 0).
Qed.

(** ** The section marker *)

(** The shape of a match of [section_pattern]: the command, a title with
    at least one character and no closing brace, the closing brace. *)
Lemma section_match_shape content m :
  matched section_pattern content m ->
  exists title,
    title <> []
    /\ forallb (fun c => negb (c =? closing_brace)%N) title = true
    /\ skipn (m_start m) content
       = u "\section{" ++ title ++ closing_brace :: skipn (m_end m) content
    /\ m_end m = m_start m + 9 + length title + 1
    /\ m_span1 m = Some (m_start m + 9, m_start m + 9 + length title).
Proof.
  unfold matched, match_at. set (pos := m_start m). set (s := skipn pos content).
  destruct (run section_pattern pos None s pos) as [[e g]|] eqn:R; [|discriminate].
  intros Hm. injection Hm as Hm.
  pose proof (f_equal m_end Hm) as He; simpl in He; symmetry in He.
  pose proof (f_equal m_span1 Hm) as Hg; simpl in Hg; symmetry in Hg.
  clear Hm.
  change section_pattern with
    (lits (u "\section{")
       ++ [GroupOpen; Atom (Except closing_brace) Plus; GroupClose;
           Atom (Exactly closing_brace) Once]) in R.
  pose proof (run_lits_inv _ _ _ _ _ _ _ R) as Hpre.
  rewrite <- (firstn_skipn (length (u "\section{")) s) in R.
  rewrite Hpre, run_lits_app in R.
  set (t := skipn (length (u "\section{")) s) in *.
  change (length (u "\section{")) with 9 in *.
  simpl in R.
  destruct t as [|c t'] eqn:Et; [discriminate|].
  simpl in R. destruct (negb (c =? closing_brace)%N) eqn:Hc; [|discriminate].
  apply greedy_inv in R. destruct R as (n & Hn & Hall & Hk).
  destruct (skipn n t') as [|d rest] eqn:Er; [discriminate|].
  simpl in Hk. destruct (N.eqb_spec d closing_brace) as [Hd|]; [|discriminate].
  injection Hk as Ee Eg. subst e g d.
  exists (c :: firstn n t').
  assert (Ln : length (firstn n t') = n) by (rewrite length_firstn; lia).
  assert (Hs : s = u "\section{" ++ (c :: firstn n t') ++ closing_brace :: rest).
  { rewrite <- (firstn_skipn 9 s), Hpre. fold t. rewrite Et.
    rewrite <- (firstn_skipn n t') at 1. rewrite Er. reflexivity. }
  assert (Hrest : rest = skipn (m_end m) content).
  { replace (m_end m) with (pos + (9 + S n + 1)) by lia.
    rewrite <- skipn_skipn_add. fold s. rewrite Hs.
    rewrite app_assoc, skipn_app.
    replace (length (u "\section{" ++ c :: firstn n t')) with (9 + S n)
      by (rewrite length_app; simpl; lia).
    replace (9 + S n + 1 - (9 + S n)) with 1 by lia.
    rewrite skipn_all2 by (rewrite length_app; simpl; lia). reflexivity. }
  repeat split.
  - discriminate.
  - simpl. rewrite Hc. exact Hall.
  - rewrite <- Hrest. exact Hs.
  - simpl. rewrite length_firstn. lia.
  - rewrite Hg. simpl. rewrite length_firstn. repeat f_equal; lia.
Qed.

(** ** Answer spans *)

Lemma answer_end_next content sections i m next :
  nth_error sections (S i) = Some next ->
  answer_end_of content sections i m = m_start next.
Proof.
  intros Hn. unfold answer_end_of. rewrite Nat.add_1_r.
  assert (Hl : S i < length sections) by (apply nth_error_Some; congruence).
  apply Nat.ltb_lt in Hl. rewrite Hl.
  now rewrite (nth_error_nth _ _ _ Hn).
Qed.

Lemma answer_end_last content sections i m :
  nth_error sections (S i) = None ->
  answer_end_of content sections i m =
  match search part_pattern (slice_from (m_end m) content) with
  | Some next_part => m_end m + m_start next_part
  | None => length content
  end.
Proof.
  intros Hn. unfold answer_end_of. rewrite Nat.add_1_r.
  apply nth_error_None in Hn.
  assert (Hl : (S i <? length sections) = false) by (apply Nat.ltb_ge; exact Hn).
  now rewrite Hl.
Qed.

Lemma match_at_part_Some s pos m :
  match_at part_pattern s pos = Some m ->
  firstn (length part_marker) s = part_marker /\ m_start m = pos.
Proof.
  change part_pattern with (lits part_marker). rewrite match_at_lits.
  unfold str_eqb.
  destruct (list_eq_dec N.eq_dec (firstn (length part_marker) s) part_marker);
    [|discriminate].
  intros H; inversion H; subst; auto.
Qed.

Lemma match_at_part_None s pos :
  match_at part_pattern s pos = None ->
  firstn (length part_marker) s <> part_marker.
Proof.
  change part_pattern with (lits part_marker). rewrite match_at_lits.
  unfold str_eqb.
  destruct (list_eq_dec N.eq_dec (firstn (length part_marker) s) part_marker);
    [discriminate | auto].
Qed.

(** The end of the last answer span: the first [\part{] after the marker,
    or the end of the text. *)
Lemma answer_end_last_cases content sections i m :
  nth_error sections (S i) = None -> m_end m <= length content ->
  let a := answer_end_of content sections i m in
  m_end m <= a <= length content
  /\ ((occurs_at part_marker a content
       /\ forall q, m_end m <= q < a -> ~ occurs_at part_marker q content)
      \/ (a = length content
          /\ forall q, m_end m <= q -> ~ occurs_at part_marker q content)).
Proof.
  intros Hn He a. subst a. rewrite (answer_end_last _ _ _ _ Hn).
  unfold search, slice_from.
  destruct (search_from part_pattern (skipn (m_end m) content) 0) as [np|] eqn:S.
  - apply search_from_Some in S. destruct S as (k & Hk & Hm & Hmin).
    rewrite length_skipn in Hk. simpl in Hm.
    apply match_at_part_Some in Hm. destruct Hm as [Hocc Hst].
    rewrite skipn_skipn_add in Hocc. rewrite Hst.
    split; [lia|]. left. split; [exact Hocc|].
    intros q Hq Habs.
    specialize (Hmin (q - m_end m) ltac:(lia)). simpl in Hmin.
    apply match_at_part_None in Hmin. apply Hmin.
    rewrite skipn_skipn_add. replace (m_end m + (q - m_end m)) with q by lia.
    exact Habs.
  - split; [lia|]. right. split; [reflexivity|].
    intros q Hq Habs.
    pose proof (occurs_at_bound _ _ _ Habs ltac:(simpl; lia)) as Hb.
    pose proof (search_from_None _ _ _ S (q - m_end m)) as Hnone.
    rewrite length_skipn in Hnone. specialize (Hnone ltac:(lia)). simpl in Hnone.
    apply match_at_part_None in Hnone. apply Hnone.
    rewrite skipn_skipn_add. replace (m_end m + (q - m_end m)) with q by lia.
    exact Habs.
Qed.

Lemma sections_facts content :
  ordered 0 (finditer section_pattern content)
  /\ forall i m, nth_error (finditer section_pattern content) i = Some m ->
       matched section_pattern content m
       /\ m_start m < m_end m <= length content.
Proof.
  destruct (finditer_inv section_pattern content) as [Ho Hm].
  split; [exact Ho|]. intros i m Hi.
  rewrite Forall_forall in Hm. pose proof (Hm _ (nth_error_In _ _ Hi)) as M.
  split; [exact M|]. now apply (matched_range section_pattern).
Qed.

Lemma answer_span_cases content i m :
  let sections := finditer section_pattern content in
  nth_error sections i = Some m ->
  let a := answer_end_of content sections i m in
  m_end m <= a <= length content
  /\ match nth_error sections (S i) with
     | Some next => a = m_start next /\ a < m_end next
     | None =>
         (occurs_at part_marker a content
          /\ forall q, m_end m <= q < a -> ~ occurs_at part_marker q content)
         \/ (a = length content
             /\ forall q, m_end m <= q -> ~ occurs_at part_marker q content)
     end.
Proof.
  intros sections Hi a. subst a sections.
  destruct (sections_facts content) as [Ho Hf].
  destruct (Hf _ _ Hi) as [_ Hr].
  destruct (nth_error (finditer section_pattern content) (S i)) as [next|] eqn:Hn.
  - rewrite (answer_end_next content _ i m next Hn).
    destruct (Hf _ _ Hn) as [_ Hr'].
    pose proof (ordered_consecutive _ _ _ _ _ Ho Hi Hn). lia.
  - apply answer_end_last_cases; [exact Hn | lia].
Qed.

Lemma pieces_slice content pre m0 rest :
  finditer section_pattern content = pre ++ m0 :: rest ->
  exists a,
    pieces content (finditer section_pattern content)
      (combine (seq (length pre) (length (m0 :: rest))) (m0 :: rest))
    = slice (m_start m0) a content
    /\ m_start m0 <= a <= length content
    /\ (a = length content \/ occurs_at part_marker a content).
Proof.
  revert pre m0; induction rest as [|m1 rest IH]; intros pre m0 E.
  - assert (Hi : nth_error (finditer section_pattern content) (length pre) = Some m0).
    { rewrite E, nth_error_app2, Nat.sub_diag by lia. reflexivity. }
    assert (Hn : nth_error (finditer section_pattern content) (S (length pre)) = None).
    { apply nth_error_None. rewrite E, length_app. simpl. lia. }
    pose proof (answer_span_cases content _ _ Hi) as C. cbv zeta in C. rewrite Hn in C.
    cbv beta iota in C.
    destruct (sections_facts content) as [_ Hf]. destruct (Hf _ _ Hi) as [_ Hr].
    exists (answer_end_of content (finditer section_pattern content) (length pre) m0).
    simpl. rewrite app_nil_r. split; [apply slice_slice_app; lia|].
    split; [lia|]. destruct C as [_ [[C _]|[C _]]]; auto.
  - assert (Hi : nth_error (finditer section_pattern content) (length pre) = Some m0).
    { rewrite E, nth_error_app2, Nat.sub_diag by lia. reflexivity. }
    assert (Hn : nth_error (finditer section_pattern content) (S (length pre)) = Some m1).
    { rewrite E, nth_error_app2 by lia.
      replace (S (length pre) - length pre) with 1 by lia. reflexivity. }
    pose proof (answer_span_cases content _ _ Hi) as C. cbv zeta in C. rewrite Hn in C.
    cbv beta iota in C.
    destruct (sections_facts content) as [_ Hf]. destruct (Hf _ _ Hi) as [_ Hr].
    destruct (IH (pre ++ [m0]) m1) as (a & Hp & Ha & Hend).
    { rewrite E, <- app_assoc. reflexivity. }
    rewrite length_app, Nat.add_1_r in Hp.
    exists a. split; [|split; [lia | exact Hend]].
    change (pieces content (finditer section_pattern content)
              (combine (seq (length pre) (length (m0 :: m1 :: rest))) (m0 :: m1 :: rest)))
      with (slice (m_start m0) (m_end m0) content
              ++ slice (m_end m0)
                   (answer_end_of content (finditer section_pattern content) (length pre) m0)
                   content
              ++ pieces content (finditer section_pattern content)
                   (combine (seq (S (length pre)) (length (m1 :: rest))) (m1 :: rest))).
    rewrite Hp. destruct C as [C0 [C1 C2]]. rewrite C1 in *.
    rewrite slice_slice_app by lia. apply slice_slice_app; lia.
Qed.

(** ** Trimming *)

Lemma lstrip_head s c t : lstrip s = c :: t -> isspace c = false.
Proof.
  induction s as [|d s IH]; simpl; [discriminate|].
  destruct (isspace d) eqn:E; [exact IH|].
  intros H; inversion H; subst; exact E.
Qed.

Lemma lstrip_suffix s : exists w, s = w ++ lstrip s /\ forallb isspace w = true.
Proof.
  induction s as [|d s [w [IH1 IH2]]]; simpl.
  - exists []; auto.
  - destruct (isspace d) eqn:E.
    + exists (d :: w). simpl. rewrite E, IH2. split; [now rewrite <- IH1 | reflexivity].
    + exists []; auto.
Qed.

Lemma lstrip_spaces s : forallb isspace s = true -> lstrip s = [].
Proof.
  induction s as [|d s IH]; simpl; [reflexivity|].
  destruct (isspace d); [exact IH | discriminate].
Qed.

Lemma rstrip_last s t c : rstrip s = t ++ [c] -> isspace c = false.
Proof.
  unfold rstrip. intros H. apply (f_equal (@rev N)) in H.
  rewrite rev_involutive, rev_app_distr in H. simpl in H.
  eapply lstrip_head; eauto.
Qed.

Lemma rstrip_prefix s : exists w, s = rstrip s ++ w /\ forallb isspace w = true.
Proof.
  unfold rstrip. destruct (lstrip_suffix (rev s)) as [w [H1 H2]].
  exists (rev w). split.
  - rewrite <- rev_app_distr, <- H1. now rewrite rev_involutive.
  - rewrite forallb_forall in *. intros x Hx. apply H2. now apply in_rev.
Qed.

Lemma strip_trimmed s : trimmed (strip s).
Proof.
  unfold strip. split.
  - intros c t H. destruct (rstrip_prefix (lstrip s)) as [w [H1 _]].
    rewrite H in H1. simpl in H1. eapply lstrip_head; eauto.
  - intros t c H. eapply rstrip_last; eauto.
Qed.

Lemma strip_spaces s : forallb isspace s = true -> strip s = [].
Proof.
  intros H. unfold strip. rewrite (lstrip_spaces _ H). reflexivity.
Qed.

Lemma nonempty_true s : nonempty s = true <-> s <> [].
Proof. destruct s; simpl; split; congruence. Qed.

(** ** Records *)

Lemma fold_collect {A B} (f : A -> option B) (l : list A) (acc : list B) :
  fold_left (fun acc x => match f x with
                          | Some c => acc ++ [c]
                          | None => acc
                          end) l acc
  = acc ++ flat_map (fun x => match f x with
                              | Some c => [c]
                              | None => []
                              end) l.
Proof.
  revert acc; induction l as [|x l IH]; intros acc; simpl.
  - now rewrite app_nil_r.
  - rewrite IH. destruct (f x); simpl.
    + now rewrite <- app_assoc.
    + reflexivity.
Qed.

Lemma parse_content_flat_map content :
  parse_content content =
  flat_map (contribution content (finditer section_pattern content))
    (enumerate (finditer section_pattern content)).
Proof.
  unfold parse_content.
  exact (fold_collect
           (fun im => card_of content (finditer section_pattern content) (fst im) (snd im))
           _ []).
Qed.

Lemma card_of_Some content sections i m q a :
  card_of content sections i m = Some (q, a) ->
  q = strip (group1 content m)
  /\ a = strip (slice (m_end m) (answer_end_of content sections i m) content)
  /\ q <> [] /\ a <> [].
Proof.
  unfold card_of.
  destruct (nonempty (strip (group1 content m))) eqn:Q; simpl; [|discriminate].
  destruct (nonempty (strip (slice (m_end m) (answer_end_of content sections i m) content)))
    eqn:A; [|discriminate].
  intros H; inversion H; subst.
  apply nonempty_true in Q, A. auto.
Qed.

(** No match of [section_pattern] starts at a [\section{}]. *)
Lemma empty_title_no_match content p m :
  occurs_at (u "\section{}") p content ->
  matched section_pattern content m -> m_start m <> p.
Proof.
  intros Hocc Hm Hp. apply occurs_at_app in Hocc.
  destruct (section_match_shape content m Hm) as (title & Hne & Hall & Hs & _).
  rewrite Hp, Hocc in Hs.
  destruct title as [|c title]; [congruence|].
  simpl in Hs, Hall. injection Hs as Hs. subst c. discriminate.
Qed.

(** C3. The records are what the boundaries contribute, in order; a
    boundary contributes its trimmed title and trimmed answer span when
    both are non-empty and nothing otherwise, so every record has both
    components trimmed and non-empty; a title of whitespace only gives no
    record, and a [\section{}] is no boundary at all. *)
Theorem parse_content_trimmed (content : str) :
  let sections := finditer section_pattern content in
  parse_content content = flat_map (contribution content sections) (enumerate sections)
  /\ (forall i m,
        let q := strip (group1 content m) in
        let a := strip (slice (m_end m) (answer_end_of content sections i m) content) in
        (q <> [] -> a <> [] -> contribution content sections (i, m) = [(q, a)])
        /\ (q = [] \/ a = [] -> contribution content sections (i, m) = [])
        /\ (forallb isspace (group1 content m) = true ->
            contribution content sections (i, m) = []))
  /\ (forall q a, In (q, a) (parse_content content) ->
        q <> [] /\ a <> [] /\ trimmed q /\ trimmed a)
  /\ (forall p m, occurs_at (u "\section{}") p content ->
        In m sections -> m_start m <> p).
Proof.
  intros sections. split; [apply parse_content_flat_map|]. split; [|split].
  - intros i m q a. unfold contribution, card_of. simpl fst; simpl snd.
    fold q. fold a. repeat split.
    + intros Hq Ha. apply nonempty_true in Hq, Ha. now rewrite Hq, Ha.
    + intros [H|H]; rewrite H; simpl; [reflexivity|].
      now rewrite andb_false_r.
    + intros H. unfold q. now rewrite (strip_spaces _ H).
  - intros q a Hin. rewrite parse_content_flat_map in Hin.
    apply in_flat_map in Hin. destruct Hin as [[i m] [_ Hc]].
    unfold contribution in Hc. simpl in Hc.
    destruct (card_of content (finditer section_pattern content) i m) as [[q' a']|] eqn:C;
      [|contradiction].
    destruct Hc as [Hc|[]]. inversion Hc; subst q' a'.
    apply card_of_Some in C. destruct C as (Hq & Ha & Hq' & Ha').
    repeat split; auto; subst; apply strip_trimmed.
  - intros p m Hocc Hin.
    destruct (finditer_inv section_pattern content) as [_ Hm].
    rewrite Forall_forall in Hm. apply (empty_title_no_match content); auto.
Qed.

(** ** A section command with empty braces *)

Lemma occurs_at_slice w p a b (s : str) :
  occurs_at w p s -> a <= p -> p + length w <= b ->
  occurs_at w (p - a) (slice a b s).
Proof.
  unfold occurs_at, slice. intros H Ha Hb.
  rewrite skipn_firstn_comm, skipn_skipn_add.
  replace (a + (p - a)) with p by lia.
  rewrite firstn_firstn. replace (Nat.min (length w) (b - a - (p - a))) with (length w) by lia.
  exact H.
Qed.

(** Inside a [\section{}] only its first character is a backslash. *)
Lemma no_backslash_inside content p q t :
  occurs_at empty_section p content -> skipn q content = bsl :: t ->
  p < q -> p + length empty_section <= q.
Proof.
  intros Hocc Hq Hlt. apply occurs_at_app in Hocc.
  destruct (le_lt_dec (p + length empty_section) q) as [|Hin]; [assumption|].
  exfalso. replace q with (p + (q - p)) in Hq by lia.
  rewrite <- skipn_skipn_add, Hocc in Hq.
  change (length empty_section) with 10 in Hin.
  remember (q - p) as j eqn:Ej.
  do 10 (destruct j as [|j]; [first [lia | discriminate Hq]|]). lia.
Qed.

Lemma first_brace_unique (a b r r' : str) :
  forallb (fun c => negb (c =? closing_brace)%N) a = true ->
  forallb (fun c => negb (c =? closing_brace)%N) b = true ->
  a ++ closing_brace :: r = b ++ closing_brace :: r' -> a = b.
Proof.
  revert b; induction a as [|x a IH]; intros [|y b]; simpl; intros Ha Hb E.
  - reflexivity.
  - injection E as E _. subst y. discriminate.
  - injection E as E _. subst x. discriminate.
  - apply andb_prop in Ha, Hb. destruct Ha, Hb.
    injection E as E1 E2. subst y. f_equal. now apply IH.
Qed.

Lemma forallb_skipn {A} (f : A -> bool) n (l : list A) :
  forallb f l = true -> forallb f (skipn n l) = true.
Proof.
  intros H. rewrite forallb_forall in *. intros x Hx. apply H.
  rewrite <- (firstn_skipn n l). apply in_or_app. now right.
Qed.

(** A [\section{}] that starts inside a marker ends it. *)
Lemma empty_section_in_marker content p m :
  occurs_at empty_section p content -> matched section_pattern content m ->
  m_start m < p < m_end m -> m_end m = p + length empty_section.
Proof.
  intros Hocc Hm Hp. apply occurs_at_app in Hocc.
  destruct (section_match_shape content m Hm) as (title & Hne & Hall & Hs & He & _).
  assert (Hd : skipn p content = skipn (p - m_start m) (skipn (m_start m) content)).
  { rewrite skipn_skipn_add. f_equal. lia. }
  rewrite Hs, Hocc in Hd.
  remember (p - m_start m) as d eqn:Ed.
  assert (H9 : 9 <= d).
  { destruct (le_lt_dec 9 d) as [|Hlt]; [assumption|]. exfalso.
    do 9 (destruct d as [|d]; [first [lia | discriminate Hd]|]). lia. }
  set (X := title ++ closing_brace :: skipn (m_end m) content) in *.
  set (R := skipn (p + length empty_section) content) in *.
  assert (Hd' : skipn (d - 9) X = u "\section{" ++ closing_brace :: R).
  { change (u "\section{" ++ closing_brace :: R) with (empty_section ++ R).
    rewrite Hd.
    replace (skipn d (u "\section{" ++ X)) with (skipn (9 + (d - 9)) (u "\section{" ++ X))
      by (f_equal; lia).
    reflexivity. }
  unfold X in Hd'. rewrite skipn_app in Hd'.
  replace (d - 9 - length title) with 0 in Hd' by lia.
  simpl skipn at 2 in Hd'. symmetry in Hd'.
  apply first_brace_unique in Hd'; [|reflexivity | now apply forallb_skipn].
  apply (f_equal (@length N)) in Hd'. rewrite length_skipn in Hd'.
  change (length (u "\section{")) with 9 in Hd'.
  change (length empty_section) with 10. lia.
Qed.

Lemma section_starts_with_backslash content m :
  matched section_pattern content m ->
  exists t, skipn (m_start m) content = bsl :: t.
Proof.
  intros Hm. destruct (section_match_shape content m Hm) as (title & _ & _ & Hs & _).
  rewrite Hs. eexists. reflexivity.
Qed.

Lemma part_starts_with_backslash content a :
  occurs_at part_marker a content -> exists t, skipn a content = bsl :: t.
Proof.
  intros H. apply occurs_at_app in H. rewrite H. eexists. reflexivity.
Qed.

Lemma classify_empty_section content p pre m0 rest :
  finditer section_pattern content = pre ++ m0 :: rest ->
  occurs_at empty_section p content -> m_start m0 <= p ->
  in_answer_span content p \/ after_part content p \/ in_title content p.
Proof.
  intros E Hocc. revert pre m0 E.
  induction rest as [|m1 rest IH]; intros pre m0 E Hle;
    destruct (sections_facts content) as [_ Hf];
    assert (Hi : nth_error (finditer section_pattern content) (length pre) = Some m0)
      by (rewrite E, nth_error_app2, Nat.sub_diag by lia; reflexivity);
    destruct (Hf _ _ Hi) as [Hm Hr];
    pose proof (empty_title_no_match content p m0 Hocc Hm) as Hne;
    pose proof (answer_span_cases content _ _ Hi) as C; cbv zeta in C;
    (destruct (le_lt_dec (m_end m0) p) as [Hend|Hend];
     [| right; right; exists m0; split; [apply (nth_error_In _ _ Hi)|];
        split; [lia|]; apply (empty_section_in_marker content p m0 Hocc Hm); lia]).
  - assert (Hn : nth_error (finditer section_pattern content) (S (length pre)) = None)
      by (apply nth_error_None; rewrite E, length_app; simpl; lia).
    rewrite Hn in C. destruct C as [Ha [[Hpart Hmin]|[Hlen _]]].
    + destruct (le_lt_dec (answer_end_of content (finditer section_pattern content)
                             (length pre) m0) p) as [Hap|Hap].
      * right; left. exists (length pre), m0. auto.
      * left. exists (length pre), m0. repeat split; auto.
        destruct (part_starts_with_backslash _ _ Hpart) as [t Ht].
        apply (no_backslash_inside content p _ t Hocc Ht Hap).
    + left. exists (length pre), m0. repeat split; auto.
      rewrite Hlen. apply occurs_at_bound; [exact Hocc | simpl; lia].
  - assert (Hn : nth_error (finditer section_pattern content) (S (length pre)) = Some m1).
    { rewrite E, nth_error_app2 by lia.
      replace (S (length pre) - length pre) with 1 by lia. reflexivity. }
    rewrite Hn in C. cbv beta iota in C. destruct C as [Ha [Hnext _]].
    destruct (le_lt_dec (m_start m1) p) as [H1|H1].
    + apply (IH (pre ++ [m0]) m1); [|exact H1].
      rewrite E, <- app_assoc. reflexivity.
    + left. exists (length pre), m0. repeat split; auto.
      rewrite Hnext. destruct (Hf _ _ Hn) as [Hm1 _].
      destruct (section_starts_with_backslash content m1 Hm1) as [t Ht].
      apply (no_backslash_inside content p _ t Hocc Ht H1).
Qed.

(** C10, as written, fails: a [\section{}] after the [\part{] that ends the
    last answer span is in no span and does not precede the boundary. *)
Lemma empty_section_after_part_refutes :
  ~ empty_section_claim (u "\section{Q}A\part{P}\section{}") 20.
Proof.
  unfold empty_section_claim. intros H.
  destruct (H eq_refl) as [_ [Hspan|Hbefore]].
  - destruct Hspan as (i & m & Hn & H1 & H2).
    destruct i as [|[|i]]; vm_compute in Hn; try discriminate.
    injection Hn as Hn. subst m. vm_compute in H2.
    repeat (apply le_S_n in H2). inversion H2.
  - specialize (Hbefore (Match 0 11 (Some (9, 10)))).
    assert (Hin : In (Match 0 11 (Some (9, 10)))
                    (finditer section_pattern (u "\section{Q}A\part{P}\section{}")))
      by (vm_compute; left; reflexivity).
    apply Hbefore in Hin. simpl in Hin. inversion Hin.
Qed.

(** C10, amended. A [\section{}] is never the start of a boundary.  Its
    text lies wholly inside an answer span (and stands there verbatim), or
    wholly before every boundary, or after the [\part{] that ends the last
    answer span, or in the title of a boundary that began earlier. *)
Theorem empty_section_marker (content : str) (p : nat) :
  occurs_at empty_section p content ->
  let sections := finditer section_pattern content in
  (forall m, In m sections -> m_start m <> p)
  /\ ((exists i m, nth_error sections i = Some m
         /\ m_end m <= p
         /\ p + length empty_section <= answer_end_of content sections i m
         /\ occurs_at empty_section (p - m_end m)
              (slice (m_end m) (answer_end_of content sections i m) content))
      \/ (forall m, In m sections -> p + length empty_section <= m_start m)
      \/ after_part content p
      \/ in_title content p).
Proof.
  intros Hocc sections. unfold sections.
  destruct (sections_facts content) as [Ho Hf].
  destruct (finditer_inv section_pattern content) as [_ Hall].
  rewrite Forall_forall in Hall.
  split.
  - intros m Hin. apply (empty_title_no_match content); auto.
  - destruct (finditer section_pattern content) as [|m0 rest] eqn:E.
    + right; left. intros m [].
    + destruct (le_lt_dec (m_start m0) p) as [H0|H0].
      * pose proof (classify_empty_section content p [] m0 rest) as C.
        rewrite E in C. specialize (C eq_refl Hocc H0).
        unfold in_answer_span, after_part, in_title in *. rewrite E in *.
        destruct C as [(i & m & Hn & H1 & H2)|[C|C]]; auto.
        left. exists i, m. repeat split; auto.
        apply occurs_at_slice; auto.
      * right; left. intros m Hin.
        assert (Hfirst : p + length empty_section <= m_start m0).
        { destruct (section_starts_with_backslash content m0 (Hall _ (or_introl eq_refl)))
            as [t Ht].
          apply (no_backslash_inside content p _ t Hocc Ht H0). }
        destruct Hin as [<-|Hin]; [exact Hfirst|].
        inversion Ho as [|? ? ? _ Hse Ho']; subst.
        destruct (In_nth_error _ _ Hin) as [i Hi].
        pose proof (ordered_nth _ _ _ _ Ho' Hi). lia.
Qed.

(** ** The loader *)

Lemma load_files_Ok files acc cards :
  load_files files acc = Ok cards ->
  cards = acc ++ flat_map records_of files
  /\ Forall (fun e => exists content, snd e = Ok content) files.
Proof.
  revert acc; induction files as [|[name f] files IH]; intros acc; simpl.
  - intros H; inversion H; subst. rewrite app_nil_r. auto.
  - destruct f as [content|e]; simpl; [|discriminate].
    intros H. destruct (IH _ H) as [H1 H2]. split.
    + rewrite H1, <- app_assoc. reflexivity.
    + constructor; [now exists content | exact H2].
Qed.

Lemma load_files_Raise files acc e :
  load_files files acc = Raise e -> exists name, In (name, Raise e) files.
Proof.
  revert acc; induction files as [|[name f] files IH]; intros acc; simpl.
  - discriminate.
  - destruct f as [content|e']; simpl.
    + intros H. destruct (IH _ H) as [n Hn]. exists n. now right.
    + intros H; inversion H; subst. exists name. now left.
Qed.

Lemma load_files_readable files acc :
  Forall (fun e => exists content, snd e = Ok content) files ->
  load_files files acc = Ok (acc ++ flat_map records_of files).
Proof.
  intros H; revert acc; induction H as [|[name f] files [content Hc] _ IH];
    intros acc; simpl.
  - now rewrite app_nil_r.
  - simpl in Hc. subst f. simpl. rewrite IH, <- app_assoc. reflexivity.
Qed.

(** The order of names. *)
Lemma str_leb_refl a : str_leb a a = true.
Proof.
  induction a as [|x a IH]; simpl; [reflexivity|].
  now rewrite N.ltb_irrefl, N.eqb_refl.
Qed.

Lemma str_leb_total a b : str_leb a b = false -> str_leb b a = true.
Proof.
  revert b; induction a as [|x a IH]; intros [|y b]; simpl; try discriminate; auto.
  destruct (N.ltb_spec x y); [discriminate|].
  destruct (N.eqb_spec x y) as [->|Hne].
  - rewrite N.ltb_irrefl, N.eqb_refl. apply IH.
  - intros _. assert (Hlt : (y < x)%N) by lia.
    apply N.ltb_lt in Hlt. now rewrite Hlt.
Qed.

Lemma str_leb_antisym a b : str_leb a b = true -> str_leb b a = true -> a = b.
Proof.
  revert b; induction a as [|x a IH]; intros [|y b]; simpl; try discriminate; auto.
  destruct (N.ltb_spec x y) as [Hxy|Hxy].
  - destruct (N.ltb_spec y x); [lia|].
    destruct (N.eqb_spec y x); [lia | discriminate].
  - destruct (N.eqb_spec x y) as [->|Hne]; [|discriminate].
    rewrite N.ltb_irrefl, N.eqb_refl. intros H1 H2. f_equal. now apply IH.
Qed.

Lemma str_leb_trans a b c :
  str_leb a b = true -> str_leb b c = true -> str_leb a c = true.
Proof.
  revert b c; induction a as [|x a IH]; intros [|y b] [|z c]; simpl;
    try discriminate; auto.
  destruct (N.ltb_spec x y) as [Hxy|Hxy].
  - intros _. destruct (N.ltb_spec y z) as [Hyz|Hyz].
    + intros _. assert (H : (x < z)%N) by lia. apply N.ltb_lt in H. now rewrite H.
    + destruct (N.eqb_spec y z) as [->|]; [|discriminate].
      intros _. apply N.ltb_lt in Hxy. now rewrite Hxy.
  - destruct (N.eqb_spec x y) as [->|]; [|discriminate].
    intros H1. destruct (N.ltb_spec y z); [reflexivity|].
    destruct (N.eqb_spec y z); [|discriminate]. now apply IH.
Qed.

(** [sorted] sorts. *)
Lemma insert_sorted_perm e l : Permutation (insert_sorted e l) (e :: l).
Proof.
  induction l as [|e' l IH]; simpl; [reflexivity|].
  destruct (str_leb (fst e) (fst e')); [reflexivity|].
  rewrite IH. apply perm_swap.
Qed.

Lemma sorted_perm l : Permutation (sorted l) l.
Proof.
  induction l as [|e l IH]; simpl; [reflexivity|].
  rewrite insert_sorted_perm. now constructor.
Qed.

Lemma insert_sorted_strongly e l :
  StronglySorted name_le l -> StronglySorted name_le (insert_sorted e l).
Proof.
  induction 1 as [|e' l Hs IH Hall]; simpl.
  - repeat constructor.
  - destruct (str_leb (fst e) (fst e')) eqn:E.
    + constructor; [now constructor|]. constructor; [exact E|].
      rewrite Forall_forall in *. intros x Hx.
      eapply str_leb_trans; [exact E | now apply Hall].
    + constructor; [exact IH|].
      rewrite Forall_forall in *. intros x Hx.
      apply (Permutation_in _ (insert_sorted_perm e l)) in Hx.
      destruct Hx as [<-|Hx]; [now apply str_leb_total | now apply Hall].
Qed.

Lemma sorted_strongly l : StronglySorted name_le (sorted l).
Proof.
  induction l as [|e l IH]; simpl; [constructor | now apply insert_sorted_strongly].
Qed.

(** A directory has one entry per name, so its sorted listing is unique. *)
Lemma same_name_same_entry (l : directory) e1 e2 :
  NoDup (map fst l) -> In e1 l -> In e2 l -> fst e1 = fst e2 -> e1 = e2.
Proof.
  induction l as [|x l IH]; simpl; [contradiction|].
  intros Hnd [->|H1] [->|H2] Hf; inversion Hnd as [|? ? Hnot Hnd']; subst; auto.
  - exfalso. apply Hnot. rewrite Hf. now apply in_map.
  - exfalso. apply Hnot. rewrite <- Hf. now apply in_map.
Qed.

Lemma strongly_sorted_unique (l1 l2 : directory) :
  NoDup (map fst l1) -> Permutation l1 l2 ->
  StronglySorted name_le l1 -> StronglySorted name_le l2 -> l1 = l2.
Proof.
  revert l2; induction l1 as [|x l1 IH]; intros l2 Hnd Hp H1 H2.
  - apply Permutation_nil in Hp. now subst.
  - destruct l2 as [|y l2]; [apply Permutation_sym, Permutation_nil in Hp; discriminate|].
    assert (Hxy : x = y).
    { apply (same_name_same_entry (x :: l1)); auto; [now left | |].
      - apply (Permutation_in _ (Permutation_sym Hp)). now left.
      - inversion H1 as [|? ? _ Hx]; inversion H2 as [|? ? _ Hy]; subst.
        rewrite Forall_forall in Hx, Hy.
        assert (Hy_in : In y (x :: l1))
          by (apply (Permutation_in _ (Permutation_sym Hp)); now left).
        assert (Hx_in : In x (y :: l2))
          by (apply (Permutation_in _ Hp); now left).
        destruct Hy_in as [->|Hy_in]; [reflexivity|].
        destruct Hx_in as [->|Hx_in]; [reflexivity|].
        apply str_leb_antisym; [now apply Hx | now apply Hy]. }
    subst y. f_equal.
    inversion Hnd; inversion H1; inversion H2; subst.
    apply IH; auto. now apply Permutation_cons_inv in Hp.
Qed.

Lemma filter_perm {A} (f : A -> bool) (l l' : list A) :
  Permutation l l' -> Permutation (filter f l) (filter f l').
Proof.
  induction 1 as [|x l l' _ IH|x y l|l l' l'' _ IH1 _ IH2]; simpl.
  - constructor.
  - destruct (f x); [now constructor | exact IH].
  - destruct (f x), (f y); try reflexivity. apply perm_swap.
  - now rewrite IH1.
Qed.

Lemma NoDup_map_filter {A B} (g : A -> B) (f : A -> bool) (l : list A) :
  NoDup (map g l) -> NoDup (map g (filter f l)).
Proof.
  induction l as [|x l IH]; simpl; [auto|].
  intros H; inversion H as [|? ? Hnot Hnd]; subst.
  destruct (f x); simpl; [|now apply IH].
  constructor; [|now apply IH].
  intros Hin. apply Hnot. apply in_map_iff in Hin.
  destruct Hin as (y & Hy & Hin). apply filter_In in Hin.
  rewrite <- Hy. apply in_map. tauto.
Qed.

Lemma sorted_glob_order_free (d d' : directory) :
  NoDup (map fst d) -> Permutation d d' ->
  sorted (glob d) = sorted (glob d').
Proof.
  intros Hnd Hp. apply strongly_sorted_unique.
  - apply (Permutation_NoDup (l := map fst (glob d))).
    + apply Permutation_map, Permutation_sym, sorted_perm.
    + now apply NoDup_map_filter.
  - rewrite sorted_perm, sorted_perm. now apply filter_perm.
  - apply sorted_strongly.
  - apply sorted_strongly.
Qed.

Lemma in_sorted_glob (d : directory) e :
  In e (sorted (glob d)) <-> In e d /\ glob_match (fst e) = true.
Proof.
  split.
  - intros H. apply (Permutation_in _ (sorted_perm _)) in H.
    now apply filter_In in H.
  - intros H. apply (Permutation_in _ (Permutation_sym (sorted_perm _))).
    now apply filter_In.
Qed.

Lemma records_sorted (files : directory) :
  StronglySorted name_le files ->
  StronglySorted (fun c1 c2 => str_leb (source c1) (source c2) = true)
    (flat_map records_of files).
Proof.
  induction 1 as [|[name f] files Hs IH Hall]; simpl; [constructor|].
  unfold records_of at 1. simpl.
  destruct f as [content|e]; simpl; [|exact IH].
  induction (parse_content content) as [|qa qas IHq]; simpl; [exact IH|].
  constructor; [exact IHq|].
  rewrite Forall_forall. intros c Hc. apply in_app_or in Hc.
  destruct Hc as [Hc|Hc].
  - apply in_map_iff in Hc. destruct Hc as (qa' & <- & _).
    unfold source, tag; simpl. apply str_leb_refl.
  - apply in_flat_map in Hc. destruct Hc as ([name' f'] & Hin & Hc).
    rewrite Forall_forall in Hall. specialize (Hall _ Hin).
    unfold name_le in Hall; simpl in Hall.
    unfold records_of in Hc; simpl in Hc. destruct f'; [|contradiction].
    apply in_map_iff in Hc. destruct Hc as (qa' & <- & _).
    unfold source, tag; simpl. exact Hall.
Qed.

Lemma strongly_sorted_nth {A} (R : A -> A -> Prop) (l : list A) i j x y :
  StronglySorted R l -> nth_error l i = Some x -> nth_error l j = Some y ->
  i < j -> R x y.
Proof.
  intros Hs; revert i j; induction Hs as [|a l Hs IH Hall]; intros i j Hi Hj Hlt.
  - destruct i; discriminate.
  - destruct j as [|j]; [lia|]. simpl in Hj.
    destruct i as [|i]; simpl in Hi.
    + inversion Hi; subst. rewrite Forall_forall in Hall.
      apply Hall. eapply nth_error_In; eauto.
    + apply (IH i j); auto. lia.
Qed.

(** C6, as written, fails: the glob takes any name between [lecture_] and
    [.tex], numeric or not. *)
Lemma lecture_without_number_refutes :
  ~ only_numbered_lectures [(u "lecture_intro.tex", Ok (u "\section{Q}A"))].
Proof.
  intros H.
  specialize (H [(u "Q", u "A", u "lecture_intro.tex")] eq_refl
                (u "Q", u "A", u "lecture_intro.tex") (or_introl eq_refl)).
  vm_compute in H. discriminate.
Qed.

(** C6, amended. The loader processes the files whose names begin with
    [lecture_] and end with [.tex], whatever lies between, in the order of
    their names and whatever the order of the listing; the records come
    file by file, each tagged with the name of its file, so those of
    [lecture_01.tex] precede those of [lecture_02.tex]. *)
Theorem load_all_flashcards_order (d : directory) :
  NoDup (map fst d) ->
  (forall cards, load_all_flashcards d = Ok cards ->
     cards = flat_map records_of (sorted (glob d))
     /\ (forall c, In c cards ->
           glob_match (source c) = true
           /\ exists content, In (source c, Ok content) d
                /\ In (fst c) (parse_content content))
     /\ StronglySorted (fun c1 c2 => str_leb (source c1) (source c2) = true) cards
     /\ (forall i j c1 c2,
           nth_error cards i = Some c1 -> nth_error cards j = Some c2 ->
           source c1 = u "lecture_01.tex" -> source c2 = u "lecture_02.tex" ->
           i < j))
  /\ StronglySorted name_le (sorted (glob d))
  /\ (forall e, In e (sorted (glob d)) <-> In e d /\ glob_match (fst e) = true)
  /\ (forall d', Permutation d d' -> load_all_flashcards d' = load_all_flashcards d).
Proof.
  intros Hnd. split; [|split; [|split]].
  - intros cards H. unfold load_all_flashcards in H.
    apply load_files_Ok in H. destruct H as [Hc Hall]. simpl in Hc.
    assert (Hs : StronglySorted
                   (fun c1 c2 => str_leb (source c1) (source c2) = true) cards)
      by (rewrite Hc; apply records_sorted, sorted_strongly).
    split; [exact Hc|]. split; [|split; [exact Hs|]].
    + intros c Hin. rewrite Hc in Hin. apply in_flat_map in Hin.
      destruct Hin as ([name f] & He & Hin).
      apply in_sorted_glob in He. destruct He as [Hd Hg]. simpl in Hg.
      unfold records_of in Hin; simpl in Hin.
      destruct f as [content|e]; [|contradiction].
      apply in_map_iff in Hin. destruct Hin as (qa & <- & Hqa).
      unfold source, tag; simpl. split; [exact Hg|].
      exists content. split; [exact Hd|]. now destruct qa.
    + intros i j c1 c2 Hi Hj H1 H2.
      destruct (Nat.lt_trichotomy i j) as [Hlt|[Heq|Hgt]]; [exact Hlt | |].
      * subst j. rewrite Hi in Hj. inversion Hj; subst c2.
        rewrite H1 in H2. vm_compute in H2. discriminate.
      * pose proof (strongly_sorted_nth _ _ _ _ _ _ Hs Hj Hi Hgt) as Hle.
        simpl in Hle. rewrite H1, H2 in Hle. vm_compute in Hle. discriminate.
  - apply sorted_strongly.
  - apply in_sorted_glob.
  - intros d' Hp. unfold load_all_flashcards.
    now rewrite (sorted_glob_order_free d d' Hnd Hp).
Qed.

(** ** The transcoder never raises *)

Lemma substitutions_templates_ok :
  forallb (fun rt => template_ok (fst rt) (snd rt)) substitutions = true.
Proof. reflexivity. Qed.

Lemma apply_substitutions_ok subs text :
  forallb (fun rt => template_ok (fst rt) (snd rt)) subs = true ->
  exists out, apply_substitutions subs text = Ok out.
Proof.
  revert text; induction subs as [|[r t] subs IH]; intros text; simpl.
  - intros _. now exists text.
  - intros H. apply andb_prop in H. destruct H as [H1 H2].
    unfold sub. rewrite H1. simpl. apply IH, H2.
Qed.


Lemma split_lines_nonempty s : split_lines s <> [].
Proof.
  destruct s as [|c s]; simpl; [discriminate|].
  destruct (c =? nl)%N; [discriminate|].
  destruct (split_lines s); discriminate.
Qed.

Lemma join_split_lines s : join_lines (split_lines s) = s.
Proof.
  induction s as [|c s IH]; simpl; [reflexivity|].
  destruct (N.eqb_spec c nl) as [->|Hc].
  - pose proof (split_lines_nonempty s) as Hne.
    simpl. destruct (split_lines s) as [|l ls]; [contradiction|].
    now rewrite IH.
  - pose proof (split_lines_nonempty s) as Hne.
    destruct (split_lines s) as [|l ls]; [contradiction|].
    simpl in *. destruct ls; simpl in *; now rewrite <- IH.
Qed.

Lemma lstrip_fixed s : (forall c t, s = c :: t -> isspace c = false) -> lstrip s = s.
Proof.
  destruct s as [|c s]; simpl; [reflexivity|].
  intros H. now rewrite (H c s eq_refl).
Qed.

Lemma trimmed_strip s : trimmed s -> strip s = s.
Proof.
  intros [Hh Hl]. unfold strip. rewrite (lstrip_fixed s Hh).
  unfold rstrip. rewrite lstrip_fixed; [apply rev_involutive|].
  intros c t E. apply (Hl (rev t) c).
  rewrite <- (rev_involutive s), E. reflexivity.
Qed.

Lemma display_line_fixed l : l <> [] -> trimmed l -> display_line l = l.
Proof.
  intros Hne Ht. unfold display_line. rewrite (trimmed_strip l Ht).
  destruct l; [contradiction | reflexivity].
Qed.

(** C9. The transcoder turns the empty text into a line break: the text
    splits into one empty line, and the line pass writes a line break for
    every line of whitespace only. *)
Theorem prepare_latex_for_katex_empty :
  prepare_latex_for_katex [] = Ok (u "<br>")
  /\ split_lines [] = [[]]
  /\ (forall line, forallb isspace line = true -> display_line line = u "<br>").
Proof.
  repeat split. intros line H. unfold display_line.
  now rewrite (strip_spaces line H).
Qed.

(** ** Text without backslashes *)

Lemma substitutions_backslash_led :
  forallb (fun rt => backslash_led (fst rt)) substitutions = true.
Proof. reflexivity. Qed.

Lemma match_at_not_backslash r c s pos :
  backslash_led r = true -> negb (c =? bsl)%N = true ->
  match_at r (c :: s) pos = None.
Proof.
  destruct r as [|[[d| | | |] [] | |] r]; simpl; try discriminate.
  intros Hd Hc. apply N.eqb_eq in Hd. subst d.
  unfold match_at. simpl. apply negb_true_iff in Hc. now rewrite Hc.
Qed.

Lemma match_at_nil_led r pos : backslash_led r = true -> match_at r [] pos = None.
Proof.
  destruct r as [|[[d| | | |] [] | |] r]; simpl; try discriminate. reflexivity.
Qed.

Lemma search_from_plain r s pos :
  backslash_led r = true -> plain s = true -> search_from r s pos = None.
Proof.
  intros Hr; revert pos; induction s as [|c s IH]; intros pos; simpl.
  - intros _. now rewrite (match_at_nil_led r pos Hr).
  - intros H. apply andb_prop in H. destruct H as [Hc Hs].
    rewrite (match_at_not_backslash r c s pos Hr Hc). now apply IH.
Qed.

Lemma sub_text_plain_app r t w s :
  backslash_led r = true -> plain w = true ->
  sub_text r t (w ++ s) = w ++ sub_text r t s.
Proof.
  intros Hr; induction w as [|c w IH]; simpl; [reflexivity|].
  intros H. apply andb_prop in H. destruct H as [Hc Hw].
  rewrite sub_text_skip by now apply match_at_not_backslash.
  now rewrite IH.
Qed.

Lemma sub_text_plain r t w :
  backslash_led r = true -> plain w = true -> sub_text r t w = w.
Proof.
  intros Hr Hw. rewrite <- (app_nil_r w) at 1.
  rewrite sub_text_plain_app, sub_text_nil, app_nil_r; auto.
  now apply match_at_nil_led.
Qed.

Lemma apply_substitutions_text subs text :
  forallb (fun rt => template_ok (fst rt) (snd rt)) subs = true ->
  apply_substitutions subs text = Ok (rewrite_all subs text).
Proof.
  revert text; induction subs as [|[r t] subs IH]; intros text; simpl.
  - reflexivity.
  - intros H. apply andb_prop in H. destruct H as [H1 H2].
    rewrite (sub_sub_text r t text H1). simpl. now apply IH.
Qed.

Lemma rewrite_all_plain subs text :
  forallb (fun rt => backslash_led (fst rt)) subs = true ->
  plain text = true -> rewrite_all subs text = text.
Proof.
  revert text; induction subs as [|[r t] subs IH]; intros text; simpl.
  - reflexivity.
  - intros H Hp. apply andb_prop in H. destruct H as [H1 H2].
    rewrite (sub_text_plain r t text H1 Hp). now apply IH.
Qed.

Lemma prepare_latex_for_katex_text text :
  prepare_latex_for_katex text
  = Ok (join_lines (map display_line (split_lines (rewrite_all substitutions text)))).
Proof.
  unfold prepare_latex_for_katex.
  now rewrite (apply_substitutions_text substitutions text substitutions_templates_ok).
Qed.

(** ** Display math and the later passes *)

(** C2. The first substitution keeps the inside of a display-math block
    as it is, but the later passes also act inside the block: a blank
    line in it becomes a line break, and so does a double backslash. *)
Theorem display_math_not_verbatim :
  sub (fst (nth 0 substitutions ([], []))) (snd (nth 0 substitutions ([], [])))
      (u "\[a" ++ nl :: nl :: u "b\]")
  = Ok (u "$$a" ++ nl :: nl :: u "b$$")
  /\ prepare_latex_for_katex (u "\[a" ++ nl :: nl :: u "b\]")
     = Ok (u "$$a" ++ nl :: u "<br>" ++ nl :: u "b$$")
  /\ prepare_latex_for_katex (u "\[a \\ b\]") = Ok (u "$$a <br> b$$").
Proof. repeat split; reflexivity. Qed.

(** ** The algorithmic environment *)

(** C4. With a bracketed argument the begin marker becomes the container;
    without one it is left as it is, while the end marker still becomes
    the close tag. *)
Theorem algorithmic_without_argument :
  prepare_latex_for_katex (u "\begin{algorithmic}[1]\State x\end{algorithmic}")
  = Ok (u "<div class=" ++ dq :: u "algorithmic" ++ dq
          :: u "><br>&nbsp;&nbsp; x</div>")
  /\ prepare_latex_for_katex (u "\begin{algorithmic}\State x\end{algorithmic}")
     = Ok (u "\begin{algorithmic}<br>&nbsp;&nbsp; x</div>").
Proof. split; reflexivity. Qed.

(** ** Lists and items *)

Lemma item_label_is_thirteenth :
  nth_error substitutions 12 = Some (item_label_pattern, item_label_template).
Proof. reflexivity. Qed.

Lemma rewrite_all_cons r t subs text :
  rewrite_all ((r, t) :: subs) text = rewrite_all subs (sub_text r t text).
Proof. reflexivity. Qed.

Lemma item_label_no_match (x : str) :
  unlabelled x = true -> match_at item_label_pattern (u "\item" ++ x) 0 = None.
Proof.
  destruct x as [|c x]; simpl; [reflexivity|].
  intros H. apply negb_true_iff in H. unfold match_at. simpl.
  unfold open_bracket in H. now rewrite H.
Qed.

Lemma unlabelled_app x s :
  unlabelled x = true -> unlabelled s = true -> unlabelled (x ++ s) = true.
Proof. destruct x; simpl; auto. Qed.

(** A lazy run goes on while its continuation fails. *)
Lemma lazy_until cs K (l tail : str) pos o :
  forallb (mem cs) l = true ->
  Forall (fun x => forall s p, K (x :: s) p = None) l ->
  K tail (pos + length l) = Some o ->
  lazy cs K (l ++ tail) pos = Some o.
Proof.
  revert pos; induction l as [|x l IH]; intros pos; simpl.
  - intros _ _ Hk. rewrite Nat.add_0_r in Hk.
    destruct tail; simpl; now rewrite Hk.
  - intros H HK Hk. apply andb_prop in H. destruct H as [Hm H].
    inversion HK as [|? ? Hx HK']; subst.
    rewrite Hx, Hm. apply IH; auto.
    now replace (S pos + length l) with (pos + S (length l)) by lia.
Qed.

Lemma firstn_app_exact {A} (l r : list A) : firstn (length l) (l ++ r) = l.
Proof. induction l as [|x l IH]; simpl; [reflexivity | now rewrite IH]. Qed.

Lemma skipn_app_exact {A} (l r : list A) : skipn (length l) (l ++ r) = r.
Proof. induction l as [|x l IH]; simpl; [reflexivity | exact IH]. Qed.

Lemma item_label_match_at (l rest : str) :
  label_text l = true ->
  match_at item_label_pattern (u "\item[" ++ l ++ close_bracket :: rest) 0
  = Some (Match 0 (S (6 + length l)) (Some (6, 6 + length l))).
Proof.
  intros Hl. unfold match_at.
  change item_label_pattern with
    (lits (u "\item[")
       ++ [GroupOpen; Atom Dot LazyStar; GroupClose; Atom (Exactly close_bracket) Once]).
  rewrite run_lits_app. cbn [run].
  rewrite (lazy_until Dot _ l (close_bracket :: rest) _
             (S (6 + length l), Some (6, 6 + length l))).
  - reflexivity.
  - unfold label_text in Hl. rewrite forallb_forall in *.
    intros x Hx. specialize (Hl x Hx). apply andb_prop in Hl. apply Hl.
  - unfold label_text in Hl. rewrite forallb_forall in Hl. apply Forall_forall.
    intros x Hx s p. specialize (Hl x Hx). apply andb_prop in Hl.
    destruct Hl as [_ Hl]. apply negb_true_iff in Hl. simpl. now rewrite Hl.
  - simpl. reflexivity.
Qed.

Lemma item_label_match (l rest : str) :
  label_text l = true ->
  sub_text item_label_pattern item_label_template
    (u "\item[" ++ l ++ close_bracket :: rest)
  = u "<li><strong>" ++ l ++ u "</strong> "
      ++ sub_text item_label_pattern item_label_template rest.
Proof.
  intros Hl.
  rewrite (sub_text_match _ _ _ _ (item_label_match_at l rest Hl)) by (simpl; lia).
  unfold expand, item_label_template, group1, slice. cbn [m_span1 m_end flat_map].
  change (skipn 6 (u "\item[" ++ l ++ close_bracket :: rest))
    with (l ++ close_bracket :: rest).
  change (skipn (S (6 + length l)) (u "\item[" ++ l ++ close_bracket :: rest))
    with (skipn (S (length l)) (l ++ close_bracket :: rest)).
  replace (6 + length l - 6) with (length l) by lia.
  rewrite firstn_app_exact.
  replace (S (length l)) with (length l + 1) by lia.
  rewrite <- skipn_skipn_add, skipn_app_exact. simpl skipn.
  rewrite app_nil_r, <- !app_assoc. reflexivity.
Qed.

Ltac norm_text :=
  cbn [u map list_ascii_of_string N_of_ascii N_of_digits app N.add N.mul
       Pos.add Pos.mul Pos.succ].

Ltac walk_step :=
  first
    [ rewrite sub_text_skip by reflexivity
    | rewrite sub_text_plain_app by (reflexivity || assumption)
    | rewrite sub_text_nil by reflexivity
    | match goal with
      | |- context [sub_text ?r ?t ?w] =>
          is_var w; rewrite (sub_text_plain r t w) by (reflexivity || assumption)
      end
    | match goal with
      | |- context [sub_text ?r ?t (?c :: ?s)] =>
          let o := eval cbv in (match_at r (c :: s) 0) in
          lazymatch o with
          | Some ?m =>
              rewrite (sub_text_match r t (c :: s) m) by (reflexivity || (cbn; lia));
              cbn [expand flat_map app skipn m_end group1 m_span1 slice firstn Nat.sub]
          end
      end ].

Ltac walk := repeat walk_step.

Ltac next_substitution := rewrite rewrite_all_cons; walk.

(** ** The line pass around a piece of one line *)

Lemma split_lines_app (a b : str) :
  split_lines (a ++ b)
  = removelast (split_lines a)
      ++ (last (split_lines a) [] ++ hd [] (split_lines b)) :: tl (split_lines b).
Proof.
  induction a as [|c a IH]; simpl.
  - pose proof (split_lines_nonempty b). destruct (split_lines b); [contradiction|].
    reflexivity.
  - pose proof (split_lines_nonempty a) as Ha.
    destruct (c =? nl)%N.
    + rewrite IH. destruct (split_lines a) as [|l ls]; [contradiction|]. reflexivity.
    + rewrite IH. destruct (split_lines a) as [|l [|l' ls]]; [contradiction| |];
        reflexivity.
Qed.

Lemma split_lines_one_line x : one_line x = true -> split_lines x = [x].
Proof.
  induction x as [|c x IH]; simpl; [reflexivity|].
  intros H. apply andb_prop in H. destruct H as [Hc Hx].
  apply negb_true_iff in Hc. rewrite Hc, (IH Hx). reflexivity.
Qed.

Lemma join_lines_app_cons (ls1 : list str) l (ls2 : list str) :
  contains l (join_lines (ls1 ++ l :: ls2)).
Proof.
  induction ls1 as [|l1 ls1 [before [after IH]]]; simpl.
  - destruct ls2 as [|l2 ls2].
    + exists [], []. now rewrite app_nil_r.
    + exists [], (nl :: join_lines (l2 :: ls2)). reflexivity.
  - destruct (ls1 ++ l :: ls2) as [|l' ls'] eqn:E.
    + destruct ls1; discriminate.
    + exists (l1 ++ nl :: before), after. rewrite IH.
      now rewrite <- app_assoc.
Qed.

Lemma lstrip_middle (pl x pf : str) c m :
  x = c :: m -> isspace c = false ->
  exists pl', lstrip (pl ++ x ++ pf) = pl' ++ x ++ pf.
Proof.
  intros -> Hc. induction pl as [|d pl [pl' IH]]; simpl.
  - exists []. now rewrite Hc.
  - destruct (isspace d).
    + exists pl'. exact IH.
    + exists (d :: pl). reflexivity.
Qed.

Lemma strip_middle (pl x pf : str) c m m' c' :
  x = c :: m -> isspace c = false -> x = m' ++ [c'] -> isspace c' = false ->
  exists pl' pf', strip (pl ++ x ++ pf) = pl' ++ x ++ pf'.
Proof.
  intros Hx Hc Hx' Hc'. unfold strip, rstrip.
  destruct (lstrip_middle pl x pf c m Hx Hc) as [pl' ->].
  rewrite !rev_app_distr, <- app_assoc.
  destruct (lstrip_middle (rev pf) (rev x) (rev pl') c' (rev m')) as [pf' ->]; auto.
  { rewrite Hx', rev_app_distr. reflexivity. }
  exists pl', (rev pf'). rewrite !rev_app_distr, !rev_involutive, <- app_assoc.
  reflexivity.
Qed.

Lemma contains_trans (x y z : str) : contains x y -> contains y z -> contains x z.
Proof.
  intros (b1 & a1 & ->) (b2 & a2 & ->).
  exists (b2 ++ b1), (a1 ++ a2). now rewrite <- !app_assoc.
Qed.

(** A piece of one line with no whitespace at its ends survives the line
    pass, whatever is around it. *)
Lemma line_pass_keeps (pre x post : str) c m m' c' :
  x = c :: m -> isspace c = false -> x = m' ++ [c'] -> isspace c' = false ->
  one_line x = true ->
  contains x (line_pass (pre ++ x ++ post)).
Proof.
  intros Hx Hc Hx' Hc' H1. unfold line_pass.
  rewrite split_lines_app, split_lines_app, (split_lines_one_line x H1). simpl.
  rewrite map_app. simpl.
  eapply contains_trans; [|apply join_lines_app_cons].
  unfold display_line.
  destruct (strip_middle (last (split_lines pre) []) x (hd [] (split_lines post))
              c m m' c' Hx Hc Hx' Hc') as (pl' & pf' & ->).
  replace (nonempty (pl' ++ x ++ pf')) with true
    by (rewrite Hx; destruct pl'; reflexivity).
  now exists pl', pf'.
Qed.

Lemma line_pass_alone x c m m' c' :
  x = c :: m -> isspace c = false -> x = m' ++ [c'] -> isspace c' = false ->
  one_line x = true -> line_pass x = x.
Proof.
  intros Hx Hc Hx' Hc' H1. unfold line_pass.
  rewrite (split_lines_one_line x H1). simpl.
  apply display_line_fixed; [rewrite Hx; discriminate|].
  split.
  - intros d t E. rewrite Hx in E. inversion E; subst. exact Hc.
  - intros t d E. rewrite Hx' in E. apply app_inj_tail in E.
    destruct E as [_ <-]. exact Hc'.
Qed.

(** C7, as written, fails: inside a [\textbf{] the earlier substitution
    takes the begin marker apart before the list substitution sees it. *)
Lemma itemize_inside_textbf_refutes :
  ~ itemize_claim (u "\textbf{\begin{itemize}\item A\item B\end{itemize}}").
Proof.
  intros H. destruct (H (u " A") (u " B")) as (out & Hout & Hocc).
  - exists (u "\textbf{"), (u "}"). reflexivity.
  - vm_compute in Hout. injection Hout as <-. vm_compute in Hocc. discriminate.
Qed.

(** ** The scan, step by step *)

Lemma finditer_from_skip r c s pos :
  match_at r (c :: s) pos = None ->
  finditer_from r (c :: s) pos = finditer_from r s (S pos).
Proof. intros H. simp finditer_from. now rewrite H. Qed.

Lemma finditer_from_match r c s pos m :
  match_at r (c :: s) pos = Some m ->
  finditer_from r (c :: s) pos
  = m :: finditer_from r (skipn (m_end m - S pos) s) (Nat.max (m_end m) (S pos)).
Proof. intros H. simp finditer_from. now rewrite H. Qed.

Lemma match_at_None_shift r s pos :
  match_at r s 0 = None -> match_at r s pos = None.
Proof.
  intros H. pose proof (match_at_shift r s 0 pos) as E. simpl in E.
  now rewrite E, H.
Qed.

(** A stretch of text in which the pattern matches nowhere is passed over. *)
Lemma finditer_from_skip_prefix r (pre s : str) pos :
  (forall j, j < length pre -> match_at r (skipn j (pre ++ s)) 0 = None) ->
  finditer_from r (pre ++ s) pos = finditer_from r s (pos + length pre).
Proof.
  revert pos; induction pre as [|c pre IH]; intros pos H; simpl.
  - now rewrite Nat.add_0_r.
  - rewrite finditer_from_skip.
    + rewrite IH; [f_equal; lia|].
      intros j Hj. apply (H (S j)). simpl. lia.
    + apply match_at_None_shift. apply (H 0). simpl. lia.
Qed.

Lemma greedy_until cs K (l tail : str) pos o :
  forallb (mem cs) l = true ->
  match tail with c :: _ => mem cs c = false | [] => True end ->
  K tail (pos + length l) = Some o ->
  greedy cs K (l ++ tail) pos = Some o.
Proof.
  revert pos; induction l as [|x l IH]; intros pos; simpl.
  - intros _ Ht Hk. rewrite Nat.add_0_r in Hk.
    destruct tail as [|c tail]; simpl; [exact Hk|]. now rewrite Ht.
  - intros H Ht Hk. apply andb_prop in H. destruct H as [Hx Hl].
    rewrite Hx. rewrite (IH (S pos) Hl Ht); [reflexivity|].
    now replace (S pos + length l) with (pos + S (length l)) by lia.
Qed.

Lemma braced_group_run (x rest : str) gs g pos :
  x <> [] -> forallb (fun c => negb (c =? closing_brace)%N) x = true ->
  run braced_group gs g (x ++ closing_brace :: rest) pos
  = Some (S (pos + length x), Some (pos, pos + length x)).
Proof.
  intros Hne Hx. destruct x as [|c x]; [contradiction|].
  simpl in Hx. apply andb_prop in Hx. destruct Hx as [Hc Hx].
  cbn [braced_group run app once mem]. rewrite Hc.
  rewrite (greedy_until (Except closing_brace) _ x (closing_brace :: rest) (S pos)
             (S (pos + length (c :: x)), Some (pos, pos + length (c :: x)))).
  - reflexivity.
  - exact Hx.
  - reflexivity.
  - cbn [run once mem]. rewrite N.eqb_refl. simpl. repeat f_equal; lia.
Qed.

Lemma braced_command_match_at (w x rest : str) :
  x <> [] -> forallb (fun c => negb (c =? closing_brace)%N) x = true ->
  match_at (lits w ++ braced_group) (w ++ x ++ closing_brace :: rest) 0
  = Some (Match 0 (S (length w + length x))
            (Some (length w, length w + length x))).
Proof.
  intros Hne Hx. unfold match_at.
  rewrite run_lits_app, (braced_group_run x rest 0 None (0 + length w) Hne Hx).
  reflexivity.
Qed.

(** ** Records do not depend on what comes before the first marker *)

Lemma flat_map_enumerate {A B C} (f : A -> B) (F : nat * B -> list C)
    (G : nat * A -> list C) (l : list A) k k' :
  (forall i x, nth_error l i = Some x -> F (k + i, f x) = G (k' + i, x)) ->
  flat_map F (combine (seq k (length (map f l))) (map f l))
  = flat_map G (combine (seq k' (length l)) l).
Proof.
  revert k k'; induction l as [|x l IH]; intros k k' H; simpl; [reflexivity|].
  f_equal.
  - specialize (H 0 x eq_refl). now rewrite !Nat.add_0_r in H.
  - apply IH. intros i y Hi. specialize (H (S i) y Hi).
    now rewrite !Nat.add_succ_r in H.
Qed.

Lemma answer_end_of_shift (pre s : str) (front ms : list rmatch) i m :
  answer_end_of (pre ++ s) (front ++ map (shift (length pre)) ms)
    (length front + i) (shift (length pre) m)
  = answer_end_of s ms i m + length pre.
Proof.
  unfold answer_end_of. rewrite length_app, length_map.
  destruct (i + 1 <? length ms) eqn:E.
  - assert (E' : (length front + i + 1 <? length front + length ms) = true)
      by (apply Nat.ltb_lt; apply Nat.ltb_lt in E; lia).
    rewrite E'. rewrite <- Nat.add_assoc, app_nth2_plus.
    now rewrite (map_nth (shift (length pre))).
  - assert (E' : (length front + i + 1 <? length front + length ms) = false)
      by (apply Nat.ltb_ge; apply Nat.ltb_ge in E; lia).
    rewrite E'. unfold slice_from. simpl m_end.
    rewrite skipn_app, skipn_all2 by lia.
    replace (m_end m + length pre - length pre) with (m_end m) by lia. simpl app.
    destruct (search part_pattern (skipn (m_end m) s)); [lia|].
    rewrite length_app. lia.
Qed.

Lemma card_of_shift (pre s : str) (front ms : list rmatch) i m :
  card_of (pre ++ s) (front ++ map (shift (length pre)) ms)
    (length front + i) (shift (length pre) m)
  = card_of s ms i m.
Proof.
  unfold card_of. rewrite answer_end_of_shift. simpl m_end.
  rewrite slice_shift.
  replace (group1 (pre ++ s) (shift (length pre) m)) with (group1 s m);
    [reflexivity|].
  unfold group1. simpl. destruct (m_span1 m) as [[a b]|]; simpl; [|reflexivity].
  now rewrite slice_shift.
Qed.

(** No boundary starts where the marker [\section{] does not stand. *)
Lemma no_marker_no_match (t : str) :
  ~ occurs_at (u "\section{") 0 t -> match_at section_pattern t 0 = None.
Proof.
  intros H. unfold match_at.
  destruct (run section_pattern 0 None t 0) as [[e g]|] eqn:R; [|reflexivity].
  exfalso. apply H.
  change section_pattern with (lits (u "\section{") ++ braced_group) in R.
  apply run_lits_inv in R. exact R.
Qed.

Lemma occurs_at_skipn (w : str) j (t : str) :
  occurs_at w 0 (skipn j t) <-> occurs_at w j t.
Proof. unfold occurs_at. simpl. reflexivity. Qed.

(** X1. What stands before the first section marker is ignored: a text put
    in front, in which the marker [\section{] starts nowhere, changes no
    record. *)
Theorem parse_content_ignores_preamble (pre s : str) :
  (forall j, j < length pre -> ~ occurs_at (u "\section{") j (pre ++ s)) ->
  parse_content (pre ++ s) = parse_content s.
Proof.
  intros H. rewrite !parse_content_flat_map.
  assert (F : finditer section_pattern (pre ++ s)
              = map (shift (length pre)) (finditer section_pattern s)).
  { unfold finditer. rewrite finditer_from_skip_prefix.
    - apply (finditer_from_shift section_pattern s 0 (length pre)).
    - intros j Hj. apply no_marker_no_match. rewrite occurs_at_skipn. now apply H. }
  rewrite F. unfold enumerate.
  apply (flat_map_enumerate (shift (length pre))).
  intros i m _. unfold contribution. simpl fst. simpl snd.
  pose proof (card_of_shift pre s [] (finditer section_pattern s) i m) as E.
  simpl in E. now rewrite E.
Qed.

(** ** Writing a document and reading it back *)

Lemma finditer_from_skip_plain r (a s : str) pos :
  backslash_led r = true -> plain a = true ->
  finditer_from r (a ++ s) pos = finditer_from r s (pos + length a).
Proof.
  intros Hr; revert pos; induction a as [|c a IH]; intros pos; simpl.
  - intros _. now rewrite Nat.add_0_r.
  - intros H. apply andb_prop in H. destruct H as [Hc Ha].
    rewrite finditer_from_skip by now apply match_at_not_backslash.
    rewrite (IH (S pos) Ha). f_equal. lia.
Qed.

(** The boundaries of a document that begins with a rendered record. *)
Lemma finditer_render_card (q a s : str) :
  clean_question q -> plain a = true ->
  finditer section_pattern (render_card (q, a) ++ s)
  = Match 0 (10 + length q) (Some (9, 9 + length q))
      :: map (shift (10 + length q + length a)) (finditer section_pattern s).
Proof.
  intros (Hne & _ & Hq) Ha. unfold finditer, render_card. simpl fst. simpl snd.
  pose proof (braced_command_match_at (u "\section{") q (a ++ s) Hne Hq) as M.
  change (lits (u "\section{") ++ braced_group) with section_pattern in M.
  change (length (u "\section{")) with 9 in M.
  replace ((u "\section{" ++ q ++ closing_brace :: a) ++ s)
    with (u "\section{" ++ q ++ closing_brace :: a ++ s)
    by (now rewrite <- !app_assoc).
  change (u "\section{" ++ q ++ closing_brace :: a ++ s)
    with (bsl :: u "section{" ++ q ++ closing_brace :: a ++ s) in *.
  rewrite (finditer_from_match _ _ _ _ _ M). simpl m_end.
  f_equal.
  match goal with
  | |- finditer_from _ (skipn ?n ?t) ?p = _ =>
      replace (skipn n t) with (a ++ s);
      [replace p with (10 + length q) by lia|]
  end.
  - rewrite finditer_from_skip_plain by (reflexivity || assumption).
    apply (finditer_from_shift section_pattern s 0).
  - match goal with
    | |- _ = skipn ?n _ =>
        replace n with (length (u "section{" ++ q ++ [closing_brace]))
          by (rewrite !length_app; simpl; lia)
    end.
    replace (u "section{" ++ q ++ closing_brace :: a ++ s)
      with ((u "section{" ++ q ++ [closing_brace]) ++ a ++ s)
      by (now rewrite <- !app_assoc).
    now rewrite skipn_app_exact.
Qed.

Lemma slice_app_exact (h x t : str) :
  slice (length h) (length h + length x) (h ++ x ++ t) = x.
Proof.
  unfold slice. rewrite skipn_app_exact.
  replace (length h + length x - length h) with (length x) by lia.
  apply firstn_app_exact.
Qed.

Lemma parse_content_head (q a s : str) :
  clean_question q -> clean_answer a ->
  (s = [] \/ exists m ms, finditer section_pattern s = m :: ms /\ m_start m = 0) ->
  parse_content (render_card (q, a) ++ s) = (q, a) :: parse_content s.
Proof.
  intros Hq (Hane & Hat & Hap) Hs.
  rewrite !parse_content_flat_map.
  rewrite (finditer_render_card q a s Hq Hap).
  set (d := 10 + length q + length a).
  set (m0 := Match 0 (10 + length q) (Some (9, 9 + length q))).
  set (h := u "\section{" ++ q ++ [closing_brace]).
  assert (Hh : length h = 10 + length q)
    by (unfold h; rewrite length_app, length_app; simpl; lia).
  assert (D : render_card (q, a) ++ s = h ++ a ++ s)
    by (unfold render_card, h; simpl; now rewrite <- !app_assoc).
  rewrite D. clear D.
  assert (Hd : length (h ++ a) = d) by (rewrite length_app; unfold d; lia).
  unfold enumerate. simpl length. simpl seq. simpl combine.
  cbn [flat_map].
  match goal with
  | |- ?A ++ ?B = ?c :: ?C =>
      enough (A = [c] /\ B = C) as [-> ->] by reflexivity; split
  end.
  - (* the first boundary *)
    unfold contribution, card_of. cbn [fst snd].
    assert (G : group1 (h ++ a ++ s) m0 = q).
    { unfold group1, m0. cbn [m_span1]. unfold h. rewrite <- !app_assoc.
      exact (slice_app_exact (u "\section{") q ([closing_brace] ++ a ++ s)). }
    assert (E : answer_end_of (h ++ a ++ s)
                  (m0 :: map (shift d) (finditer section_pattern s)) 0 m0 = d).
    { unfold answer_end_of. cbn [length]. rewrite length_map.
      destruct (finditer section_pattern s) as [|m1 ms'] eqn:Ems.
      - destruct Hs as [Hs|(m & ms'' & Hm & _)]; [|discriminate Hm].
        subst s. cbn [Nat.add Nat.ltb Nat.leb length].
        unfold slice_from. cbn [m_end m0]. rewrite <- Hh, skipn_app_exact.
        unfold search. rewrite search_from_plain; [|reflexivity|].
        + rewrite app_nil_r. exact Hd.
        + now rewrite app_nil_r.
      - destruct Hs as [Hs|(m & ms'' & Hm & H0)].
        + subst s. discriminate Ems.
        + injection Hm as <- _. cbn. lia. }
    rewrite G, E. cbn [m_end m0].
    replace (slice (10 + length q) d (h ++ a ++ s)) with a.
    + destruct Hq as (Hqne & Hqt & _).
      rewrite (trimmed_strip q Hqt), (trimmed_strip a Hat).
      destruct q; [contradiction|]. destruct a; [contradiction|]. reflexivity.
    + unfold d. rewrite <- Hh. symmetry. apply slice_app_exact.
  - (* the boundaries after it *)
    apply (flat_map_enumerate (shift d) _ _ (finditer section_pattern s) 1 0).
    intros i m _. unfold contribution. cbn [fst snd].
    pose proof (card_of_shift (h ++ a) s [m0] (finditer section_pattern s) i m) as C.
    rewrite Hd, <- app_assoc in C. cbn [length app Nat.add] in C.
    cbn [Nat.add]. now rewrite C.
Qed.

(** X2. A document written from clean records parses back to them. *)
Theorem parse_content_render (cards : list (str * str)) :
  Forall clean_card cards -> parse_content (render cards) = cards.
Proof.
  induction 1 as [|[q a] cards [Hq Ha] Hall IH]; [reflexivity|].
  change (render ((q, a) :: cards)) with (render_card (q, a) ++ render cards).
  rewrite (parse_content_head q a (render cards) Hq Ha), IH; [reflexivity|].
  destruct Hall as [|[q' a'] cards' [Hq' Ha'] _]; [now left|].
  right. change (render ((q', a') :: cards'))
    with (render_card (q', a') ++ render cards').
  rewrite (finditer_render_card q' a' (render cards') Hq' (proj2 (proj2 Ha'))).
  eexists. eexists. split; reflexivity.
Qed.

(** X3. Without a section marker there is no record, and there is never more
    than one record per boundary. *)
Theorem parse_content_no_marker (content : str) :
  length (parse_content content) <= length (finditer section_pattern content)
  /\ ((forall j, ~ occurs_at (u "\section{") j content) -> parse_content content = []).
Proof.
  split.
  - rewrite parse_content_flat_map. unfold enumerate.
    generalize (finditer section_pattern content) at 1 as secs.
    intros secs.
    generalize 0 as k.
    induction (finditer section_pattern content) as [|m ms IH]; intros k; simpl; [lia|].
    rewrite length_app. specialize (IH (S k)).
    unfold contribution at 1.
    destruct (card_of content secs (fst (k, m)) (snd (k, m))); simpl; lia.
  - intros H. rewrite parse_content_flat_map.
    assert (F : finditer section_pattern content = []).
    { unfold finditer. rewrite <- (app_nil_r content).
      rewrite finditer_from_skip_prefix.
      - now simp finditer_from.
      - intros j _. apply no_marker_no_match. rewrite occurs_at_skipn.
        rewrite app_nil_r. apply H. }
    now rewrite F.
Qed.

(** ** From the substitutions to the output *)

Lemma plain_app (a b : str) : plain (a ++ b) = plain a && plain b.
Proof. apply forallb_app. Qed.

Lemma one_line_app (a b : str) : one_line (a ++ b) = one_line a && one_line b.
Proof. apply forallb_app. Qed.

(** When the substitutions leave a solid piece [x] between [pre] and
    [post], the output holds [x], and is [x] when nothing is around it. *)
Lemma prepare_of_rewritten (text pre x post : str) :
  rewrite_all substitutions text = pre ++ x ++ post -> solid x ->
  exists out,
    prepare_latex_for_katex text = Ok out
    /\ out = line_pass (pre ++ x ++ post)
    /\ contains x out
    /\ (pre = [] -> post = [] -> out = x).
Proof.
  intros R (H1 & (c & m & Hx & Hc) & (m' & c' & Hx' & Hc')).
  eexists. rewrite prepare_latex_for_katex_text, R.
  split; [reflexivity|]. split; [reflexivity|]. split.
  - eapply line_pass_keeps; eauto.
  - intros -> ->. rewrite app_nil_r. simpl app. eapply line_pass_alone; eauto.
Qed.

(** ** Display math without backslashes *)

Lemma display_math_match_at (x rest : str) :
  plain x = true ->
  match_at display_math_pattern (u "\[" ++ x ++ u "\]" ++ rest) 0
  = Some (Match 0 (4 + length x) (Some (2, 2 + length x))).
Proof.
  intros Hx. unfold match_at.
  change display_math_pattern with
    (lits (u "\[") ++ [GroupOpen; Atom DotAll LazyStar; GroupClose] ++ lits (u "\]")).
  rewrite run_lits_app. cbn [run app].
  rewrite (lazy_until DotAll _ x (u "\]" ++ rest) _
             (4 + length x, Some (2, 2 + length x))).
  - reflexivity.
  - clear Hx. induction x; simpl; auto.
  - unfold plain in Hx. rewrite forallb_forall in Hx. apply Forall_forall.
    intros c Hc s p. specialize (Hx c Hc). apply negb_true_iff in Hx.
    cbn. unfold bsl in Hx. now rewrite Hx.
  - cbn. repeat f_equal; lia.
Qed.

Lemma display_math_sub (x rest : str) :
  plain x = true ->
  sub_text display_math_pattern display_math_template (u "\[" ++ x ++ u "\]" ++ rest)
  = u "$$" ++ x ++ u "$$" ++ sub_text display_math_pattern display_math_template rest.
Proof.
  intros Hx.
  rewrite (sub_text_match _ _ _ _ (display_math_match_at x rest Hx)) by (simpl; lia).
  unfold expand, display_math_template, group1, slice. cbn [m_span1 m_end flat_map].
  change (skipn 2 (u "\[" ++ x ++ u "\]" ++ rest)) with (x ++ u "\]" ++ rest).
  change (skipn (4 + length x) (u "\[" ++ x ++ u "\]" ++ rest))
    with (skipn (2 + length x) (x ++ u "\]" ++ rest)).
  replace (2 + length x - 2) with (length x) by lia.
  rewrite firstn_app_exact.
  replace (2 + length x) with (length x + 2) by lia.
  rewrite <- skipn_skipn_add, skipn_app_exact. simpl skipn.
  rewrite app_nil_r, <- !app_assoc. reflexivity.
Qed.

Lemma display_math_rewritten (pre x post : str) :
  plain pre = true -> plain x = true -> plain post = true ->
  rewrite_all substitutions (pre ++ u "\[" ++ x ++ u "\]" ++ post)
  = pre ++ (u "$$" ++ x ++ u "$$") ++ post.
Proof.
  intros Hpre Hx Hpost.
  unfold substitutions. rewrite rewrite_all_cons.
  rewrite sub_text_plain_app by (reflexivity || assumption).
  change (sub_text _ _ (u "\[" ++ x ++ u "\]" ++ post))
    with (sub_text display_math_pattern display_math_template
            (u "\[" ++ x ++ u "\]" ++ post)).
  rewrite (display_math_sub x post Hx).
  rewrite (sub_text_plain _ _ post) by (reflexivity || assumption).
  rewrite rewrite_all_plain.
  - now rewrite <- !app_assoc.
  - reflexivity.
  - rewrite !plain_app, Hpre, Hx, Hpost. reflexivity.
Qed.

(** X4. Display math whose content has no backslash: the substitutions
    change the delimiters and nothing else; what happens to the content
    afterwards is the line pass.  On one line the block comes out as it
    is between the new delimiters. *)
Theorem display_math_plain (pre x post : str) :
  plain pre = true -> plain x = true -> plain post = true ->
  prepare_latex_for_katex (pre ++ u "\[" ++ x ++ u "\]" ++ post)
  = Ok (line_pass (pre ++ (u "$$" ++ x ++ u "$$") ++ post))
  /\ (one_line x = true ->
      exists out,
        prepare_latex_for_katex (pre ++ u "\[" ++ x ++ u "\]" ++ post) = Ok out
        /\ contains (u "$$" ++ x ++ u "$$") out
        /\ (pre = [] -> post = [] -> out = u "$$" ++ x ++ u "$$")).
Proof.
  intros Hpre Hx Hpost.
  pose proof (display_math_rewritten pre x post Hpre Hx Hpost) as R.
  split.
  - now rewrite prepare_latex_for_katex_text, R.
  - intros H1.
    destruct (prepare_of_rewritten _ pre (u "$$" ++ x ++ u "$$") post R)
      as (out & H & _ & Hc & He).
    + split; [|split].
      * rewrite !one_line_app, H1. reflexivity.
      * eexists. eexists. split; reflexivity.
      * exists (u "$$" ++ x ++ u "$"), 36%N. split; [|reflexivity].
        now rewrite <- !app_assoc.
    + exists out. auto.
Qed.

(** ** Commands with one braced argument *)

(** What a match with group 1 at [w .. w + x] is replaced by. *)
Lemma expand_braced (a b w x rest : str) e :
  expand [Text a; Group1; Text b] (w ++ x ++ rest)
    (Match 0 e (Some (length w, length w + length x)))
  = a ++ x ++ b.
Proof.
  unfold expand, group1. cbn [flat_map m_span1].
  rewrite slice_app_exact, app_nil_r. reflexivity.
Qed.

Lemma braced_command_sub (w a b x rest : str) :
  x <> [] -> forallb (fun c => negb (c =? closing_brace)%N) x = true ->
  sub_text (lits w ++ braced_group) [Text a; Group1; Text b]
    (w ++ x ++ closing_brace :: rest)
  = a ++ x ++ b
      ++ sub_text (lits w ++ braced_group) [Text a; Group1; Text b] rest.
Proof.
  intros Hne Hx.
  rewrite (sub_text_match _ _ _ _ (braced_command_match_at w x rest Hne Hx))
    by (simpl; lia).
  rewrite expand_braced. cbn [m_end].
  assert (Sk : skipn (S (length w + length x)) (w ++ x ++ closing_brace :: rest) = rest).
  { replace (S (length w + length x)) with (length (w ++ x ++ [closing_brace]))
      by (rewrite !length_app; simpl; lia).
    replace (w ++ x ++ closing_brace :: rest)
      with ((w ++ x ++ [closing_brace]) ++ rest)
      by (now rewrite <- !app_assoc).
    apply skipn_app_exact. }
  rewrite Sk, <- !app_assoc. reflexivity.
Qed.

Lemma braced_argument_facts x :
  braced_argument x = true ->
  x <> [] /\ plain x = true /\ one_line x = true
  /\ forallb (fun c => negb (c =? closing_brace)%N) x = true.
Proof.
  unfold braced_argument. intros H.
  apply andb_prop in H. destruct H as [H H4].
  apply andb_prop in H. destruct H as [H H3].
  apply andb_prop in H. destruct H as [H1 H2].
  apply nonempty_true in H1. auto.
Qed.

(** The substitution at the head of the table is a braced command. *)
Ltac braced_step W A B x post Hne Hx :=
  rewrite rewrite_all_cons;
  rewrite sub_text_plain_app by (reflexivity || assumption);
  match goal with
  | |- context [sub_text ?r ?t (?c :: ?s)] =>
      change (sub_text r t (c :: s))
        with (sub_text (lits W ++ braced_group) [Text A; Group1; Text B]
                (W ++ x ++ closing_brace :: post));
      rewrite (braced_command_sub W A B x post Hne Hx);
      rewrite (sub_text_plain _ _ post) by (reflexivity || assumption)
  end.

Lemma plain_cons c (s : str) : plain (c :: s) = negb (c =? bsl)%N && plain s.
Proof. reflexivity. Qed.

Ltac finish_plain :=
  rewrite rewrite_all_plain;
  [ rewrite <- ?app_assoc; reflexivity
  | reflexivity
  | repeat (rewrite plain_app || rewrite plain_cons);
    repeat match goal with H : plain _ = true |- _ => rewrite H end;
    reflexivity ].

Lemma textbf_rewritten (pre x post : str) :
  plain pre = true -> plain post = true -> braced_argument x = true ->
  rewrite_all substitutions (pre ++ u "\textbf{" ++ x ++ u "}" ++ post)
  = pre ++ (u "<strong>" ++ x ++ u "</strong>") ++ post.
Proof.
  intros Hpre Hpost Hx.
  destruct (braced_argument_facts x Hx) as (Hne & Hp & _ & Hb).
  unfold substitutions. norm_text.
  do 5 next_substitution.
  braced_step (u "\textbf{") (u "<strong>") (u "</strong>") x post Hne Hb.
  finish_plain.
Qed.

Lemma textit_rewritten (pre x post : str) :
  plain pre = true -> plain post = true -> braced_argument x = true ->
  rewrite_all substitutions (pre ++ u "\textit{" ++ x ++ u "}" ++ post)
  = pre ++ (u "<em>" ++ x ++ u "</em>") ++ post.
Proof.
  intros Hpre Hpost Hx.
  destruct (braced_argument_facts x Hx) as (Hne & Hp & _ & Hb).
  unfold substitutions. norm_text.
  do 6 next_substitution.
  braced_step (u "\textit{") (u "<em>") (u "</em>") x post Hne Hb.
  finish_plain.
Qed.

Lemma emph_rewritten (pre x post : str) :
  plain pre = true -> plain post = true -> braced_argument x = true ->
  rewrite_all substitutions (pre ++ u "\emph{" ++ x ++ u "}" ++ post)
  = pre ++ (u "<em>" ++ x ++ u "</em>") ++ post.
Proof.
  intros Hpre Hpost Hx.
  destruct (braced_argument_facts x Hx) as (Hne & Hp & _ & Hb).
  unfold substitutions. norm_text.
  do 7 next_substitution.
  braced_step (u "\emph{") (u "<em>") (u "</em>") x post Hne Hb.
  finish_plain.
Qed.

Lemma solid_between (a x b : str) c c' m m' :
  a = c :: m -> isspace c = false -> b = m' ++ [c'] -> isspace c' = false ->
  one_line a = true -> one_line b = true -> one_line x = true ->
  solid (a ++ x ++ b).
Proof.
  intros -> Hc -> Hc' Ha Hb Hx. split; [|split].
  - now rewrite one_line_app, Ha, one_line_app, Hx, Hb.
  - eexists. eexists. split; [reflexivity | exact Hc].
  - exists ((c :: m) ++ x ++ m'), c'. split; [|exact Hc'].
    now rewrite <- !app_assoc.
Qed.

(** X5. Bold, italic and emphasis commands in text without backslashes
    become the inline elements, with the argument as it is. *)
Theorem emphasis_commands (pre x post : str) :
  plain pre = true -> plain post = true -> braced_argument x = true ->
  (exists out,
     prepare_latex_for_katex (pre ++ u "\textbf{" ++ x ++ u "}" ++ post) = Ok out
     /\ contains (u "<strong>" ++ x ++ u "</strong>") out
     /\ (pre = [] -> post = [] -> out = u "<strong>" ++ x ++ u "</strong>"))
  /\ (exists out,
        prepare_latex_for_katex (pre ++ u "\textit{" ++ x ++ u "}" ++ post) = Ok out
        /\ contains (u "<em>" ++ x ++ u "</em>") out
        /\ (pre = [] -> post = [] -> out = u "<em>" ++ x ++ u "</em>"))
  /\ (exists out,
        prepare_latex_for_katex (pre ++ u "\emph{" ++ x ++ u "}" ++ post) = Ok out
        /\ contains (u "<em>" ++ x ++ u "</em>") out
        /\ (pre = [] -> post = [] -> out = u "<em>" ++ x ++ u "</em>")).
Proof.
  intros Hpre Hpost Hx.
  destruct (braced_argument_facts x Hx) as (_ & _ & H1 & _).
  assert (Sb : solid (u "<strong>" ++ x ++ u "</strong>"))
    by (eapply (solid_between _ x _ 60%N 62%N _ (u "</strong")); try reflexivity;
        assumption).
  assert (Se : solid (u "<em>" ++ x ++ u "</em>"))
    by (eapply (solid_between _ x _ 60%N 62%N _ (u "</em")); try reflexivity;
        assumption).
  split; [|split].
  - destruct (prepare_of_rewritten _ _ _ _ (textbf_rewritten pre x post Hpre Hpost Hx) Sb)
      as (out & H & _ & Hc & He). exists out. auto.
  - destruct (prepare_of_rewritten _ _ _ _ (textit_rewritten pre x post Hpre Hpost Hx) Se)
      as (out & H & _ & Hc & He). exists out. auto.
  - destruct (prepare_of_rewritten _ _ _ _ (emph_rewritten pre x post Hpre Hpost Hx) Se)
      as (out & H & _ & Hc & He). exists out. auto.
Qed.

(** ** Subsection headings *)

(** A pattern that, after the text [w], goes on as the braced group. *)
Lemma sub_text_braced_like (p : regex) (w a b x rest : str) :
  (forall t, match_at p (w ++ t) 0 = match_at (lits w ++ braced_group) (w ++ t) 0) ->
  x <> [] -> forallb (fun c => negb (c =? closing_brace)%N) x = true ->
  sub_text p [Text a; Group1; Text b] (w ++ x ++ closing_brace :: rest)
  = a ++ x ++ b ++ sub_text p [Text a; Group1; Text b] rest.
Proof.
  intros Hp Hne Hx.
  pose proof (braced_command_match_at w x rest Hne Hx) as M.
  rewrite <- Hp in M.
  rewrite (sub_text_match _ _ _ _ M) by (simpl; lia).
  rewrite expand_braced. cbn [m_end].
  assert (Sk : skipn (S (length w + length x)) (w ++ x ++ closing_brace :: rest) = rest).
  { replace (S (length w + length x)) with (length (w ++ x ++ [closing_brace]))
      by (rewrite !length_app; simpl; lia).
    replace (w ++ x ++ closing_brace :: rest)
      with ((w ++ x ++ [closing_brace]) ++ rest)
      by (now rewrite <- !app_assoc).
    apply skipn_app_exact. }
  rewrite Sk, <- !app_assoc. reflexivity.
Qed.

Lemma subsection_plain_like t :
  match_at subsection_pattern (u "\subsection{" ++ t) 0
  = match_at (lits (u "\subsection{") ++ braced_group) (u "\subsection{" ++ t) 0.
Proof.
  unfold match_at.
  assert (L : run subsection_pattern 0 None (u "\subsection{" ++ t) 0
              = run braced_group 0 None t 12).
  { change subsection_pattern with
      (lits (u "\subsection")
         ++ Atom (Exactly 42%N) Optional :: Atom (Exactly 123%N) Once :: braced_group).
    change (u "\subsection{" ++ t) with (u "\subsection" ++ 123%N :: t).
    rewrite run_lits_app. reflexivity. }
  rewrite L, run_lits_app. reflexivity.
Qed.

Lemma subsection_star_like t :
  match_at subsection_pattern (u "\subsection*{" ++ t) 0
  = match_at (lits (u "\subsection*{") ++ braced_group) (u "\subsection*{" ++ t) 0.
Proof.
  unfold match_at.
  assert (L : run subsection_pattern 0 None (u "\subsection*{" ++ t) 0
              = run braced_group 0 None t 13).
  { change subsection_pattern with
      (lits (u "\subsection")
         ++ Atom (Exactly 42%N) Optional :: Atom (Exactly 123%N) Once :: braced_group).
    change (u "\subsection*{" ++ t) with (u "\subsection" ++ 42%N :: 123%N :: t).
    rewrite run_lits_app.
    change (run (Atom (Exactly 42%N) Optional :: Atom (Exactly 123%N) Once :: braced_group)
              0 None (42%N :: 123%N :: t) (0 + length (u "\subsection")))
      with (match run braced_group 0 None t 13 with
            | Some r => Some r
            | None => None
            end).
    destruct (run braced_group 0 None t 13); reflexivity. }
  rewrite L, run_lits_app. reflexivity.
Qed.

Ltac braced_like_step P Hlike W A B x post Hne Hx :=
  rewrite rewrite_all_cons;
  rewrite sub_text_plain_app by (reflexivity || assumption);
  match goal with
  | |- context [sub_text ?r ?t (?c :: ?s)] =>
      change (sub_text r t (c :: s))
        with (sub_text P [Text A; Group1; Text B]
                (W ++ x ++ closing_brace :: post));
      rewrite (sub_text_braced_like P W A B x post Hlike Hne Hx);
      rewrite (sub_text_plain _ _ post) by (reflexivity || assumption)
  end.

Lemma subsection_rewritten (pre x post : str) :
  plain pre = true -> plain post = true -> braced_argument x = true ->
  rewrite_all substitutions (pre ++ u "\subsection{" ++ x ++ u "}" ++ post)
  = pre ++ (u "<h4>" ++ x ++ u "</h4>") ++ post.
Proof.
  intros Hpre Hpost Hx.
  destruct (braced_argument_facts x Hx) as (Hne & Hp & _ & Hb).
  unfold substitutions. norm_text.
  do 14 next_substitution.
  braced_like_step subsection_pattern subsection_plain_like
    (u "\subsection{") (u "<h4>") (u "</h4>") x post Hne Hb.
  finish_plain.
Qed.

Lemma subsection_star_rewritten (pre x post : str) :
  plain pre = true -> plain post = true -> braced_argument x = true ->
  rewrite_all substitutions (pre ++ u "\subsection*{" ++ x ++ u "}" ++ post)
  = pre ++ (u "<h4>" ++ x ++ u "</h4>") ++ post.
Proof.
  intros Hpre Hpost Hx.
  destruct (braced_argument_facts x Hx) as (Hne & Hp & _ & Hb).
  unfold substitutions. norm_text.
  do 14 next_substitution.
  braced_like_step subsection_pattern subsection_star_like
    (u "\subsection*{") (u "<h4>") (u "</h4>") x post Hne Hb.
  finish_plain.
Qed.

(** X6. A subsection header, starred or not, in text without backslashes
    becomes a level-4 heading with the title as it is. *)
Theorem subsection_headings (pre x post : str) :
  plain pre = true -> plain post = true -> braced_argument x = true ->
  (exists out,
     prepare_latex_for_katex (pre ++ u "\subsection{" ++ x ++ u "}" ++ post) = Ok out
     /\ contains (u "<h4>" ++ x ++ u "</h4>") out
     /\ (pre = [] -> post = [] -> out = u "<h4>" ++ x ++ u "</h4>"))
  /\ (exists out,
        prepare_latex_for_katex (pre ++ u "\subsection*{" ++ x ++ u "}" ++ post) = Ok out
        /\ contains (u "<h4>" ++ x ++ u "</h4>") out
        /\ (pre = [] -> post = [] -> out = u "<h4>" ++ x ++ u "</h4>")).
Proof.
  intros Hpre Hpost Hx.
  destruct (braced_argument_facts x Hx) as (_ & _ & H1 & _).
  assert (Sh : solid (u "<h4>" ++ x ++ u "</h4>"))
    by (eapply (solid_between _ x _ 60%N 62%N _ (u "</h4")); try reflexivity;
        assumption).
  split.
  - destruct (prepare_of_rewritten _ _ _ _ (subsection_rewritten pre x post Hpre Hpost Hx) Sh)
      as (out & H & _ & Hc & He). exists out. auto.
  - destruct (prepare_of_rewritten _ _ _ _
                (subsection_star_rewritten pre x post Hpre Hpost Hx) Sh)
      as (out & H & _ & Hc & He). exists out. auto.
Qed.

(** ** The algorithmic environment with its argument *)

Lemma digits_plain d : digits d = true -> plain d = true.
Proof.
  unfold digits, plain. rewrite !forallb_forall. intros H c Hc.
  specialize (H c Hc). destruct (N.eqb_spec c bsl) as [->|]; [|reflexivity].
  discriminate H.
Qed.

Lemma algorithmic_match_at (d rest : str) :
  digits d = true ->
  match_at algorithmic_pattern
    (u "\begin{algorithmic}[" ++ d ++ close_bracket :: rest) 0
  = Some (Match 0 (S (20 + length d)) None).
Proof.
  intros Hd. unfold match_at.
  change algorithmic_pattern with
    (lits (u "\begin{algorithmic}[")
       ++ [Atom Digit Star; Atom (Exactly close_bracket) Once]).
  rewrite run_lits_app. cbn [run].
  rewrite (greedy_until Digit _ d (close_bracket :: rest) _
             (S (20 + length d), None)).
  - reflexivity.
  - exact Hd.
  - reflexivity.
  - cbn. reflexivity.
Qed.

Lemma algorithmic_sub (d rest : str) :
  digits d = true ->
  sub_text algorithmic_pattern (div "algorithmic")
    (u "\begin{algorithmic}[" ++ d ++ close_bracket :: rest)
  = algorithmic_open ++ sub_text algorithmic_pattern (div "algorithmic") rest.
Proof.
  intros Hd.
  rewrite (sub_text_match _ _ _ _ (algorithmic_match_at d rest Hd)) by (simpl; lia).
  cbn [m_end].
  assert (Sk : skipn (S (20 + length d))
                 (u "\begin{algorithmic}[" ++ d ++ close_bracket :: rest) = rest).
  { replace (S (20 + length d))
      with (length (u "\begin{algorithmic}[" ++ d ++ [close_bracket]))
      by (rewrite !length_app; simpl; lia).
    replace (u "\begin{algorithmic}[" ++ d ++ close_bracket :: rest)
      with ((u "\begin{algorithmic}[" ++ d ++ [close_bracket]) ++ rest)
      by (now rewrite <- !app_assoc).
    apply skipn_app_exact. }
  rewrite Sk. unfold expand, div. cbn [flat_map]. rewrite app_nil_r. reflexivity.
Qed.

Lemma algorithmic_rewritten (pre d body post : str) :
  plain pre = true -> plain post = true -> digits d = true -> plain body = true ->
  rewrite_all substitutions
    (pre ++ u "\begin{algorithmic}[" ++ d ++ u "]" ++ body
         ++ u "\end{algorithmic}" ++ post)
  = pre ++ (algorithmic_open ++ body ++ u "</div>") ++ post.
Proof.
  intros Hpre Hpost Hd Hbody.
  pose proof (digits_plain d Hd) as Hdp.
  unfold substitutions. norm_text.
  do 3 next_substitution.
  rewrite rewrite_all_cons.
  rewrite sub_text_plain_app by (reflexivity || assumption).
  match goal with
  | |- context [sub_text ?r ?t (?c :: ?s)] =>
      match s with
      | context [d ++ 93%N :: ?rest] =>
          change (sub_text r t (c :: s))
            with (sub_text algorithmic_pattern (div "algorithmic")
                    (u "\begin{algorithmic}[" ++ d ++ close_bracket :: rest));
          rewrite (algorithmic_sub d rest Hd)
      end
  end.
  walk.
  next_substitution.
  unfold algorithmic_open. norm_text.
  finish_plain.
Qed.

(** X7. An algorithmic environment whose begin marker carries a bracketed
    run of digits (possibly none) becomes the container: the opening tag,
    the body, the close tag. *)
Theorem algorithmic_with_argument (pre d body post : str) :
  plain pre = true -> plain post = true -> digits d = true ->
  plain body = true -> one_line body = true ->
  exists out,
    prepare_latex_for_katex
      (pre ++ u "\begin{algorithmic}[" ++ d ++ u "]" ++ body
           ++ u "\end{algorithmic}" ++ post) = Ok out
    /\ contains (algorithmic_open ++ body ++ u "</div>") out
    /\ (pre = [] -> post = [] -> out = algorithmic_open ++ body ++ u "</div>").
Proof.
  intros Hpre Hpost Hd Hb H1.
  assert (S : solid (algorithmic_open ++ body ++ u "</div>"))
    by (eapply (solid_between _ body _ 60%N 62%N _ (u "</div")); try reflexivity;
        assumption).
  destruct (prepare_of_rewritten _ _ _ _
              (algorithmic_rewritten pre d body post Hpre Hpost Hd Hb) S)
    as (out & H & _ & Hc & He).
  exists out. auto.
Qed.

(** ** The lines of the output *)

Lemma Ok_inj {A} (a b : A) : Ok a = Ok b -> a = b.
Proof. intros H. now inversion H. Qed.


Lemma split_lines_one_lines s : Forall (fun l => one_line l = true) (split_lines s).
Proof.
  induction s as [|c s IH]; simpl.
  - repeat constructor.
  - destruct (N.eqb_spec c nl) as [->|Hc].
    + constructor; [reflexivity | exact IH].
    + destruct (split_lines s) as [|l ls]; [repeat constructor; simpl|].
      * apply N.eqb_neq in Hc. now rewrite Hc.
      * inversion IH; subst. constructor; [|assumption].
        simpl. apply N.eqb_neq in Hc. now rewrite Hc.
Qed.

Lemma split_lines_join (ls : list str) :
  ls <> [] -> Forall (fun l => one_line l = true) ls ->
  split_lines (join_lines ls) = ls.
Proof.
  induction ls as [|l ls IH]; [contradiction|]. intros _ H.
  inversion H as [|? ? Hl Hls]; subst.
  destruct ls as [|l2 ls].
  - simpl. now apply split_lines_one_line.
  - change (join_lines (l :: l2 :: ls)) with (l ++ nl :: join_lines (l2 :: ls)).
    rewrite split_lines_app, (split_lines_one_line l Hl).
    change (split_lines (nl :: join_lines (l2 :: ls)))
      with ([] :: split_lines (join_lines (l2 :: ls))).
    rewrite IH by (discriminate || assumption).
    simpl. now rewrite app_nil_r.
Qed.

Lemma forallb_strip (f : N -> bool) (l : str) :
  forallb f l = true -> forallb f (strip l) = true.
Proof.
  intros H. unfold strip.
  destruct (lstrip_suffix l) as [w [E _]].
  destruct (rstrip_prefix (lstrip l)) as [w' [E' _]].
  rewrite E, forallb_app in H. apply andb_prop in H. destruct H as [_ H].
  rewrite E', forallb_app in H. apply andb_prop in H. apply H.
Qed.

Lemma display_line_one_line l : one_line l = true -> one_line (display_line l) = true.
Proof.
  intros H. unfold display_line.
  destruct (nonempty (strip l)); [now apply forallb_strip | reflexivity].
Qed.

Lemma display_line_trimmed l : display_line l <> [] /\ trimmed (display_line l).
Proof.
  unfold display_line. destruct (nonempty (strip l)) eqn:E.
  - split; [now apply nonempty_true | apply strip_trimmed].
  - split; [discriminate|]. split.
    + intros c t H. injection H as <- _. reflexivity.
    + intros t c H. apply (app_inj_tail (u "<br") t 62%N c) in H.
      destruct H as [_ <-]. reflexivity.
Qed.

Lemma line_pass_lines text :
  split_lines (line_pass text) = map display_line (split_lines text).
Proof.
  unfold line_pass. apply split_lines_join.
  - pose proof (split_lines_nonempty text). destruct (split_lines text); [contradiction|].
    discriminate.
  - pose proof (split_lines_one_lines text) as H.
    induction H; simpl; constructor; auto using display_line_one_line.
Qed.

Lemma line_pass_idempotent text : line_pass (line_pass text) = line_pass text.
Proof.
  unfold line_pass at 1. rewrite line_pass_lines, map_map.
  unfold line_pass. f_equal. apply map_ext. intros l.
  destruct (display_line_trimmed l) as [Hne Ht].
  now apply display_line_fixed.
Qed.

(** X8. No line of the output is blank and none has whitespace at its ends;
    the line pass leaves the output as it is. *)
Theorem output_lines (text out : str) :
  prepare_latex_for_katex text = Ok out ->
  Forall (fun l => l <> [] /\ trimmed l) (split_lines out)
  /\ line_pass out = out.
Proof.
  rewrite prepare_latex_for_katex_text. intros H. apply Ok_inj in H. subst out.
  fold (line_pass (rewrite_all substitutions text)). split.
  - rewrite line_pass_lines. apply Forall_forall. intros l Hl.
    apply in_map_iff in Hl. destruct Hl as (l' & <- & _).
    apply display_line_trimmed.
  - apply line_pass_idempotent.
Qed.

Lemma plain_line_pass text : plain text = true -> plain (line_pass text) = true.
Proof.
  intros H. unfold line_pass.
  assert (Hl : Forall (fun l => plain l = true) (split_lines text)).
  { revert H. induction text as [|c s IH]; simpl; intros H.
    - repeat constructor.
    - apply andb_prop in H. destruct H as [Hc Hs]. specialize (IH Hs).
      destruct (c =? nl)%N.
      + constructor; [reflexivity | exact IH].
      + destruct (split_lines s) as [|l ls].
        * repeat constructor. simpl. now rewrite Hc.
        * inversion IH; subst. constructor; [|assumption].
          simpl. unfold plain in *. simpl. now rewrite Hc. }
  induction Hl as [|l ls Hp _ IH]; [reflexivity|].
  assert (Hd : plain (display_line l) = true).
  { unfold display_line. destruct (nonempty (strip l)); [|reflexivity].
    now apply forallb_strip. }
  simpl. destruct (map display_line ls) eqn:E; [exact Hd|].
  rewrite plain_app, Hd. simpl. exact IH.
Qed.

(** X9. On text without backslashes the transcoder is the line pass; it
    keeps the number of lines, and transcoding its output again changes
    nothing. *)
Theorem prepare_plain_idempotent (text : str) :
  plain text = true ->
  exists out,
    prepare_latex_for_katex text = Ok out
    /\ prepare_latex_for_katex out = Ok out
    /\ length (split_lines out) = length (split_lines text).
Proof.
  intros H. exists (line_pass text).
  assert (P : forall t, plain t = true -> prepare_latex_for_katex t = Ok (line_pass t)).
  { intros t Ht. rewrite prepare_latex_for_katex_text.
    now rewrite (rewrite_all_plain substitutions t substitutions_backslash_led Ht). }
  split; [now apply P|]. split.
  - rewrite (P _ (plain_line_pass text H)). now rewrite line_pass_idempotent.
  - rewrite line_pass_lines. apply length_map.
Qed.

(** ** The endpoint *)

Lemma get_cards_loop_spec (data : list card) (acc : list api_card) :
  exists cards,
    get_cards_loop data acc = Ok (acc ++ cards)
    /\ length cards = length data
    /\ map card_source cards = map (fun c => snd c) data
    /\ Forall2 (fun c d =>
                  prepare_latex_for_katex (fst (fst d)) = Ok (card_question c)
                  /\ prepare_latex_for_katex (snd (fst d)) = Ok (card_answer c))
         cards data.
Proof.
  revert acc; induction data as [|[[q a] src] data IH]; intros acc.
  - exists []. simpl. rewrite app_nil_r. repeat split; constructor.
  - cbn [get_cards_loop].
    pose proof (prepare_latex_for_katex_text q) as Hq.
    pose proof (prepare_latex_for_katex_text a) as Ha.
    set (q' := join_lines (map display_line (split_lines (rewrite_all substitutions q)))) in *.
    set (a' := join_lines (map display_line (split_lines (rewrite_all substitutions a)))) in *.
    rewrite Hq, Ha. cbn [bind].
    destruct (IH (acc ++ [ApiCard q' a' src])) as (cards & H1 & H2 & H3 & H4).
    exists (ApiCard q' a' src :: cards). rewrite H1, <- app_assoc.
    repeat split; simpl; auto. now rewrite H3.
Qed.

(** X10. The endpoint answers for every stored list: one object per card, in
    the same order, with the source as stored and the question and the
    answer transcoded. *)
Theorem get_cards_all (data : list card) :
  exists cards,
    get_cards data = Ok cards
    /\ length cards = length data
    /\ map card_source cards = map (fun c => snd c) data
    /\ Forall2 (fun c d =>
                  prepare_latex_for_katex (fst (fst d)) = Ok (card_question c)
                  /\ prepare_latex_for_katex (snd (fst d)) = Ok (card_answer c))
         cards data.
Proof. exact (get_cards_loop_spec data []). Qed.

(** ** The entry point *)

Lemma cards_sources (d : directory) cards :
  load_all_flashcards d = Ok cards ->
  incl (map (fun c => snd c) cards) (map fst (sorted (glob d))).
Proof.
  intros H. unfold load_all_flashcards in H. apply load_files_Ok in H.
  destruct H as [-> _]. simpl. intros name Hn.
  apply in_map_iff in Hn. destruct Hn as (c & <- & Hc).
  apply in_flat_map in Hc. destruct Hc as ([n f] & He & Hc).
  unfold records_of in Hc. simpl in Hc. destruct f as [content|]; [|contradiction].
  apply in_map_iff in Hc. destruct Hc as (qa & <- & _). simpl.
  apply in_map_iff. exists (n, Ok content). auto.
Qed.

(** X11. The server is started exactly when the directory exists and the
    loader returns at least one card; the stored cards are then the loaded
    ones. *)
Theorem main_serves (lectures : option directory) (stored : list card) :
  let '(events, cards, raised) := main lectures stored in
  (In AppRun events <->
   exists d loaded, lectures = Some d /\ load_all_flashcards d = Ok loaded
                    /\ loaded <> [])
  /\ (In AppRun events ->
      cards <> [] /\ raised = None
      /\ exists d, lectures = Some d /\ load_all_flashcards d = Ok cards).
Proof.
  unfold main. destruct lectures as [d|].
  - destruct (load_all_flashcards d) as [[|c cards]|e] eqn:L.
    + split.
      * split.
        -- intros [H|[H|[]]]; discriminate H.
        -- intros (d' & loaded & E & L' & Hne). injection E as <-.
           rewrite L in L'. injection L' as <-. contradiction.
      * intros [H|[H|[]]]; discriminate H.
    + split.
      * split.
        -- intros _. exists d, (c :: cards). repeat split; auto. discriminate.
        -- intros _. simpl. tauto.
      * intros _. repeat split; try discriminate. exists d. auto.
    + split.
      * split.
        -- intros [H|[]]; discriminate H.
        -- intros (d' & loaded & E & L' & _). injection E as <-.
           rewrite L in L'. discriminate L'.
      * intros [H|[]]; discriminate H.
  - split.
    + split.
      * intros [H|[]]; discriminate H.
      * intros (d' & loaded & E & _). discriminate E.
    + intros [H|[]]; discriminate H.
Qed.

(** X12. The numbers [main] reports: the number of stored cards, and a
    number of lectures that is at least one, at most the number of cards
    and at most the number of files the glob matches. *)
Theorem main_counts (d : directory) (stored : list card) n k :
  In (Print (Loaded n k)) (fst (fst (main (Some d) stored))) ->
  n = length (snd (fst (main (Some d) stored)))
  /\ 1 <= k <= n
  /\ k <= length (glob d).
Proof.
  unfold main. destruct (load_all_flashcards d) as [[|c cards]|e] eqn:L; cbv zeta;
    cbn [fst snd].
  - intros [H|[H|[]]]; discriminate H.
  - intros [H|[H|[H|[H|[H|[H|[]]]]]]]; try discriminate H.
    injection H as <- <-. split; [reflexivity|].
    unfold count_lectures.
    match goal with |- context [nodup _ ?l] => set (names := l) end.
    pose proof (NoDup_nodup (list_eq_dec N.eq_dec) names) as Hnd.
    assert (Hincl : incl (nodup (list_eq_dec N.eq_dec) names) names)
      by (intros x Hx; now apply nodup_In in Hx).
    split; [split|].
    + assert (Hin : In (snd c) (nodup (list_eq_dec N.eq_dec) names))
        by (apply nodup_In; left; reflexivity).
      destruct (nodup (list_eq_dec N.eq_dec) names); [contradiction | simpl; lia].
    + pose proof (NoDup_incl_length Hnd Hincl) as Hl.
      unfold names in Hl. rewrite length_map in Hl. exact Hl.
    + pose proof (cards_sources d (c :: cards) L) as Hs.
      assert (Hall : incl (nodup (list_eq_dec N.eq_dec) names) (map fst (sorted (glob d))))
        by (intros x Hx; apply Hs, Hincl, Hx).
      pose proof (NoDup_incl_length Hnd Hall) as Hl.
      rewrite length_map in Hl.
      now rewrite (Permutation_length (sorted_perm (glob d))) in Hl.
  - intros [H|[]]; discriminate H.
Qed.

(** ** Which files the loader opens *)

Lemma str_eqb_eq (a b : str) : str_eqb a b = true <-> a = b.
Proof.
  unfold str_eqb. destruct (list_eq_dec N.eq_dec a b); split; congruence.
Qed.

(** X13. The names the glob takes are those that begin with [lecture_] and
    end with [.tex], with anything, or nothing, between. *)
Theorem glob_match_spec (name : str) :
  glob_match name = true <-> exists mid, name = u "lecture_" ++ mid ++ u ".tex".
Proof.
  unfold glob_match, startswith, endswith. split.
  - intros H. apply andb_prop in H. destruct H as [H H3].
    apply andb_prop in H. destruct H as [H1 H2].
    apply Nat.leb_le in H1. apply str_eqb_eq in H2, H3.
    exists (firstn (length name - 12) (skipn 8 name)).
    rewrite <- (firstn_skipn 8 name) at 1.
    change (length (u "lecture_")) with 8 in *. change (length (u ".tex")) with 4 in *.
    rewrite H2. f_equal.
    rewrite <- (firstn_skipn (length name - 12) (skipn 8 name)) at 1. f_equal.
    rewrite skipn_skipn_add.
    replace (8 + (length name - 12)) with (length name - 4) by lia. exact H3.
  - intros [mid ->].
    rewrite !length_app. change (length (u "lecture_")) with 8.
    change (length (u ".tex")) with 4.
    apply andb_true_intro. split; [apply andb_true_intro; split|].
    + apply Nat.leb_le. lia.
    + apply str_eqb_eq. apply (firstn_app_exact (u "lecture_")).
    + apply str_eqb_eq.
      replace (8 + (length mid + 4) - 4) with (length (u "lecture_" ++ mid))
        by (rewrite length_app; simpl; lia).
      rewrite app_assoc. apply skipn_app_exact.
Qed.

Lemma glob_app (d d' : directory) : glob (d ++ d') = glob d ++ glob d'.
Proof. apply filter_app. Qed.

Lemma glob_none (d : directory) :
  (forall e, In e d -> glob_match (fst e) = false) -> glob d = [].
Proof.
  induction d as [|e d IH]; intros H; simpl; [reflexivity|].
  rewrite (H e (or_introl eq_refl)). apply IH. intros e' He'. apply H. now right.
Qed.

(** X14. Files whose names the glob does not take are never opened: added to
    a directory, readable or not, they change nothing; and a directory
    with no matching file gives the empty list, not an error. *)
Theorem load_all_flashcards_other_files (d other : directory) :
  (forall e, In e other -> glob_match (fst e) = false) ->
  load_all_flashcards (d ++ other) = load_all_flashcards d
  /\ load_all_flashcards (other ++ d) = load_all_flashcards d
  /\ load_all_flashcards other = Ok [].
Proof.
  intros H. unfold load_all_flashcards.
  rewrite !glob_app, (glob_none other H), app_nil_r. auto.
Qed.

Lemma load_files_app (l1 l2 : directory) acc :
  Forall (fun e => exists content, snd e = Ok content) l1 ->
  load_files (l1 ++ l2) acc = load_files l2 (acc ++ flat_map records_of l1).
Proof.
  intros H; revert acc; induction H as [|[name f] l1 [content Hc] _ IH];
    intros acc; simpl.
  - now rewrite app_nil_r.
  - simpl in Hc. subst f. simpl. rewrite IH, <- app_assoc. reflexivity.
Qed.

Lemma strongly_sorted_split (l1 l2 : directory) x :
  StronglySorted name_le (l1 ++ x :: l2) -> Forall (fun e => name_le e x) l1.
Proof.
  induction l1 as [|e l1 IH]; simpl; intros H; [constructor|].
  inversion H as [|? ? Hs Hall]; subst. constructor.
  - rewrite Forall_forall in Hall. apply Hall. apply in_or_app. right. now left.
  - now apply IH.
Qed.

(** X15. With one entry per name, the exception the loader raises is that of
    the failing file that comes first by name: when a matching file raises
    and every matching file with a smaller name is readable, the loader
    raises that file's exception. *)
Theorem load_all_flashcards_first_failure (d : directory) name e :
  NoDup (map fst d) ->
  In (name, Raise e) d -> glob_match name = true ->
  (forall n f, In (n, f) d -> glob_match n = true ->
     str_leb n name = true -> n <> name -> exists content, f = Ok content) ->
  load_all_flashcards d = Raise e.
Proof.
  intros Hnd Hin Hg Hbefore. unfold load_all_flashcards.
  assert (Hs : In (name, Raise e) (sorted (glob d))) by (apply in_sorted_glob; auto).
  destruct (in_split _ _ Hs) as (l1 & l2 & E).
  pose proof (sorted_strongly (glob d)) as SS. rewrite E in SS.
  pose proof (strongly_sorted_split l1 l2 _ SS) as Hle.
  assert (Hnd' : NoDup (map fst (l1 ++ (name, Raise e) :: l2))).
  { rewrite <- E. apply (Permutation_NoDup (l := map fst (glob d))).
    - apply Permutation_map, Permutation_sym, sorted_perm.
    - now apply NoDup_map_filter. }
  assert (Hread : Forall (fun x => exists content, snd x = Ok content) l1).
  { apply Forall_forall. intros [n f] Hx.
    assert (Hx' : In (n, f) (sorted (glob d)))
      by (rewrite E; apply in_or_app; now left).
    apply in_sorted_glob in Hx'. destruct Hx' as [Hd Hgn]. simpl in Hgn.
    rewrite Forall_forall in Hle. specialize (Hle _ Hx). unfold name_le in Hle.
    simpl in Hle. simpl. apply (Hbefore n f Hd Hgn Hle).
    intros ->. rewrite map_app in Hnd'. simpl in Hnd'.
    apply NoDup_remove_2 in Hnd'. apply Hnd'. apply in_or_app. left.
    apply in_map_iff. exists (name, f). auto. }
  rewrite E, (load_files_app l1 _ [] Hread). reflexivity.
Qed.

(** ** The quiz: the arrays *)

Lemma nth_error_set_nth {A} (i j : nat) (x : A) (l : list A) :
  nth_error (set_nth i x l) j
  = if j =? i then (if i <? length l then Some x else None) else nth_error l j.
Proof.
  revert i j; induction l as [|h t IH]; intros i j; simpl.
  - destruct i, j; simpl; try reflexivity. now destruct (j =? i).
  - destruct i as [|i], j as [|j]; simpl; try reflexivity.
    rewrite IH. reflexivity.
Qed.

Lemma set_nth_perm {A} (i : nat) (x a : A) (l : list A) :
  nth_error l i = Some a -> Permutation (x :: l) (a :: set_nth i x l).
Proof.
  revert i; induction l as [|h t IH]; intros [|i]; simpl; try discriminate.
  - intros H; injection H as <-. apply perm_swap.
  - intros H. rewrite perm_swap. rewrite (IH i H).
    rewrite (perm_swap a h). reflexivity.
Qed.

Lemma swap_perm {A} (i j : nat) (l : list A) : Permutation (swap i j l) l.
Proof.
  unfold swap.
  destruct (nth_error l i) as [a|] eqn:Ei; [|reflexivity].
  destruct (nth_error l j) as [b|] eqn:Ej; [|reflexivity].
  assert (Hi : i < length l) by (apply nth_error_Some; congruence).
  assert (Ej' : nth_error (set_nth i b l) j = Some b).
  { rewrite nth_error_set_nth. destruct (j =? i); [|exact Ej].
    apply Nat.ltb_lt in Hi. now rewrite Hi. }
  pose proof (set_nth_perm i b a l Ei) as P1.
  pose proof (set_nth_perm j a b (set_nth i b l) Ej') as P2.
  symmetry. apply (Permutation_cons_inv (a := b)).
  rewrite P1, P2. reflexivity.
Qed.

Lemma shuffle_loop_perm random i l : Permutation (shuffle_loop random i l) l.
Proof.
  revert l; induction i as [|i IH]; intros l; simpl; [reflexivity|].
  rewrite IH. apply swap_perm.
Qed.

(** X16. Shuffling keeps the cards, whatever the draws: the deck after it
    is a permutation of the deck before, and the place, the score and the
    count start again.  When the deck is the array of all the cards (the
    quiz was started with no card selected), the shuffle reorders all the
    cards as well; when the deck is an array of its own, all the cards stay
    as they are. *)
Theorem shuffle_permutes {number} (zero : number) random (st : quiz number) :
  let st' := shuffle zero random st in
  Permutation (the_cards st') (the_cards st)
  /\ Permutation (allCards st') (allCards st)
  /\ (cards st = SameArray -> allCards st' = the_cards st' /\ cards st' = SameArray)
  /\ (forall a, cards st = OwnArray a -> allCards st' = allCards st)
  /\ currentIndex st' = 0
  /\ answered st' = 0
  /\ score st' = zero
  /\ showingAnswer st' = false.
Proof.
  unfold shuffle, the_cards.
  pose proof (shuffle_loop_perm random (length (allCards st) - 1) (allCards st)).
  destruct (cards st) as [|a] eqn:E; cbn.
  - intuition (auto; discriminate).
  - pose proof (shuffle_loop_perm random (length a - 1) a).
    intuition (auto; discriminate).
Qed.

(** ** The quiz: starting *)

Lemma existsb_str_eqb (x : str) (l : list str) :
  existsb (str_eqb x) l = true <-> In x l.
Proof.
  rewrite existsb_exists. split.
  - intros [y [Hy E]]. apply str_eqb_eq in E. now subst.
  - intros H. exists x. split; [exact H | now apply str_eqb_eq].
Qed.

Lemma filter_nil_iff {A} (f : A -> bool) (l : list A) :
  filter f l = [] <-> forall x, In x l -> f x = false.
Proof.
  induction l as [|h t IH]; simpl.
  - split; [intros _ x [] | reflexivity].
  - destruct (f h) eqn:E; split.
    + discriminate.
    + intros H. specialize (H h (or_introl eq_refl)). congruence.
    + intros H x [<-|Hx]; [exact E | now apply IH].
    + intros H. apply IH. intros x Hx. apply H. now right.
Qed.

Lemma startQuiz_nonempty {number} (zero : number) selected (st : quiz number) :
  allCards st <> [] -> the_cards (startQuiz zero selected st) <> [].
Proof.
  intros A. unfold startQuiz, the_cards. cbn.
  destruct (filter _ (allCards st)) as [|c0 f] eqn:F; cbn; [exact A | discriminate].
Qed.

(** X17. Starting the quiz.  When a selected lecture has a card, the deck is
    the cards of the selected lectures, in the order of the loaded cards;
    when none has (nothing is checked, or no card comes from a checked
    lecture), the deck is all the cards.  So the deck is empty only when
    no card was loaded.  The place, the score and the count start again. *)
Theorem startQuiz_deck {number} (zero : number) (selected : list str)
    (st : quiz number) :
  let st' := startQuiz zero selected st in
  ((exists c, In c (allCards st) /\ chosen selected c) ->
     exists keep, the_cards st' = filter keep (allCards st)
                  /\ forall c, keep c = true <-> chosen selected c)
  /\ ((forall c, In c (allCards st) -> ~ chosen selected c) ->
        the_cards st' = allCards st /\ cards st' = SameArray)
  /\ (the_cards st' = [] <-> allCards st = [])
  /\ allCards st' = allCards st
  /\ currentIndex st' = 0
  /\ answered st' = 0
  /\ score st' = zero
  /\ showingAnswer st' = false.
Proof.
  unfold startQuiz, the_cards, chosen. cbn.
  set (keep := fun c : api_card => existsb (str_eqb (card_source c)) selected).
  assert (K : forall c, keep c = true <-> In (card_source c) selected)
    by (intros c; apply existsb_str_eqb).
  destruct (filter keep (allCards st)) as [|c0 f] eqn:F; cbn.
  - assert (N : forall c, In c (allCards st) -> ~ In (card_source c) selected).
    { intros c Hc HS. apply K in HS.
      pose proof (proj1 (filter_nil_iff keep _) F c Hc). congruence. }
    split; [|split; [|split; [|repeat split; auto]]].
    + intros [c [Hc HS]]. exfalso. exact (N c Hc HS).
    + intros _. split; reflexivity.
    + split; auto.
  - assert (I0 : In c0 (filter keep (allCards st))) by (rewrite F; now left).
    apply filter_In in I0. destruct I0 as [I0 K0].
    split; [|split; [|split; [|repeat split; auto]]].
    + intros _. exists keep. split; [now rewrite F | exact K].
    + intros N. exfalso. apply (N c0 I0). now apply K.
    + split; [discriminate|]. intros E. rewrite E in I0. destruct I0.
Qed.

(** ** The quiz: the place stays on a card *)

Lemma nextCard_invariant {number} data (st : quiz number) :
  quiz_invariant data st -> quiz_invariant data (nextCard st).
Proof.
  intros [I1 [I2 I3]]. unfold nextCard.
  destruct (currentIndex st <? length (the_cards st) - 1) eqn:L;
    [|now repeat split].
  apply Nat.ltb_lt in L.
  repeat split; [|exact I2|exact I3].
  change (currentIndex st + 1 <= length (the_cards st) - 1). lia.
Qed.

Lemma step_invariant {number} (zero : number) plus data (a : action number)
    (st : quiz number) :
  quiz_invariant data st -> quiz_invariant data (step zero plus a st).
Proof.
  intros I. pose proof I as [I1 [I2 I3]].
  destruct a as [selected| | | |points|random]; cbn [step].
  - unfold startQuiz. repeat split; [cbn; lia | exact I2 |].
    unfold the_cards. cbn.
    destruct (length _ =? 0).
    + intros x Hx. now apply (Permutation_in _ I2).
    + intros x Hx. apply filter_In in Hx. now apply (Permutation_in _ I2).
  - now repeat split.
  - unfold prevCard. destruct (0 <? currentIndex st); [|exact I].
    repeat split; [|exact I2|exact I3].
    change (currentIndex st - 1 <= length (the_cards st) - 1). lia.
  - now apply nextCard_invariant.
  - unfold rate. destruct (negb (showingAnswer st)).
    + now repeat split.
    + apply nextCard_invariant. now repeat split.
  - pose proof (shuffle_loop_perm random (length (the_cards st) - 1) (the_cards st)) as P.
    unfold shuffle.
    destruct (cards st) as [|own] eqn:E.
    + assert (T : the_cards st = allCards st) by (unfold the_cards; now rewrite E).
      rewrite T in *.
      repeat split; [cbn; lia | cbn; now rewrite P |].
      unfold the_cards; cbn.
      intros x Hx. apply I3. now apply (Permutation_in _ P).
    + repeat split; [cbn; lia | exact I2 |].
      unfold the_cards at 1; cbn.
      intros x Hx. apply I3. now apply (Permutation_in _ P).
Qed.

Lemma play_invariant {number} (zero : number) plus data actions (st : quiz number) :
  quiz_invariant data st -> quiz_invariant data (play zero plus actions st).
Proof.
  revert st; induction actions as [|a l IH]; intros st I; [exact I|].
  cbn. apply IH. now apply step_invariant.
Qed.

Lemma play_app {number} (zero : number) plus l1 l2 (st : quiz number) :
  play zero plus (l1 ++ l2) st = play zero plus l2 (play zero plus l1 st).
Proof. unfold play. apply fold_left_app. Qed.

Lemma nextCard_deck {number} (st : quiz number) :
  the_cards (nextCard st) = the_cards st.
Proof. unfold nextCard. now destruct (_ <? _). Qed.

Lemma step_keeps_deck {number} (zero : number) plus (a : action number)
    (st : quiz number) :
  allCards st <> [] -> the_cards st <> [] ->
  the_cards (step zero plus a st) <> [].
Proof.
  intros A D.
  destruct a as [selected| | | |points|random]; cbn [step].
  - now apply startQuiz_nonempty.
  - exact D.
  - unfold prevCard. now destruct (0 <? _).
  - now rewrite nextCard_deck.
  - unfold rate. destruct (negb _); [exact D|]. now rewrite nextCard_deck.
  - intros E.
    pose proof (shuffle_loop_perm random (length (the_cards st) - 1) (the_cards st)) as P.
    unfold shuffle in E.
    destruct (cards st) eqn:C; unfold the_cards at 1 in E; cbn in E;
      rewrite E in P; apply Permutation_nil in P; contradiction.
Qed.

Lemma play_keeps_deck {number} (zero : number) plus data actions (st : quiz number) :
  data <> [] -> quiz_invariant data st -> the_cards st <> [] ->
  the_cards (play zero plus actions st) <> [].
Proof.
  intros Hd. revert st; induction actions as [|a l IH]; intros st I D; [exact D|].
  cbn. apply IH; [now apply step_invariant|].
  apply step_keeps_deck; [|exact D].
  destruct I as [_ [P _]]. intros E. rewrite E in P.
  apply Permutation_nil in P. contradiction.
Qed.

Lemma fetched_invariant {number} (zero : number) data :
  quiz_invariant data (fetched zero data).
Proof. repeat split; [cbn; lia | reflexivity | intros x []]. Qed.

(** X18. The place stays on a card.  From the fetched cards, whatever the
    buttons and keys pressed, and in whatever order: the index is within
    the deck, or the deck is empty and the index is 0 (then [displayCard]
    returns at once); the deck holds loaded cards only; and all the cards
    are the loaded cards, up to their order.  Once the quiz has been started
    over at least one loaded card, the deck is never empty again, so the
    index always names a card. *)
Theorem play_index_in_range {number} (zero : number) plus
    (data : list api_card) (actions : list (action number)) :
  let st := play zero plus actions (fetched zero data) in
  (currentIndex st < length (the_cards st)
   \/ the_cards st = [] /\ currentIndex st = 0)
  /\ incl (the_cards st) data
  /\ Permutation (allCards st) data
  /\ (data <> [] -> (exists selected, In (StartQuiz selected) actions) ->
      currentIndex st < length (the_cards st)).
Proof.
  cbv zeta.
  pose proof (play_invariant zero plus data actions _ (fetched_invariant zero data))
    as I.
  pose proof I as [I1 [I2 I3]].
  split; [|split; [exact I3|split; [exact I2|]]].
  - destruct (the_cards _) as [|c t] eqn:E; [right | left; cbn in *; lia].
    split; [reflexivity | cbn in I1; lia].
  - intros Hd [selected Hs].
    apply in_split in Hs. destruct Hs as [l1 [l2 ->]].
    rewrite play_app in *. cbn [play fold_left step] in *.
    fold (play zero plus l2) in *. fold (play zero plus l1) in *.
    set (st1 := play zero plus l1 (fetched zero data)) in *.
    assert (J1 : quiz_invariant data st1)
      by (apply play_invariant, fetched_invariant).
    assert (A1 : allCards st1 <> []).
    { destruct J1 as [_ [P _]]. intros E. rewrite E in P.
      apply Permutation_nil in P. contradiction. }
    assert (D : the_cards (play zero plus l2 (startQuiz zero selected st1)) <> []).
    { apply (play_keeps_deck zero plus data); [exact Hd | |].
      - apply (step_invariant zero plus data (StartQuiz selected)). exact J1.
      - now apply startQuiz_nonempty. }
    destruct (the_cards _) as [|c t]; [contradiction | cbn in *; lia].
Qed.

(** ** The quiz: rating *)

(** X19. A rating counts only on a shown answer.  On a hidden answer a rating
    key shows the answer and changes nothing else; pressed again it adds
    its points, counts one answer and moves to the next card with the
    answer hidden, or stays on the last card with the answer shown. *)
Theorem rate_shows_then_counts {number} (plus : number -> number -> number)
    (p q : number) (st : quiz number) :
  showingAnswer st = false ->
  let st1 := rate plus p st in
  let st2 := rate plus q st1 in
  (showingAnswer st1 = true /\ score st1 = score st
   /\ answered st1 = answered st /\ currentIndex st1 = currentIndex st
   /\ the_cards st1 = the_cards st)
  /\ score st2 = plus (score st) q
  /\ answered st2 = answered st + 1
  /\ (currentIndex st + 1 < length (the_cards st) ->
      currentIndex st2 = currentIndex st + 1 /\ showingAnswer st2 = false)
  /\ (length (the_cards st) <= currentIndex st + 1 ->
      currentIndex st2 = currentIndex st /\ showingAnswer st2 = true).
Proof.
  intros H. cbv zeta.
  assert (E1 : rate plus p st = toggleAnswer st)
    by (unfold rate; now rewrite H).
  rewrite E1.
  split; [unfold toggleAnswer; cbn; rewrite H; now repeat split|].
  unfold rate, toggleAnswer. cbn [showingAnswer]. rewrite H. cbn [negb].
  unfold nextCard.
  change (the_cards (Quiz _ _ _ _ _ _)) with (the_cards st).
  cbn [currentIndex allCards cards score answered].
  destruct (currentIndex st <? length (the_cards st) - 1) eqn:L.
  - apply Nat.ltb_lt in L. cbn. repeat split; intros; lia.
  - apply Nat.ltb_ge in L. cbn. repeat split; intros; lia.
Qed.

(** X20. On the last card a shown answer can be rated again and again: each
    rating adds its points and counts one more answer, and the place and the
    shown answer stay, so the count of answers can exceed the number of
    cards. *)
Theorem rate_last_card_repeats {number} (zero : number) plus (p : number)
    (n : nat) (st : quiz number) :
  showingAnswer st = true ->
  length (the_cards st) <= currentIndex st + 1 ->
  let st' := play zero plus (repeat (Rate p) n) st in
  answered st' = answered st + n
  /\ score st' = Nat.iter n (fun s => plus s p) (score st)
  /\ currentIndex st' = currentIndex st
  /\ showingAnswer st' = true
  /\ the_cards st' = the_cards st.
Proof.
  revert st; induction n as [|n IH]; intros st H L; cbv zeta.
  - cbn. repeat split; auto; lia.
  - cbn [repeat].
    change (play zero plus (Rate p :: repeat (Rate p) n) st)
      with (play zero plus (repeat (Rate p) n) (rate plus p st)).
    assert (E : rate plus p st
                = Quiz (allCards st) (cards st) (currentIndex st) true
                    (plus (score st) p) (answered st + 1)).
    { unfold rate. rewrite H. cbn [negb]. unfold nextCard.
      change (the_cards (Quiz _ _ _ _ _ _)) with (the_cards st).
      cbn [currentIndex].
      assert (F : (currentIndex st <? length (the_cards st) - 1) = false)
        by (apply Nat.ltb_ge; lia).
      rewrite F. reflexivity. }
    rewrite E.
    specialize (IH (Quiz (allCards st) (cards st) (currentIndex st) true
                      (plus (score st) p) (answered st + 1)) eq_refl L).
    cbv zeta in IH. destruct IH as [A [B [C [W T]]]].
    rewrite A, B, C, W, T. cbn [answered score currentIndex].
    repeat split; try lia.
    symmetry. apply Nat.iter_succ_r with (f := fun s => plus s p).
Qed.

(** ** The quiz: the selector *)

Lemma distinct_In (seen l : list str) (x : str) :
  In x (distinct seen l) <-> In x l /\ ~ In x seen.
Proof.
  revert seen; induction l as [|h t IH]; intros seen; simpl.
  - tauto.
  - destruct (existsb (str_eqb h) seen) eqn:E.
    + apply existsb_str_eqb in E. rewrite IH. split.
      * intros [H1 H2]. auto.
      * intros [[<-|H1] H2]; [contradiction | auto].
    + assert (N : ~ In h seen).
      { intros H. apply existsb_str_eqb in H. congruence. }
      simpl. rewrite IH. simpl. split.
      * intros [<-|[H1 H2]]; [auto | split; [auto | tauto]].
      * intros [[<-|H1] H2]; [auto|].
        destruct (list_eq_dec N.eq_dec h x) as [->|D]; [auto|].
        right. split; [exact H1|]. intros [F|F]; [contradiction | contradiction].
Qed.

Lemma distinct_NoDup (seen l : list str) : NoDup (distinct seen l).
Proof.
  revert seen; induction l as [|h t IH]; intros seen; simpl; [constructor|].
  destruct (existsb (str_eqb h) seen); [apply IH|].
  constructor; [|apply IH].
  intros H. apply distinct_In in H. destruct H as [_ H]. apply H. now left.
Qed.

Lemma list_sum_indicator (x : str) (ks : list str) :
  NoDup ks -> In x ks ->
  list_sum (map (fun s => if str_eqb x s then 1 else 0) ks) = 1.
Proof.
  induction 1 as [|k ks Hk Hnd IH]; intros Hin; [destruct Hin|].
  simpl. destruct (str_eqb x k) eqn:E.
  - apply str_eqb_eq in E. subst k.
    assert (Z : forall l, ~ In x l ->
                list_sum (map (fun s => if str_eqb x s then 1 else 0) l) = 0).
    { induction l as [|a l IHl]; intros Hn; [reflexivity|]. simpl.
      destruct (str_eqb x a) eqn:Ea.
      - apply str_eqb_eq in Ea. subst a. exfalso. apply Hn. now left.
      - apply IHl. intros H. apply Hn. now right. }
    now rewrite (Z ks Hk).
  - destruct Hin as [<-|Hin].
    + assert (str_eqb k k = true) by now apply str_eqb_eq. congruence.
    + now rewrite IH.
Qed.

Lemma list_sum_map_add {A} (f g : A -> nat) (l : list A) :
  list_sum (map (fun x => f x + g x) l) = list_sum (map f l) + list_sum (map g l).
Proof. induction l as [|a l IH]; simpl; [reflexivity | rewrite IH; lia]. Qed.

Lemma count_sum (ks : list str) (l : list api_card) :
  NoDup ks -> (forall c, In c l -> In (card_source c) ks) ->
  list_sum (map (fun s => length (filter (fun c => str_eqb (card_source c) s) l)) ks)
  = length l.
Proof.
  intros Hnd. induction l as [|h t IH]; intros Hin.
  - clear. induction ks as [|k ks IHk]; simpl; auto.
  - rewrite (map_ext _ (fun s => (if str_eqb (card_source h) s then 1 else 0)
                                 + length (filter (fun c => str_eqb (card_source c) s) t))).
    + rewrite list_sum_map_add, IH, list_sum_indicator.
      * reflexivity.
      * exact Hnd.
      * apply Hin. now left.
      * intros c Hc. apply Hin. now right.
    + intros s. simpl. now destruct (str_eqb (card_source h) s).
Qed.

Lemma showSelector_sources (allCards : list api_card) :
  map fst (showSelector allCards) = distinct [] (map card_source allCards).
Proof.
  unfold showSelector. rewrite map_map. simpl. apply map_id.
Qed.

(** X21. The selector lists every lecture that has a card once, in the order
    in which the lectures first occur among the cards, with the number of
    its cards: no number is zero, and the numbers add up to the number of
    the cards. *)
Theorem showSelector_counts (allCards : list api_card) :
  let options := showSelector allCards in
  NoDup (map fst options)
  /\ (forall s, In s (map fst options) <-> exists c, In c allCards /\ card_source c = s)
  /\ (forall s n, In (s, n) options ->
        1 <= n /\ n = length (filter (fun c => str_eqb (card_source c) s) allCards))
  /\ list_sum (map snd options) = length allCards.
Proof.
  cbv zeta. rewrite showSelector_sources.
  assert (M : forall s, In s (distinct [] (map card_source allCards))
                        <-> exists c, In c allCards /\ card_source c = s).
  { intros s. rewrite distinct_In, in_map_iff. split.
    - intros [(c & E & Hc) _]. eauto.
    - intros (c & Hc & E). split; [eauto | intros []]. }
  split; [apply distinct_NoDup|]. split; [exact M|]. split.
  - intros s n H. unfold showSelector in H. apply in_map_iff in H.
    destruct H as (s' & E & Hs). injection E as -> <-.
    split; [|reflexivity].
    apply M in Hs. destruct Hs as (c & Hc & Es).
    assert (F : In c (filter (fun c => str_eqb (card_source c) s) allCards)).
    { apply filter_In. split; [exact Hc | now apply str_eqb_eq]. }
    destruct (filter _ allCards); [destruct F | simpl; lia].
  - unfold showSelector. rewrite map_map. simpl.
    apply count_sum; [apply distinct_NoDup|].
    intros c Hc. apply M. eauto.
Qed.

(** X22. The page and the console agree: the number of options the selector
    shows for the cards of the endpoint is the number of lecture files that
    [main] reports for the stored cards. *)
Theorem showSelector_count_lectures (data : list card) (cards : list api_card) :
  get_cards data = Ok cards ->
  length (showSelector cards) = count_lectures data.
Proof.
  intros H. destruct (get_cards_loop_spec data []) as (cards' & H1 & _ & H3 & _).
  unfold get_cards in H. rewrite H1 in H. apply Ok_inj in H. simpl in H. subst cards'.
  rewrite <- (length_map fst), showSelector_sources, H3.
  unfold count_lectures.
  apply Permutation_length, NoDup_Permutation.
  - apply distinct_NoDup.
  - apply NoDup_nodup.
  - intros x. rewrite distinct_In, nodup_In. split; [tauto|].
    intros Hx. split; [exact Hx | intros []].
Qed.

(** ** Answer spans and records *)

(** The end of a span is determined by the text and the boundaries. *)
Lemma span_end_unique content sections i m a a' :
  span_end content sections i m a -> span_end content sections i m a' -> a' = a.
Proof.
  intros [Ha H] [Ha' H'].
  destruct (nth_error sections (S i)) as [next|]; [congruence|].
  destruct H as [[Ho Hm]|[He Hn]], H' as [[Ho' Hm']|[He' Hn']].
  - destruct (Nat.lt_trichotomy a a') as [L|[E|L]]; [|auto|].
    + exfalso. apply (Hm' a); [lia | exact Ho].
    + exfalso. apply (Hm a'); [lia | exact Ho'].
  - exfalso. apply (Hn' a); [lia | exact Ho].
  - exfalso. apply (Hn a'); [lia | exact Ho'].
  - congruence.
Qed.

Lemma answer_end_span_end content i m :
  let sections := finditer section_pattern content in
  nth_error sections i = Some m ->
  span_end content sections i m (answer_end_of content sections i m).
Proof.
  intros sections Hi.
  pose proof (answer_span_cases content i m Hi) as C. cbv zeta in C.
  destruct C as [B C]. split; [exact B|]. fold sections in C.
  destruct (nth_error sections (S i)); [apply C | exact C].
Qed.

Lemma card_of_record content sections i m :
  card_of content sections i m
  = hd_error (record_of_span content m (answer_end_of content sections i m)).
Proof.
  unfold card_of, record_of_span. cbv zeta.
  now destruct (nonempty _ && nonempty _).
Qed.

Lemma contribution_record content sections im :
  contribution content sections im
  = record_of_span content (snd im)
      (answer_end_of content sections (fst im) (snd im)).
Proof.
  unfold contribution. rewrite card_of_record. unfold record_of_span. cbv zeta.
  now destruct (nonempty _ && nonempty _).
Qed.

Lemma nth_error_enumerate_from {A} (l : list A) k i x :
  nth_error l i = Some x ->
  nth_error (combine (seq k (length l)) l) i = Some (k + i, x).
Proof.
  revert k i; induction l as [|y l IH]; intros k [|i] H; simpl in *;
    try discriminate.
  - inversion H. now rewrite Nat.add_0_r.
  - rewrite (IH (S k) i H). f_equal. f_equal. lia.
Qed.

Lemma flat_map_with_ends {A B} (c : nat * A -> list B) (g : A -> nat -> list B)
    (f : nat -> A -> nat) (l : list A) k :
  (forall im, c im = g (snd im) (f (fst im) (snd im))) ->
  flat_map c (combine (seq k (length l)) l)
  = flat_map (fun ma => g (fst ma) (snd ma))
      (combine l (map (fun im => f (fst im) (snd im))
                    (combine (seq k (length l)) l))).
Proof.
  intros E. revert k; induction l as [|x l IH]; intros k; simpl; [reflexivity|].
  rewrite E. simpl. f_equal. apply IH.
Qed.

(** C1. The answer span of every boundary ends where the specification
    says: at the start of the next boundary if there is one, else at the
    first [\part{] after the marker if there is one, else at the end of the
    text; that end is the only position of which this can be said, and a
    span ends before the next marker does.  The record of the boundary is
    the stripped title with the stripped text of that span, and the
    records of the text are those of its boundaries, in order.  From the
    first marker on, the text is the markers and the spans in turn, with
    nothing left out up to the end of the last span. *)
Theorem answer_span_partition (content : str) :
  let sections := finditer section_pattern content in
  (forall i m, nth_error sections i = Some m ->
     let a := answer_end_of content sections i m in
     span_end content sections i m a
     /\ (forall a', span_end content sections i m a' -> a' = a)
     /\ (forall next, nth_error sections (S i) = Some next -> a < m_end next)
     /\ card_of content sections i m = hd_error (record_of_span content m a))
  /\ (exists ends,
        length ends = length sections
        /\ (forall i m a, nth_error sections i = Some m ->
              nth_error ends i = Some a -> span_end content sections i m a)
        /\ parse_content content
           = flat_map (fun ma => record_of_span content (fst ma) (snd ma))
               (combine sections ends))
  /\ (forall m0, hd_error sections = Some m0 ->
      exists tail,
        content = firstn (m_start m0) content
                    ++ pieces content sections (enumerate sections) ++ tail
        /\ (tail = [] \/ firstn (length part_marker) tail = part_marker)).
Proof.
  intros sections. split; [|split].
  - intros i m Hi a.
    pose proof (answer_end_span_end content i m Hi) as S. fold sections in S.
    split; [exact S|]. split; [|split].
    + intros a' S'. exact (span_end_unique _ _ _ _ _ _ S S').
    + intros next Hn.
      pose proof (answer_span_cases content i m Hi) as C. cbv zeta in C.
      fold sections in C. rewrite Hn in C. apply C.
    + apply card_of_record.
  - exists (map (fun im => answer_end_of content sections (fst im) (snd im))
              (enumerate sections)).
    split; [|split].
    + unfold enumerate. now rewrite length_map, length_combine, length_seq, Nat.min_id.
    + intros i m a Hi He.
      rewrite nth_error_map in He. unfold enumerate in He.
      pose proof (nth_error_enumerate_from sections 0 i m Hi) as Hc.
      rewrite Hc in He. simpl in He. inversion He; subst a.
      exact (answer_end_span_end content i m Hi).
    + rewrite parse_content_flat_map. fold sections. unfold enumerate.
      apply (flat_map_with_ends (contribution content sections)
               (record_of_span content) (answer_end_of content sections)).
      apply contribution_record.
  - intros m0 H0. unfold sections in *.
    destruct (finditer section_pattern content) as [|m0' rest] eqn:E; [discriminate|].
    simpl in H0. inversion H0; subst m0'. clear H0.
    destruct (pieces_slice content [] m0 rest E) as (a & Hp & Ha & Hend).
    rewrite E in Hp. unfold enumerate. simpl length at 1 in Hp.
    exists (skipn a content). rewrite Hp. split.
    + rewrite <- slice_zero, app_assoc, slice_slice_app by lia.
      rewrite slice_zero. symmetry. apply firstn_skipn.
    + destruct Hend as [Hend|Hend].
      * left. subst a. apply skipn_all.
      * right. exact Hend.
Qed.

(** ** A directory that cannot be listed *)

(** C8, as written, fails: in a directory that cannot be listed the glob
    finds nothing, so a lecture file that cannot be read is passed over
    and the loader returns the empty list. *)
Lemma unlistable_directory_refutes :
  ~ unreadable_file_raises (Unlistable [(u "lecture_01.tex", Raise OSError)]).
Proof.
  intros H.
  destruct (H (u "lecture_01.tex") OSError (or_introl eq_refl) eq_refl) as [e' E].
  discriminate E.
Qed.

(** C8, amended. A file that cannot be read or decoded makes
    [parse_latex_file] raise.  In a directory that can be listed the loader
    raises with it: when a file that matches the glob raises, the loader
    raises the exception of such a file and returns no list, and a returned
    list means every matching file was read.  In a directory that cannot be
    listed the loader opens no file and returns the empty list. *)
Theorem load_all_flashcards_propagates :
  (forall e, parse_latex_file (Raise e) = Raise e)
  /\ (forall (d : directory) name e,
        In (name, Raise e) d -> glob_match name = true ->
        exists name' e',
          load_all_flashcards_from (Listable d) = Raise e'
          /\ In (name', Raise e') d /\ glob_match name' = true)
  /\ (forall (d : directory) cards,
        load_all_flashcards_from (Listable d) = Ok cards ->
        forall name f, In (name, f) d -> glob_match name = true ->
        exists content, f = Ok content)
  /\ (forall d : directory, load_all_flashcards_from (Unlistable d) = Ok [])
  /\ (forall d : directory,
        load_all_flashcards_from (Listable d) = load_all_flashcards d).
Proof.
  assert (P3 : forall (d : directory) cards,
             load_all_flashcards d = Ok cards ->
             forall name f, In (name, f) d -> glob_match name = true ->
             exists content, f = Ok content).
  { intros d cards H name f Hin Hg. unfold load_all_flashcards in H.
    apply load_files_Ok in H. destruct H as [_ Hall].
    rewrite Forall_forall in Hall.
    apply (Hall (name, f)). apply in_sorted_glob. auto. }
  split; [reflexivity|]. split; [|split; [exact P3|split; reflexivity]].
  intros d name e Hin Hg.
  change (load_all_flashcards_from (Listable d)) with (load_all_flashcards d).
  destruct (load_all_flashcards d) as [cards|e'] eqn:L.
  - destruct (P3 d cards L name (Raise e) Hin Hg) as [content Hc]. discriminate.
  - unfold load_all_flashcards in L. apply load_files_Raise in L.
    destruct L as [name' Hn]. apply in_sorted_glob in Hn. simpl in Hn.
    exists name', e'. split; [reflexivity|]. exact Hn.
Qed.

(** ** Text in which no pattern can start *)

Lemma lead_lits r : r = lits (lead r) ++ skipn (length (lead r)) r.
Proof.
  induction r as [|[[c| | | |] [] | |] r IH]; try reflexivity.
  simpl. now rewrite <- IH.
Qed.

Lemma clash_differs (w x s : str) :
  clash w x = true -> firstn (length w) (x ++ s) <> w.
Proof.
  revert x; induction w as [|c w IH]; intros [|d x]; simpl; try discriminate.
  destruct (N.eqb_spec c d) as [->|Hn].
  - intros H E. inversion E. now apply (IH x).
  - intros _ E. inversion E. congruence.
Qed.

Lemma clash_app (w x y : str) : clash w x = true -> clash w (x ++ y) = true.
Proof.
  revert x; induction w as [|c w IH]; intros [|d x]; simpl; try discriminate.
  destruct (c =? d)%N; auto.
Qed.

Lemma clash_no_match r (x s : str) pos :
  clash (lead r) x = true -> match_at r (x ++ s) pos = None.
Proof.
  intros H. unfold match_at.
  destruct (run r pos None (x ++ s) pos) as [[e g]|] eqn:R; [|reflexivity].
  exfalso. rewrite (lead_lits r) in R. apply run_lits_inv in R.
  exact (clash_differs _ _ _ H R).
Qed.

Lemma quiet_for_app r (x y : str) :
  quiet_for r x = true -> quiet_for r y = true -> quiet_for r (x ++ y) = true.
Proof.
  induction x as [|c x IH]; simpl; [auto|].
  intros H Hy. apply andb_prop in H. destruct H as [H1 H2].
  pose proof (clash_app _ (c :: x) y H1) as C. simpl in C. rewrite C.
  simpl. now apply IH.
Qed.

Lemma quiet_for_flat_map {A} r (f : A -> str) (l : list A) :
  (forall a, In a l -> quiet_for r (f a) = true) ->
  quiet_for r (flat_map f l) = true.
Proof.
  induction l as [|a l IH]; intros H; simpl; [reflexivity|].
  apply quiet_for_app; [apply H; now left | apply IH; intros b Hb; apply H; now right].
Qed.

(** A stretch in which [r] cannot start is copied by the substitution. *)
Lemma sub_text_quiet r t (x s : str) :
  quiet_for r x = true -> sub_text r t (x ++ s) = x ++ sub_text r t s.
Proof.
  induction x as [|c x IH]; simpl; [reflexivity|].
  intros H. apply andb_prop in H. destruct H as [H1 H2].
  rewrite sub_text_skip by (apply (clash_no_match r (c :: x) s 0 H1)).
  now rewrite IH.
Qed.

Lemma plain_quiet_for r (x : str) :
  backslash_led r = true -> plain x = true -> quiet_for r x = true.
Proof.
  intros Hr. induction x as [|c x IH]; simpl; [reflexivity|].
  intros H. apply andb_prop in H. destruct H as [Hc Hx].
  rewrite (IH Hx), andb_true_r.
  destruct r as [|[[d| | | |] [] | |] r]; simpl in Hr; try discriminate.
  apply N.eqb_eq in Hr. subst d. cbn [lead clash].
  apply negb_true_iff in Hc. rewrite (N.eqb_sym bsl c). now rewrite Hc.
Qed.

Lemma plain_quiet (x : str) : plain x = true -> quiet x = true.
Proof.
  intros H. unfold quiet. apply forallb_forall. intros [r t] Hin.
  apply plain_quiet_for; [|exact H].
  pose proof substitutions_backslash_led as L. rewrite forallb_forall in L.
  exact (L _ Hin).
Qed.

Lemma quiet_quiet_for (x : str) rt :
  quiet x = true -> In rt substitutions -> quiet_for (fst rt) x = true.
Proof. unfold quiet. rewrite forallb_forall. auto. Qed.

Lemma quiet_app (x y : str) :
  quiet x = true -> quiet y = true -> quiet (x ++ y) = true.
Proof.
  unfold quiet. rewrite !forallb_forall. intros Hx Hy rt Hin.
  apply quiet_for_app; auto.
Qed.

Lemma rewrite_all_app l1 l2 text :
  rewrite_all (l1 ++ l2) text = rewrite_all l2 (rewrite_all l1 text).
Proof.
  revert text; induction l1 as [|[r t] l1 IH]; intros text; simpl; auto.
Qed.

Lemma rewrite_all_nil subs :
  forallb (fun rt => backslash_led (fst rt)) subs = true ->
  rewrite_all subs [] = [].
Proof.
  induction subs as [|[r t] subs IH]; simpl; [reflexivity|].
  intros H. apply andb_prop in H. destruct H as [Hr Hs].
  rewrite sub_text_nil by now apply match_at_nil_led. now apply IH.
Qed.

(** A stretch in which none of the patterns can start is copied by all the
    substitutions, whatever follows it. *)
Lemma rewrite_all_quiet_for subs (x s : str) :
  (forall rt, In rt subs -> quiet_for (fst rt) x = true) ->
  rewrite_all subs (x ++ s) = x ++ rewrite_all subs s.
Proof.
  revert s; induction subs as [|[r t] subs IH]; intros s H; simpl; [reflexivity|].
  rewrite (sub_text_quiet r t x s) by (apply (H (r, t)); now left).
  apply IH. intros rt Hin. apply H. now right.
Qed.

Lemma rewrite_all_quiet (x s : str) :
  quiet x = true ->
  rewrite_all substitutions (x ++ s) = x ++ rewrite_all substitutions s.
Proof.
  intros H. apply rewrite_all_quiet_for. intros rt Hin.
  now apply quiet_quiet_for.
Qed.

Lemma rewrite_all_quiet_alone (x : str) :
  quiet x = true -> rewrite_all substitutions x = x.
Proof.
  intros H. rewrite <- (app_nil_r x) at 1.
  rewrite (rewrite_all_quiet x [] H), rewrite_all_nil, app_nil_r;
    [reflexivity | exact substitutions_backslash_led].
Qed.

(** ** Text that no pattern matches *)





(** ** Texts that are rewritten apart from what follows *)

Lemma led_app l1 l2 : led (l1 ++ l2) -> led l1 /\ led l2.
Proof.
  intros H. split; intros rt Hin; apply H, in_or_app; auto.
Qed.

Lemma led_substitutions : led substitutions.
Proof.
  intros rt Hin. pose proof substitutions_backslash_led as L.
  rewrite forallb_forall in L. exact (L _ Hin).
Qed.

Lemma sub_text_empty r t : backslash_led r = true -> sub_text r t [] = [].
Proof. intros H. apply sub_text_nil. now apply match_at_nil_led. Qed.

Lemma rewrite_all_empty subs : led subs -> rewrite_all subs [] = [].
Proof.
  induction subs as [|[r t] subs IH]; intros H; simpl; [reflexivity|].
  rewrite (sub_text_empty r t) by (apply (H (r, t)); now left).
  apply IH. intros rt Hin. apply H. now right.
Qed.

Lemma evolves_carries subs (x y s : str) :
  evolves subs x y -> rewrite_all subs (x ++ s) = y ++ rewrite_all subs s.
Proof.
  intros [H <-]. revert x s H.
  induction subs as [|[r t] subs IH]; intros x s H; simpl; [reflexivity|].
  destruct H as [Hs H]. rewrite (Hs s). simpl. now apply IH.
Qed.

Lemma evolves_app_list l1 l2 (x y z : str) :
  evolves l1 x y -> evolves l2 y z -> evolves (l1 ++ l2) x z.
Proof.
  intros [H1 <-] [H2 <-]. split; [|now rewrite rewrite_all_app].
  revert x H1 H2. induction l1 as [|[r t] l1 IH]; intros x H1 H2; simpl in *.
  - exact H2.
  - destruct H1 as [Hs H1]. split; [exact Hs | now apply IH].
Qed.

Lemma self_contained_for_app l1 l2 (x : str) :
  self_contained_for (l1 ++ l2) x ->
  self_contained_for l1 x /\ self_contained_for l2 (rewrite_all l1 x).
Proof.
  revert x. induction l1 as [|[r t] l1 IH]; intros x H; simpl in *.
  - auto.
  - destruct H as [Hs H]. destruct (IH _ H). auto.
Qed.

Lemma evolves_concat subs (x x' y y' : str) :
  evolves subs x x' -> evolves subs y y' -> evolves subs (x ++ y) (x' ++ y').
Proof.
  intros [Hx <-] [Hy <-]. revert x y Hx Hy.
  induction subs as [|[r t] subs IH]; intros x y Hx Hy; simpl in *.
  - split; [exact I | reflexivity].
  - destruct Hx as [Sx Hx], Hy as [Sy Hy].
    destruct (IH _ _ Hx Hy) as [H E].
    pose proof (Sx y) as Exy. unfold evolves. simpl.
    split; [split|].
    + intros s. rewrite <- app_assoc, (Sx (y ++ s)), (Sy s).
      now rewrite Exy, <- app_assoc.
    + now rewrite Exy.
    + now rewrite Exy.
Qed.

Lemma evolves_empty subs : led subs -> evolves subs [] [].
Proof.
  intros H. split; [|now apply rewrite_all_empty].
  induction subs as [|[r t] subs IH]; simpl; [exact I|].
  assert (E : sub_text r t [] = []) by (apply sub_text_empty, (H (r, t)); now left).
  split.
  - intros s. now rewrite E.
  - rewrite E. apply IH. intros rt Hin. apply H. now right.
Qed.

Lemma evolves_quiet subs (x : str) :
  led subs -> (forall rt, In rt subs -> quiet_for (fst rt) x = true) ->
  evolves subs x x.
Proof.
  intros Hl H.
  induction subs as [|[r t] subs IH]; [split; [exact I | reflexivity]|].
  assert (E : forall s, sub_text r t (x ++ s) = x ++ sub_text r t s)
    by (intros s; apply sub_text_quiet, (H (r, t)); now left).
  assert (E0 : sub_text r t x = x).
  { rewrite <- (app_nil_r x) at 1. rewrite E.
    rewrite (sub_text_empty r t) by (apply (Hl (r, t)); now left).
    apply app_nil_r. }
  destruct IH as [I1 I2].
  { intros rt Hin. apply Hl. now right. }
  { intros rt Hin. apply H. now right. }
  split; simpl.
  - split; [intros s; now rewrite E, E0 | now rewrite E0].
  - now rewrite E0.
Qed.

Lemma evolves_one r t (x y : str) :
  backslash_led r = true ->
  (forall s, sub_text r t (x ++ s) = y ++ sub_text r t s) ->
  evolves [(r, t)] x y.
Proof.
  intros Hl H.
  assert (E0 : sub_text r t x = y).
  { rewrite <- (app_nil_r x) at 1. rewrite H, (sub_text_empty _ _ Hl).
    apply app_nil_r. }
  split; simpl; [|exact E0].
  split; [|exact I]. intros s. now rewrite H, E0.
Qed.

Lemma evolves_flat_map {A} subs (f g : A -> str) (l : list A) :
  led subs -> (forall a, In a l -> evolves subs (f a) (g a)) ->
  evolves subs (flat_map f l) (flat_map g l).
Proof.
  intros Hl. induction l as [|a l IH]; intros H; simpl.
  - now apply evolves_empty.
  - apply evolves_concat; [apply H; now left|].
    apply IH. intros b Hb. apply H. now right.
Qed.

Lemma self_contained_settled (x : str) : self_contained x -> settled x.
Proof.
  intros H s. apply evolves_carries. split; [exact H | reflexivity].
Qed.

Lemma quiet_self_contained (x : str) :
  quiet x = true -> self_contained x /\ rewrite_all substitutions x = x.
Proof.
  intros H. apply (evolves_quiet substitutions x led_substitutions).
  intros rt Hin. now apply quiet_quiet_for.
Qed.

Lemma self_contained_app (x y : str) :
  self_contained x -> self_contained y -> self_contained (x ++ y).
Proof.
  intros Hx Hy.
  exact (proj1 (evolves_concat substitutions x _ y _
                  (conj Hx eq_refl) (conj Hy eq_refl))).
Qed.

Lemma settled_app (x y : str) : settled x -> settled y -> settled (x ++ y).
Proof.
  intros Hx Hy s. rewrite <- app_assoc, Hx, Hy, (Hx y). now rewrite <- app_assoc.
Qed.

(** ** A list under substitutions that rewrite its parts apart *)

Lemma item_ok_for_app l1 l2 it :
  item_ok_for (l1 ++ l2) it ->
  item_ok_for l1 it /\ item_ok_for l2 (item_map (rewrite_all l1) it).
Proof.
  destruct it as [body|label body]; simpl.
  - apply self_contained_for_app.
  - intros [Hq Hb]. destruct (self_contained_for_app _ _ _ Hb) as [H1 H2].
    repeat split; auto; intros rt Hin; apply Hq, in_or_app; auto.
Qed.

Lemma items_ok_for_app l1 l2 items :
  Forall (item_ok_for (l1 ++ l2)) items ->
  Forall (item_ok_for l1) items
  /\ Forall (item_ok_for l2) (map (item_map (rewrite_all l1)) items).
Proof.
  induction 1 as [|it items H _ [IH1 IH2]]; simpl; [split; constructor|].
  destruct (item_ok_for_app _ _ _ H). split; constructor; auto.
Qed.

Lemma item_evolves subs (bare bare' opening opening' closing closing' : str) it :
  led subs ->
  evolves subs bare bare' -> evolves subs opening opening' ->
  evolves subs closing closing' -> item_ok_for subs it ->
  evolves subs (item_text bare opening closing it)
    (item_text bare' opening' closing' (item_map (rewrite_all subs) it)).
Proof.
  intros Hl Hb Ho Hc Hit. destruct it as [body|label body]; simpl in *.
  - apply evolves_concat; [exact Hb | now split].
  - destruct Hit as [Hq Hbody].
    apply evolves_concat; [exact Ho|].
    apply evolves_concat; [now apply evolves_quiet|].
    apply evolves_concat; [exact Hc | now split].
Qed.

Lemma flat_map_after_map {A B C} (h : A -> B) (g : B -> list C) (l : list A) :
  flat_map g (map h l) = flat_map (fun a => g (h a)) l.
Proof. induction l as [|a l IH]; simpl; [reflexivity | now rewrite IH]. Qed.

Lemma list_evolves subs (first first' last last' : str)
    (bare bare' opening opening' closing closing' gap : str) items :
  led subs ->
  evolves subs first first' -> evolves subs last last' ->
  evolves subs bare bare' -> evolves subs opening opening' ->
  evolves subs closing closing' ->
  self_contained_for subs gap -> Forall (item_ok_for subs) items ->
  evolves subs
    (first ++ gap ++ flat_map (item_text bare opening closing) items ++ last)
    (first' ++ rewrite_all subs gap
       ++ flat_map (item_text bare' opening' closing')
            (map (item_map (rewrite_all subs)) items)
       ++ last').
Proof.
  intros Hl Hf Hla Hb Ho Hc Hg Hi.
  apply evolves_concat; [exact Hf|].
  apply evolves_concat; [now split|].
  apply evolves_concat; [|exact Hla].
  rewrite (flat_map_after_map (item_map (rewrite_all subs))).
  apply evolves_flat_map; [exact Hl|].
  intros it Hin. rewrite Forall_forall in Hi.
  apply item_evolves; auto.
Qed.

(** ** The label substitution on the items *)

Lemma item_label_led : backslash_led item_label_pattern = true.
Proof. reflexivity. Qed.

Lemma unlabelled_items items (rest : str) :
  unlabelled rest = true -> unlabelled (flat_map item_source items ++ rest) = true.
Proof. destruct items as [|[body|label body] items]; auto. Qed.

Lemma item_labels_rewritten items (rest : str) :
  Forall (item_ok_for [item_label]) items -> Forall item_shape items ->
  unlabelled rest = true ->
  sub_text item_label_pattern item_label_template
    (flat_map item_source items ++ rest)
  = flat_map (item_text (u "\item") (u "<li><strong>") (u "</strong> "))
      (map (item_map (sub_text item_label_pattern item_label_template)) items)
      ++ sub_text item_label_pattern item_label_template rest.
Proof.
  intros H Hs Hr. induction H as [|it items Hit _ IH]; [reflexivity|].
  inversion Hs as [|? ? Sit Ss]; subst. specialize (IH Ss).
  cbn [flat_map map]. rewrite <- !app_assoc.
  destruct it as [body|label body];
    cbn [item_ok_for item_shape item_source item_text item_map self_contained_for
         item_label] in *.
  - destruct Hit as [Sb _].
    assert (Ul : unlabelled (body ++ flat_map item_source items ++ rest) = true).
    { destruct body; [now apply unlabelled_items | exact Sit]. }
    rewrite <- !app_assoc.
    change (u "\item" ++ body ++ flat_map item_source items ++ rest)
      with (bsl :: u "item" ++ body ++ flat_map item_source items ++ rest).
    rewrite sub_text_skip by (apply (item_label_no_match _ Ul)).
    rewrite (sub_text_plain_app _ _ (u "item")) by reflexivity.
    rewrite (Sb _), IH. reflexivity.
  - destruct Hit as [_ [Sb _]].
    rewrite <- !app_assoc.
    change (u "\item[" ++ label ++ u "]" ++ body ++ flat_map item_source items ++ rest)
      with (u "\item[" ++ label ++ close_bracket
              :: (body ++ flat_map item_source items ++ rest)).
    rewrite (item_label_match label _ Sit).
    rewrite (Sb _), IH, <- ?app_assoc. reflexivity.
Qed.

(** The text that [item_label] leaves of a text that is rewritten apart. *)
Lemma splits_self (r : regex) t (x : str) :
  splits r t x -> backslash_led r = true -> evolves [(r, t)] x (sub_text r t x).
Proof. intros H Hl. now repeat split. Qed.

Lemma list_labels (gap : str) items :
  self_contained_for [item_label] gap ->
  Forall (item_ok_for [item_label]) items -> Forall item_shape items ->
  evolves [item_label]
    (u "<ul>" ++ gap ++ flat_map item_source items ++ u "</ul>")
    (u "<ul>" ++ rewrite_all [item_label] gap
       ++ flat_map (item_text (u "\item") (u "<li><strong>") (u "</strong> "))
            (map (item_map (rewrite_all [item_label])) items)
       ++ u "</ul>").
Proof.
  intros Hg Hi Hs. apply evolves_one; [reflexivity|]. intros s.
  destruct Hg as [Sg _]. rewrite <- !app_assoc.
  rewrite (sub_text_plain_app _ _ (u "<ul>")) by reflexivity.
  rewrite (Sg _).
  rewrite (item_labels_rewritten items _ Hi Hs) by reflexivity.
  rewrite (sub_text_plain_app _ _ (u "</ul>")) by reflexivity.
  reflexivity.
Qed.

(** ** Bodies that do not begin with a bracket *)

Lemma unlabelled_sub_text r t (x : str) :
  backslash_led r = true -> no_bracket t = true ->
  unlabelled x = true -> unlabelled (sub_text r t x) = true.
Proof.
  intros Hl Ht Hx. destruct x as [|c x].
  - now rewrite sub_text_empty.
  - destruct (match_at r (c :: x) 0) as [m|] eqn:M.
    + assert (P : 0 < m_end m).
      { apply (match_at_progress r (c :: x) 0 m); [|exact M].
        destruct r as [|[[d| | | |] [] | |] r]; simpl in Hl; try discriminate.
        reflexivity. }
      rewrite (sub_text_match r t _ m M P).
      destruct t as [|[[|d w]|] t]; simpl in Ht; try discriminate.
      exact Ht.
    + rewrite (sub_text_skip r t c x M). exact Hx.
Qed.

Lemma unlabelled_rewrite_all subs (x : str) :
  led subs -> forallb (fun rt => no_bracket (snd rt)) subs = true ->
  unlabelled x = true -> unlabelled (rewrite_all subs x) = true.
Proof.
  revert x; induction subs as [|[r t] subs IH]; intros x Hl Ht Hx; simpl;
    [exact Hx|].
  simpl in Ht. apply andb_prop in Ht. destruct Ht as [T1 T2].
  apply IH; [intros rt Hin; apply Hl; now right | exact T2|].
  apply unlabelled_sub_text; auto. apply (Hl (r, t)). now left.
Qed.

Lemma item_shape_rewrite_all subs it :
  led subs -> forallb (fun rt => no_bracket (snd rt)) subs = true ->
  item_shape it -> item_shape (item_map (rewrite_all subs) it).
Proof.
  intros Hl Ht. destruct it as [body|label body]; simpl; [|auto].
  now apply unlabelled_rewrite_all.
Qed.

(** ** The substitutions, stage by stage, on a list *)

Lemma substitutions_stages :
  substitutions
  = stages_1_8 ++ [begin_itemize] ++ [end_itemize] ++ stages_11_12
      ++ [item_label] ++ [item_command] ++ stages_15_33.
Proof. reflexivity. Qed.

Lemma items_rewrite_app l1 l2 items :
  map (item_map (rewrite_all l2)) (map (item_map (rewrite_all l1)) items)
  = map (item_map (rewrite_all (l1 ++ l2))) items.
Proof.
  rewrite map_map. apply map_ext. intros [body|label body]; simpl;
    now rewrite rewrite_all_app.
Qed.

Lemma list_step_app l1 l2 (F F' F'' : str -> list item -> str) :
  list_step l1 F F' -> list_step l2 F' F'' -> list_step (l1 ++ l2) F F''.
Proof.
  intros H1 H2 gap items Hg Hi.
  destruct (self_contained_for_app _ _ _ Hg) as [G1 G2].
  destruct (items_ok_for_app _ _ _ Hi) as [I1 I2].
  rewrite rewrite_all_app, <- items_rewrite_app.
  exact (evolves_app_list _ _ _ _ _ (H1 gap items G1 I1) (H2 _ _ G2 I2)).
Qed.

Lemma list_step_markers subs (first first' last last' : str)
    (bare bare' opening opening' closing closing' : str) :
  led subs ->
  evolves subs first first' -> evolves subs last last' ->
  evolves subs bare bare' -> evolves subs opening opening' ->
  evolves subs closing closing' ->
  list_step subs (list_text first last bare opening closing)
    (list_text first' last' bare' opening' closing').
Proof.
  intros Hl Hf Hla Hb Ho Hc gap items Hg Hi. now apply list_evolves.
Qed.

Lemma evolves_marker subs (ms : list str) (m : str) :
  led subs ->
  forallb (fun rt => forallb (quiet_for (fst rt)) ms) subs = true ->
  In m ms -> evolves subs m m.
Proof.
  intros Hl H Hin. apply evolves_quiet; [exact Hl|].
  intros rt Hrt. rewrite forallb_forall in H. specialize (H rt Hrt).
  rewrite forallb_forall in H. now apply H.
Qed.

Lemma sub_text_literal (w out rest : str) :
  0 < length w ->
  sub_text (lits w) [Text out] (w ++ rest)
  = out ++ sub_text (lits w) [Text out] rest.
Proof.
  intros Hw.
  assert (M : match_at (lits w) (w ++ rest) 0 = Some (Match 0 (0 + length w) None)).
  { rewrite match_at_lits, firstn_app_exact. unfold str_eqb.
    now destruct (list_eq_dec N.eq_dec w w). }
  rewrite (sub_text_match _ _ _ _ M) by (simpl; lia).
  simpl. now rewrite app_nil_r, skipn_app_exact.
Qed.

Lemma evolves_literal (w out : str) :
  0 < length w -> backslash_led (lits w) = true ->
  evolves [(lits w, [Text out])] w out.
Proof.
  intros Hw Hl. apply evolves_one; [exact Hl|]. intros s.
  now apply sub_text_literal.
Qed.

Lemma led_stages :
  led stages_1_8 /\ led [begin_itemize] /\ led [end_itemize] /\ led stages_11_12
  /\ led [item_label] /\ led [item_command] /\ led stages_15_33.
Proof.
  pose proof led_substitutions as L. rewrite substitutions_stages in L.
  apply led_app in L. destruct L as [L1 L].
  apply led_app in L. destruct L as [L2 L].
  apply led_app in L. destruct L as [L3 L].
  apply led_app in L. destruct L as [L4 L].
  apply led_app in L. destruct L as [L5 L].
  apply led_app in L. destruct L as [L6 L7]. tauto.
Qed.

Lemma step_1_8 :
  list_step stages_1_8
    (list_text (u "\begin{itemize}") (u "\end{itemize}")
       (u "\item") (u "\item[") (u "]"))
    (list_text (u "\begin{itemize}") (u "\end{itemize}")
       (u "\item") (u "\item[") (u "]")).
Proof.
  destruct led_stages as (L & _).
  assert (M : forall m,
            In m [u "\begin{itemize}"; u "\end{itemize}"; u "\item"; u "\item[";
                  u "]"] -> evolves stages_1_8 m m)
    by (intros m; apply evolves_marker; [exact L | reflexivity]).
  apply list_step_markers; [exact L| | | | |]; apply M; simpl; tauto.
Qed.

Lemma step_begin :
  list_step [begin_itemize]
    (list_text (u "\begin{itemize}") (u "\end{itemize}")
       (u "\item") (u "\item[") (u "]"))
    (list_text (u "<ul>") (u "\end{itemize}") (u "\item") (u "\item[") (u "]")).
Proof.
  destruct led_stages as (_ & L & _).
  assert (M : forall m,
            In m [u "\end{itemize}"; u "\item"; u "\item["; u "]"] ->
            evolves [begin_itemize] m m)
    by (intros m; apply evolves_marker; [exact L | reflexivity]).
  apply list_step_markers; [exact L| | | | |]; try (apply M; simpl; tauto).
  apply evolves_literal; [simpl; lia | reflexivity].
Qed.

Lemma step_end :
  list_step [end_itemize]
    (list_text (u "<ul>") (u "\end{itemize}") (u "\item") (u "\item[") (u "]"))
    (list_text (u "<ul>") (u "</ul>") (u "\item") (u "\item[") (u "]")).
Proof.
  destruct led_stages as (_ & _ & L & _).
  assert (M : forall m,
            In m [u "<ul>"; u "\item"; u "\item["; u "]"] ->
            evolves [end_itemize] m m)
    by (intros m; apply evolves_marker; [exact L | reflexivity]).
  apply list_step_markers; [exact L| | | | |]; try (apply M; simpl; tauto).
  apply evolves_literal; [simpl; lia | reflexivity].
Qed.

Lemma step_11_12 :
  list_step stages_11_12
    (list_text (u "<ul>") (u "</ul>") (u "\item") (u "\item[") (u "]"))
    (list_text (u "<ul>") (u "</ul>") (u "\item") (u "\item[") (u "]")).
Proof.
  destruct led_stages as (_ & _ & _ & L & _).
  assert (M : forall m,
            In m [u "<ul>"; u "</ul>"; u "\item"; u "\item["; u "]"] ->
            evolves stages_11_12 m m)
    by (intros m; apply evolves_marker; [exact L | reflexivity]).
  apply list_step_markers; [exact L| | | | |]; apply M; simpl; tauto.
Qed.

Lemma step_item_command :
  list_step [item_command]
    (list_text (u "<ul>") (u "</ul>") (u "\item") (u "<li><strong>")
       (u "</strong> "))
    (list_text (u "<ul>") (u "</ul>") (u "<li>") (u "<li><strong>")
       (u "</strong> ")).
Proof.
  destruct led_stages as (_ & _ & _ & _ & _ & L & _).
  assert (M : forall m,
            In m [u "<ul>"; u "</ul>"; u "<li><strong>"; u "</strong> "] ->
            evolves [item_command] m m)
    by (intros m; apply evolves_marker; [exact L | reflexivity]).
  apply list_step_markers; [exact L| | | | |]; try (apply M; simpl; tauto).
  apply evolves_literal; [simpl; lia | reflexivity].
Qed.

Lemma step_15_33 :
  list_step stages_15_33
    (list_text (u "<ul>") (u "</ul>") (u "<li>") (u "<li><strong>")
       (u "</strong> "))
    (list_text (u "<ul>") (u "</ul>") (u "<li>") (u "<li><strong>")
       (u "</strong> ")).
Proof.
  destruct led_stages as (_ & _ & _ & _ & _ & _ & L).
  assert (M : forall m,
            In m [u "<ul>"; u "</ul>"; u "<li>"; u "<li><strong>"; u "</strong> "] ->
            evolves stages_15_33 m m)
    by (intros m; apply evolves_marker; [exact L | reflexivity]).
  apply list_step_markers; [exact L| | | | |]; apply M; simpl; tauto.
Qed.

Lemma step_1_12 :
  list_step (stages_1_8 ++ [begin_itemize] ++ [end_itemize] ++ stages_11_12)
    (list_text (u "\begin{itemize}") (u "\end{itemize}")
       (u "\item") (u "\item[") (u "]"))
    (list_text (u "<ul>") (u "</ul>") (u "\item") (u "\item[") (u "]")).
Proof.
  eapply list_step_app; [apply step_1_8|].
  eapply list_step_app; [apply step_begin|].
  eapply list_step_app; [apply step_end | apply step_11_12].
Qed.

Lemma step_14_33 :
  list_step ([item_command] ++ stages_15_33)
    (list_text (u "<ul>") (u "</ul>") (u "\item") (u "<li><strong>")
       (u "</strong> "))
    (list_text (u "<ul>") (u "</ul>") (u "<li>") (u "<li><strong>")
       (u "</strong> ")).
Proof. eapply list_step_app; [apply step_item_command | apply step_15_33]. Qed.

Lemma led_1_12 :
  led (stages_1_8 ++ [begin_itemize] ++ [end_itemize] ++ stages_11_12).
Proof.
  intros rt Hin. apply led_substitutions. rewrite substitutions_stages.
  rewrite !app_assoc in *. apply in_or_app. left. apply in_or_app. left.
  apply in_or_app. now left.
Qed.

Lemma item_ok_parts it :
  item_ok it -> item_ok_for substitutions it /\ item_shape it.
Proof.
  destruct it as [body|label body]; cbn [item_ok item_ok_for item_shape].
  - intros [Hb Hu]. split; [exact Hb | exact Hu].
  - intros (Hq & Hl & Hb). split; [split; [|exact Hb] | exact Hl].
    intros rt Hin. now apply quiet_quiet_for.
Qed.

(** A list is turned into its HTML, and is rewritten apart from what
    follows it. *)
Lemma itemize_evolves (gap : str) items :
  self_contained gap -> Forall item_ok items ->
  evolves substitutions (itemize gap items)
    (itemize_html (rewrite_all substitutions gap)
       (map (item_map (rewrite_all substitutions)) items)).
Proof.
  intros Hg Hi. unfold self_contained in Hg.
  assert (Hok : Forall (item_ok_for substitutions) items)
    by (eapply Forall_impl; [|exact Hi]; intros it H; apply (item_ok_parts it H)).
  assert (Hsh : Forall item_shape items)
    by (eapply Forall_impl; [|exact Hi]; intros it H; apply (item_ok_parts it H)).
  set (A := stages_1_8 ++ [begin_itemize] ++ [end_itemize] ++ stages_11_12).
  set (C := [item_command] ++ stages_15_33).
  assert (E : substitutions = A ++ [item_label] ++ C) by reflexivity.
  rewrite E in Hg, Hok.
  destruct (self_contained_for_app _ _ _ Hg) as [G1 G].
  destruct (self_contained_for_app _ _ _ G) as [G2 G3].
  destruct (items_ok_for_app _ _ _ Hok) as [I1 I].
  destruct (items_ok_for_app _ _ _ I) as [I2 I3].
  assert (S2 : Forall item_shape (map (item_map (rewrite_all A)) items)).
  { apply Forall_forall. intros it Hin. apply in_map_iff in Hin.
    destruct Hin as (it0 & <- & Hin0). rewrite Forall_forall in Hsh.
    apply item_shape_rewrite_all; [exact led_1_12 | reflexivity | auto]. }
  pose proof (step_1_12 gap items G1 I1) as E1.
  pose proof (list_labels _ _ G2 I2 S2) as E2.
  pose proof (step_14_33 _ _ G3 I3) as E3.
  pose proof (evolves_app_list _ _ _ _ _ E1 (evolves_app_list _ _ _ _ _ E2 E3)) as H.
  assert (Eg : forall x,
            rewrite_all C (rewrite_all [item_label] (rewrite_all A x))
            = rewrite_all substitutions x)
    by (intros x; rewrite E, !rewrite_all_app; reflexivity).
  assert (Ei : map (item_map (rewrite_all C))
                 (map (item_map (rewrite_all [item_label]))
                    (map (item_map (rewrite_all A)) items))
               = map (item_map (rewrite_all substitutions)) items).
  { rewrite !map_map. apply map_ext. intros [body|label body]; cbn [item_map];
      now rewrite Eg. }
  fold A C in H.
  rewrite Eg, Ei, <- E in H. exact H.
Qed.

(** ** The line pass around visible characters *)

Lemma lstrip_app_visible (a b : str) :
  visible_start b = true -> lstrip (a ++ b) = lstrip a ++ b.
Proof.
  intros H. induction a as [|c a IH]; simpl.
  - destruct b as [|d b]; [discriminate|]. simpl in *.
    apply negb_true_iff in H. now rewrite H.
  - destruct (isspace c); [exact IH | reflexivity].
Qed.

Lemma lstrip_app_some (a b : str) :
  lstrip a <> [] -> lstrip (a ++ b) = lstrip a ++ b.
Proof.
  induction a as [|c a IH]; simpl; [contradiction|].
  destruct (isspace c); [exact IH | reflexivity].
Qed.

Lemma rstrip_app_end (x y : str) :
  visible_end x = true -> rstrip (x ++ y) = x ++ rstrip y.
Proof.
  intros H. unfold rstrip. rewrite rev_app_distr.
  rewrite (lstrip_app_visible (rev y) (rev x) H).
  now rewrite rev_app_distr, rev_involutive.
Qed.

Lemma rstrip_visible (z : str) : visible_start z = true -> rstrip z <> [].
Proof.
  destruct z as [|c z]; [discriminate|]. intros H. unfold rstrip. simpl rev.
  rewrite (lstrip_app_visible (rev z) [c]) by exact H.
  rewrite rev_app_distr. discriminate.
Qed.

Lemma rstrip_app_start (a z : str) :
  visible_start z = true -> rstrip (a ++ z) = a ++ rstrip z.
Proof.
  intros H. pose proof (rstrip_visible z H) as Hne. unfold rstrip in *.
  rewrite rev_app_distr, lstrip_app_some.
  - now rewrite rev_app_distr, rev_involutive.
  - intros E. apply Hne. now rewrite E.
Qed.

Lemma display_line_join (a z : str) :
  visible_start z = true -> display_line (a ++ z) = lstrip a ++ rstrip z.
Proof.
  intros H. unfold display_line, strip.
  rewrite (lstrip_app_visible a z H), (rstrip_app_start _ z H).
  pose proof (rstrip_visible z H) as Hne.
  destruct (lstrip a); simpl; [|reflexivity].
  destruct (rstrip z); [contradiction | reflexivity].
Qed.

Lemma split_lines_visible (z : str) :
  visible_start z = true -> visible_start (hd [] (split_lines z)) = true.
Proof.
  destruct z as [|c z]; [discriminate|]. simpl. intros H.
  destruct (N.eqb_spec c nl) as [->|Hc]; [discriminate H|].
  pose proof (split_lines_nonempty z).
  destruct (split_lines z); [contradiction | exact H].
Qed.

Lemma join_lines_split (A : list str) (p q : str) (B : list str) :
  join_lines (A ++ (p ++ q) :: B) = join_lines (A ++ [p]) ++ join_lines (q :: B).
Proof.
  induction A as [|a A IH].
  - simpl. destruct B; [reflexivity | now rewrite <- app_assoc].
  - change ((a :: A) ++ (p ++ q) :: B) with (a :: (A ++ (p ++ q) :: B)).
    change ((a :: A) ++ [p]) with (a :: (A ++ [p])).
    destruct (A ++ (p ++ q) :: B) as [|x xs] eqn:E1;
      [destruct A; discriminate|].
    destruct (A ++ [p]) as [|y ys] eqn:E2; [destruct A; discriminate|].
    change (join_lines (a :: x :: xs)) with (a ++ nl :: join_lines (x :: xs)).
    change (join_lines (a :: y :: ys)) with (a ++ nl :: join_lines (y :: ys)).
    rewrite IH. now rewrite <- app_assoc.
Qed.

(** The lines of a text followed by a text that begins with a visible
    character. *)
Lemma lines_join (x z : str) :
  map display_line (split_lines (x ++ z))
  = map display_line (removelast (split_lines x))
      ++ display_line (last (split_lines x) [] ++ hd [] (split_lines z))
      :: map display_line (tl (split_lines z)).
Proof. now rewrite split_lines_app, map_app. Qed.

Lemma line_pass_join (x z : str) :
  visible_start z = true ->
  line_pass (x ++ z) = line_pass_before x ++ line_pass_after z.
Proof.
  intros H. unfold line_pass, line_pass_before, line_pass_after.
  rewrite lines_join, (display_line_join _ _ (split_lines_visible z H)).
  apply join_lines_split.
Qed.

Lemma line_pass_after_join (x z : str) :
  visible_start z = true ->
  line_pass_after (x ++ z) = line_pass_between x ++ line_pass_after z.
Proof.
  intros H. pose proof (split_lines_visible z H) as Hz.
  unfold line_pass_after at 1, line_pass_between.
  rewrite split_lines_app.
  pose proof (join_split_lines x) as J.
  destruct (split_lines x) as [|l [|l' ls]] eqn:E.
  - now destruct (split_lines_nonempty x).
  - simpl in J. subst l. simpl.
    rewrite (rstrip_app_start _ _ Hz).
    exact (join_lines_split [] x _ _).
  - change (removelast (l :: l' :: ls)) with (l :: removelast (l' :: ls)).
    change (last (l :: l' :: ls) []) with (last (l' :: ls) []).
    cbn [app hd tl]. rewrite map_app. cbn [map].
    rewrite (display_line_join _ _ Hz).
    exact (join_lines_split (rstrip l :: map display_line (removelast (l' :: ls)))
             _ _ _).
Qed.

Lemma line_pass_after_token (x y : str) :
  one_line x = true -> visible_end x = true ->
  line_pass_after (x ++ y) = x ++ line_pass_after y.
Proof.
  intros H1 He. unfold line_pass_after.
  rewrite split_lines_app, (split_lines_one_line x H1). simpl.
  rewrite (rstrip_app_end _ _ He).
  exact (join_lines_split [] x _ _).
Qed.

Lemma line_pass_between_one_line (x : str) :
  one_line x = true -> line_pass_between x = x.
Proof.
  intros H. unfold line_pass_between. now rewrite (split_lines_one_line x H).
Qed.

Lemma label_one_line (label : str) : label_text label = true -> one_line label = true.
Proof.
  unfold label_text, one_line. rewrite !forallb_forall. intros H c Hc.
  specialize (H c Hc). apply andb_prop in H. apply H.
Qed.

Lemma visible_items items (z : str) :
  visible_start z = true -> visible_start (flat_map item_html items ++ z) = true.
Proof. destruct items as [|[body|label body] items]; auto. Qed.

(** The items in the output. *)
Lemma items_shown items (z : str) :
  Forall label_on_one_line items -> visible_start z = true ->
  line_pass_after (flat_map item_html items ++ z)
  = flat_map item_shown items ++ line_pass_after z.
Proof.
  intros H Hz. induction H as [|it items Hit _ IH]; [reflexivity|].
  pose proof (visible_items items z Hz) as V.
  cbn [flat_map].
  destruct it as [body|label body]; cbn [label_on_one_line item_shown] in *.
  - change (item_html (Bare body)) with (u "<li>" ++ body).
    rewrite <- !app_assoc.
    rewrite (line_pass_after_token (u "<li>")) by reflexivity.
    rewrite (line_pass_after_join body _ V). now rewrite IH.
  - change (item_html (Labelled label body))
      with (u "<li><strong>" ++ label ++ u "</strong> " ++ body).
    rewrite <- !app_assoc.
    rewrite (line_pass_after_token (u "<li><strong>")) by reflexivity.
    rewrite (line_pass_after_join label) by reflexivity.
    rewrite (line_pass_between_one_line label Hit).
    change (u "</strong> " ++ body ++ flat_map item_html items ++ z)
      with (u "</strong>" ++ (32%N :: body) ++ flat_map item_html items ++ z).
    rewrite (line_pass_after_token (u "</strong>")) by reflexivity.
    rewrite (line_pass_after_join (32%N :: body) _ V). now rewrite IH.
Qed.

(** A list in the output, whatever is around it. *)
Lemma itemize_shown (before after gap : str) items :
  Forall label_on_one_line items ->
  line_pass (before ++ itemize_html gap items ++ after)
  = line_pass_before before ++ u "<ul>" ++ line_pass_between gap
      ++ flat_map item_shown items ++ u "</ul>" ++ line_pass_after after.
Proof.
  intros H. unfold itemize_html. rewrite <- !app_assoc.
  rewrite line_pass_join by reflexivity. f_equal.
  rewrite (line_pass_after_token (u "<ul>")) by reflexivity. f_equal.
  rewrite (line_pass_after_join gap)
    by (apply visible_items; reflexivity).
  f_equal.
  rewrite (items_shown items _ H) by reflexivity. f_equal.
  now rewrite (line_pass_after_token (u "</ul>")) by reflexivity.
Qed.

(** ** Lists in their context *)

Lemma itemize_block_items (a b : str) :
  itemize_block a b = itemize [] [Bare a; Bare b].
Proof.
  unfold itemize_block, itemize, item_source. cbn [flat_map item_text].
  rewrite <- ?app_assoc. reflexivity.
Qed.

Lemma labelled_itemize_block_items (l a b : str) :
  labelled_itemize_block l a b = itemize [] [Labelled l a; Bare b].
Proof.
  unfold labelled_itemize_block, itemize, item_source. cbn [flat_map item_text].
  rewrite <- ?app_assoc. reflexivity.
Qed.

(** A bold command is rewritten apart from what follows it. *)
Lemma bold_evolves (x : str) :
  x <> [] -> forallb (fun c => negb (c =? closing_brace)%N) x = true ->
  quiet x = true ->
  evolves substitutions (u "\textbf{" ++ x ++ u "}")
    (u "<strong>" ++ x ++ u "</strong>").
Proof.
  intros Hne Hb Hq.
  assert (E : substitutions
              = firstn 5 substitutions
                  ++ [(lits (u "\textbf{") ++ braced_group,
                       [Text (u "<strong>"); Group1; Text (u "</strong>")])]
                  ++ skipn 6 substitutions) by reflexivity.
  pose proof led_substitutions as L. rewrite E in L.
  apply led_app in L. destruct L as [L1 L].
  apply led_app in L. destruct L as [L2 L3].
  assert (In1 : forall rt, In rt (firstn 5 substitutions) -> In rt substitutions).
  { intros rt H. rewrite E. apply in_or_app. now left. }
  assert (In3 : forall rt, In rt (skipn 6 substitutions) -> In rt substitutions).
  { intros rt H. rewrite E. apply in_or_app. right. apply in_or_app. now right. }
  rewrite E.
  eapply evolves_app_list; [|eapply evolves_app_list].
  - apply evolves_quiet; [exact L1|]. intros rt Hin.
    apply quiet_for_app.
    + assert (M : forallb (fun rt => quiet_for (fst rt) (u "\textbf{"))
                    (firstn 5 substitutions) = true) by reflexivity.
      rewrite forallb_forall in M. now apply M.
    + apply quiet_for_app; [apply (quiet_quiet_for x rt Hq), In1, Hin|].
      apply plain_quiet_for; [now apply L1 | reflexivity].
  - apply evolves_one; [reflexivity|]. intros s.
    assert (T : (u "\textbf{" ++ x ++ u "}") ++ s
                = u "\textbf{" ++ x ++ closing_brace :: s).
    { rewrite <- app_assoc. f_equal. now rewrite <- app_assoc. }
    rewrite T.
    rewrite (braced_command_sub (u "\textbf{") (u "<strong>") (u "</strong>")
               x s Hne Hb).
    rewrite <- (app_assoc (u "<strong>")). f_equal.
    now rewrite <- app_assoc.
  - apply evolves_quiet; [exact L3|]. intros rt Hin.
    apply quiet_for_app; [apply plain_quiet_for; [now apply L3 | reflexivity]|].
    apply quiet_for_app; [apply (quiet_quiet_for x rt Hq), In3, Hin|].
    apply plain_quiet_for; [now apply L3 | reflexivity].
Qed.

Lemma labels_on_one_line items :
  Forall item_ok items ->
  Forall label_on_one_line (map (item_map (rewrite_all substitutions)) items).
Proof.
  induction 1 as [|it items H _ IH]; simpl; constructor; [|exact IH].
  destruct it as [body|label body]; simpl in *; [exact I|].
  destruct H as (_ & Hl & _). unfold label_text, one_line in *.
  rewrite forallb_forall in *. intros c Hc. specialize (Hl c Hc).
  apply andb_prop in Hl. apply Hl.
Qed.

Lemma itemize_rewritten_in_context (pre gap post : str) items :
  settled pre -> self_contained gap -> Forall item_ok items ->
  rewrite_all substitutions (pre ++ itemize gap items ++ post)
  = rewrite_all substitutions pre
      ++ itemize_html (rewrite_all substitutions gap)
           (map (item_map (rewrite_all substitutions)) items)
      ++ rewrite_all substitutions post.
Proof.
  intros Hpre Hgap Hitems. rewrite (Hpre _).
  now rewrite (evolves_carries _ _ _ post (itemize_evolves gap items Hgap Hitems)).
Qed.

Lemma itemize_transcoded (pre gap post : str) items :
  settled pre -> self_contained gap -> Forall item_ok items ->
  prepare_latex_for_katex (pre ++ itemize gap items ++ post)
  = Ok (line_pass_before (rewrite_all substitutions pre)
          ++ u "<ul>" ++ line_pass_between (rewrite_all substitutions gap)
          ++ flat_map item_shown (map (item_map (rewrite_all substitutions)) items)
          ++ u "</ul>" ++ line_pass_after (rewrite_all substitutions post)).
Proof.
  intros Hpre Hgap Hitems. rewrite prepare_latex_for_katex_text.
  rewrite (itemize_rewritten_in_context pre gap post items Hpre Hgap Hitems).
  match goal with
  | |- Ok (join_lines (map display_line (split_lines ?x))) = _ =>
      change (join_lines (map display_line (split_lines x))) with (line_pass x)
  end.
  now rewrite (itemize_shown _ _ _ _ (labels_on_one_line items Hitems)).
Qed.

Lemma settled_empty : settled [].
Proof. apply self_contained_settled. now apply quiet_self_contained. Qed.

Lemma quiet_item_bare (a : str) :
  quiet a = true -> unlabelled a = true -> item_ok (Bare a).
Proof. intros Q U. split; [now apply quiet_self_contained | exact U]. Qed.

Lemma quiet_item_labelled (l a : str) :
  quiet l = true -> label_text l = true -> quiet a = true ->
  item_ok (Labelled l a).
Proof.
  intros Ql Ll Qa. split; [exact Ql|]. split; [exact Ll|].
  now apply quiet_self_contained.
Qed.

(** C7, amended. An itemize block is the begin marker, a text up to the
    first item, any number of items, each with or without a bracketed
    label, and the end marker.  Let the text before the block, the text up
    to the first item and the bodies each be rewritten apart from what
    follows them (no command left open at their end, as [\textbf{] is in
    the counterexample): so is every text in which no pattern can start,
    with its line breaks and the commands that match nothing, so is a bold
    command, so is a block, so are such texts one after the other.  Let a
    body without label not begin with a bracket, and let a label be one
    line without closing bracket in which no pattern can start.  Then the
    substitutions turn the block into the opening list tag, a list-item
    tag before each body, with the label in bold and a space for an item
    with a label, and the closing list tag, in that order and whatever
    follows the block; no list-item tag is closed.  The line pass keeps
    the tags and strips the lines of the texts between them.  On one line,
    and with nothing around it, the block of the claim comes out as the
    tags and the bodies, and nothing else. *)
Theorem itemize_in_settled_context :
  (forall (pre gap post : str) (items : list item),
     settled pre -> self_contained gap -> Forall item_ok items ->
     rewrite_all substitutions (pre ++ itemize gap items ++ post)
     = rewrite_all substitutions pre
         ++ itemize_html (rewrite_all substitutions gap)
              (map (item_map (rewrite_all substitutions)) items)
         ++ rewrite_all substitutions post
     /\ prepare_latex_for_katex (pre ++ itemize gap items ++ post)
        = Ok (line_pass_before (rewrite_all substitutions pre)
                ++ u "<ul>" ++ line_pass_between (rewrite_all substitutions gap)
                ++ flat_map item_shown
                     (map (item_map (rewrite_all substitutions)) items)
                ++ u "</ul>" ++ line_pass_after (rewrite_all substitutions post))
     /\ self_contained (itemize gap items)
     /\ settled (pre ++ itemize gap items))
  /\ (forall x : str,
        quiet x = true -> self_contained x /\ rewrite_all substitutions x = x)
  /\ (forall x : str, plain x = true -> quiet x = true)
  /\ (forall x : str,
        x <> [] -> forallb (fun c => negb (c =? closing_brace)%N) x = true ->
        quiet x = true ->
        self_contained (u "\textbf{" ++ x ++ u "}")
        /\ rewrite_all substitutions (u "\textbf{" ++ x ++ u "}")
           = u "<strong>" ++ x ++ u "</strong>")
  /\ (forall x y : str,
        self_contained x -> self_contained y -> self_contained (x ++ y))
  /\ (forall x : str, self_contained x -> settled x)
  /\ (forall x y : str, settled x -> settled y -> settled (x ++ y))
  /\ (forall x : str, one_line x = true -> line_pass_between x = x)
  /\ (forall a b : str,
        quiet a = true -> quiet b = true ->
        unlabelled a = true -> unlabelled b = true ->
        one_line a = true -> one_line b = true ->
        prepare_latex_for_katex (itemize_block a b)
        = Ok (u "<ul><li>" ++ a ++ u "<li>" ++ b ++ u "</ul>"))
  /\ (forall l a b : str,
        quiet l = true -> label_text l = true ->
        quiet a = true -> quiet b = true -> unlabelled b = true ->
        one_line a = true -> one_line b = true ->
        prepare_latex_for_katex (labelled_itemize_block l a b)
        = Ok (u "<ul><li><strong>" ++ l ++ u "</strong> " ++ a ++ u "<li>" ++ b
                ++ u "</ul>")).
Proof.
  split; [|split; [|split; [|split; [|split; [|split; [|split; [|split; [|split]]]]]]]].
  - intros pre gap post items Hpre Hgap Hitems. split; [|split; [|split]].
    + now apply itemize_rewritten_in_context.
    + now apply itemize_transcoded.
    + exact (proj1 (itemize_evolves gap items Hgap Hitems)).
    + apply settled_app; [exact Hpre|]. apply self_contained_settled.
      exact (proj1 (itemize_evolves gap items Hgap Hitems)).
  - apply quiet_self_contained.
  - apply plain_quiet.
  - intros x Hne Hb Hq. exact (bold_evolves x Hne Hb Hq).
  - apply self_contained_app.
  - apply self_contained_settled.
  - apply settled_app.
  - apply line_pass_between_one_line.
  - intros a b Qa Qb Ua Ub Oa Ob.
    rewrite itemize_block_items.
    assert (Hi : Forall item_ok [Bare a; Bare b]).
    { constructor; [now apply quiet_item_bare|].
      constructor; [now apply quiet_item_bare | constructor]. }
    pose proof (itemize_transcoded [] [] [] [Bare a; Bare b] settled_empty
                  (proj1 (quiet_self_contained [] eq_refl)) Hi) as T.
    rewrite (rewrite_all_nil substitutions substitutions_backslash_led) in T.
    cbn [map item_map flat_map item_shown] in T.
    rewrite (proj2 (quiet_self_contained a Qa)) in T.
    rewrite (proj2 (quiet_self_contained b Qb)) in T.
    rewrite (line_pass_between_one_line a Oa) in T.
    rewrite (line_pass_between_one_line b Ob) in T.
    rewrite app_nil_r in T.
    etransitivity; [exact T|]. f_equal.
    change (line_pass_before []) with ([] : list N).
    change (line_pass_after []) with ([] : list N).
    change (line_pass_between []) with ([] : list N).
    rewrite <- ?app_assoc. reflexivity.
  - intros l a b Ql Ll Qa Qb Ub Oa Ob.
    rewrite labelled_itemize_block_items.
    assert (Hi : Forall item_ok [Labelled l a; Bare b]).
    { constructor; [now apply quiet_item_labelled|].
      constructor; [now apply quiet_item_bare | constructor]. }
    pose proof (itemize_transcoded [] [] [] [Labelled l a; Bare b] settled_empty
                  (proj1 (quiet_self_contained [] eq_refl)) Hi) as T.
    rewrite (rewrite_all_nil substitutions substitutions_backslash_led) in T.
    cbn [map item_map flat_map item_shown] in T.
    rewrite (proj2 (quiet_self_contained a Qa)) in T.
    rewrite (proj2 (quiet_self_contained b Qb)) in T.
    rewrite (line_pass_between_one_line (32%N :: a)) in T by exact Oa.
    rewrite (line_pass_between_one_line b Ob) in T.
    rewrite app_nil_r in T.
    etransitivity; [exact T|]. f_equal.
    change (line_pass_before []) with ([] : list N).
    change (line_pass_after []) with ([] : list N).
    change (line_pass_between []) with ([] : list N).
    rewrite <- ?app_assoc. reflexivity.
Qed.

(** * Instances *)

Lemma parse_content_trimmed_witness :
  let content := u "\section{ Q } A " in
  In (u "Q", u "A") (parse_content content) /\ trimmed (u "Q") /\ trimmed (u "A").
Proof.
  intros content. split; [left; reflexivity|].
  destruct (parse_content_trimmed content) as (_ & _ & H & _).
  exact (proj2 (proj2 (H (u "Q") (u "A") (or_introl eq_refl)))).
Defined.

Lemma prepare_latex_for_katex_empty_witness :
  forallb isspace (u "  ") = true /\ display_line (u "  ") = u "<br>".
Proof.
  split; [reflexivity|].
  destruct prepare_latex_for_katex_empty as (_ & _ & H).
  exact (H (u "  ") eq_refl).
Defined.

Lemma load_all_flashcards_order_witness :
  let d := [(u "lecture_02.tex", Ok (u "\section{Q2}A2"));
            (u "lecture_01.tex", Ok (u "\section{Q1}A1"))] in
  NoDup (map fst d)
  /\ load_all_flashcards (rev d) = load_all_flashcards d
  /\ load_all_flashcards d
     = Ok [(u "Q1", u "A1", u "lecture_01.tex"); (u "Q2", u "A2", u "lecture_02.tex")].
Proof.
  intros d.
  assert (Hnd : NoDup (map fst d)).
  { constructor.
    - intros [E|[]]. discriminate E.
    - constructor; [intros [] | constructor]. }
  split; [exact Hnd|]. split; [|reflexivity].
  destruct (load_all_flashcards_order d Hnd) as (_ & _ & _ & H).
  apply H. apply perm_swap.
Defined.

Lemma empty_section_marker_witness :
  let content := u "\section{Q}A\section{}B" in
  occurs_at empty_section 12 content
  /\ forall m, In m (finditer section_pattern content) -> m_start m <> 12.
Proof.
  intros content. split; [reflexivity|].
  exact (proj1 (empty_section_marker content 12 eq_refl)).
Defined.

Lemma parse_content_ignores_preamble_witness :
  let pre := u "notes " in
  let s := u "\section{Q}A" in
  (forall j, j < length pre -> ~ occurs_at (u "\section{") j (pre ++ s))
  /\ parse_content (pre ++ s) = [(u "Q", u "A")].
Proof.
  intros pre s.
  assert (H : forall j, j < length pre -> ~ occurs_at (u "\section{") j (pre ++ s)).
  { intros j Hj E. unfold occurs_at in E.
    do 6 (destruct j as [|j]; [vm_compute in E; discriminate E|]).
    simpl in Hj. lia. }
  split; [exact H|].
  rewrite (parse_content_ignores_preamble pre s H). reflexivity.
Defined.

Lemma parse_content_render_witness :
  let cards := [(u "Q1", u "A1"); (u "Q2", u "A2")] in
  Forall clean_card cards
  /\ render cards = u "\section{Q1}A1\section{Q2}A2"
  /\ parse_content (render cards) = cards.
Proof.
  intros cards.
  assert (H : Forall clean_card cards).
  { repeat constructor; try discriminate; try reflexivity.
    - exact (proj1 (strip_trimmed (u "Q1"))).
    - exact (proj2 (strip_trimmed (u "Q1"))).
    - exact (proj1 (strip_trimmed (u "A1"))).
    - exact (proj2 (strip_trimmed (u "A1"))).
    - exact (proj1 (strip_trimmed (u "Q2"))).
    - exact (proj2 (strip_trimmed (u "Q2"))).
    - exact (proj1 (strip_trimmed (u "A2"))).
    - exact (proj2 (strip_trimmed (u "A2"))). }
  split; [exact H|]. split; [reflexivity|].
  exact (parse_content_render cards H).
Defined.

Lemma parse_content_no_marker_witness :
  let content := u "\part{P}" in
  (forall j, ~ occurs_at (u "\section{") j content) /\ parse_content content = [].
Proof.
  intros content.
  assert (H : forall j, ~ occurs_at (u "\section{") j content).
  { intros j E. unfold occurs_at in E.
    do 9 (destruct j as [|j]; [vm_compute in E; discriminate E|]).
    vm_compute in E. discriminate E. }
  split; [exact H|].
  exact (proj2 (parse_content_no_marker content) H).
Defined.

Lemma display_math_plain_witness :
  exists out,
    prepare_latex_for_katex (u "\[a+b\]") = Ok out /\ out = u "$$a+b$$".
Proof.
  destruct (display_math_plain [] (u "a+b") [] eq_refl eq_refl eq_refl) as [_ H].
  destruct (H eq_refl) as (out & H1 & _ & H3).
  exists out. split; [exact H1 | exact (H3 eq_refl eq_refl)].
Defined.

Lemma emphasis_commands_witness :
  exists out,
    prepare_latex_for_katex (u "\textbf{bold}") = Ok out
    /\ out = u "<strong>bold</strong>".
Proof.
  destruct (emphasis_commands [] (u "bold") [] eq_refl eq_refl eq_refl)
    as [(out & H1 & _ & H3) _].
  exists out. split; [exact H1 | exact (H3 eq_refl eq_refl)].
Defined.

Lemma subsection_headings_witness :
  exists out,
    prepare_latex_for_katex (u "\subsection*{Title}") = Ok out
    /\ out = u "<h4>Title</h4>".
Proof.
  destruct (subsection_headings [] (u "Title") [] eq_refl eq_refl eq_refl)
    as [_ (out & H1 & _ & H3)].
  exists out. split; [exact H1 | exact (H3 eq_refl eq_refl)].
Defined.

Lemma algorithmic_with_argument_witness :
  exists out,
    prepare_latex_for_katex (u "\begin{algorithmic}[1]x\end{algorithmic}") = Ok out
    /\ out = algorithmic_open ++ u "x</div>".
Proof.
  destruct (algorithmic_with_argument [] (u "1") (u "x") []
              eq_refl eq_refl eq_refl eq_refl eq_refl)
    as (out & H1 & _ & H3).
  exists out. split; [exact H1 | exact (H3 eq_refl eq_refl)].
Defined.

Lemma output_lines_witness :
  prepare_latex_for_katex (u " a ") = Ok (u "a")
  /\ line_pass (u "a") = u "a".
Proof.
  assert (H : prepare_latex_for_katex (u " a ") = Ok (u "a"))
    by (vm_compute; reflexivity).
  split; [exact H | exact (proj2 (output_lines _ _ H))].
Defined.

Lemma prepare_plain_idempotent_witness :
  plain (u " a b ") = true
  /\ exists out,
       prepare_latex_for_katex (u " a b ") = Ok out
       /\ prepare_latex_for_katex out = Ok out.
Proof.
  split; [reflexivity|].
  destruct (prepare_plain_idempotent (u " a b ") eq_refl) as (out & H1 & H2 & _).
  exists out. split; assumption.
Defined.

Lemma main_serves_witness :
  let d := [(u "lecture_01.tex", Ok (u "\section{Q}A"))] in
  let '(events, cards, raised) := main (Some d) [] in
  In AppRun events /\ cards <> [] /\ raised = None.
Proof.
  intros d. pose proof (main_serves (Some d) []) as H.
  destruct (main (Some d) []) as [[events cards] raised].
  destruct H as [H1 H2].
  assert (A : In AppRun events).
  { apply H1. exists d, [(u "Q", u "A", u "lecture_01.tex")].
    split; [reflexivity|]. split; [reflexivity | discriminate]. }
  split; [exact A|].
  destruct (H2 A) as (Hc & Hr & _). split; assumption.
Defined.

Lemma main_counts_witness :
  let d := [(u "lecture_01.tex", Ok (u "\section{Q}A\section{R}B"))] in
  In (Print (Loaded 2 1)) (fst (fst (main (Some d) [])))
  /\ 2 = length (snd (fst (main (Some d) []))) /\ 1 <= 1 <= 2.
Proof.
  intros d.
  assert (H : In (Print (Loaded 2 1)) (fst (fst (main (Some d) []))))
    by (right; left; reflexivity).
  split; [exact H|].
  destruct (main_counts d [] 2 1 H) as (H1 & H2 & _). split; assumption.
Defined.

Lemma glob_match_spec_witness :
  glob_match (u "lecture_intro.tex") = true.
Proof.
  apply glob_match_spec. exists (u "intro"). reflexivity.
Defined.

Lemma load_all_flashcards_other_files_witness :
  let d := [(u "lecture_01.tex", Ok (u "\section{Q}A"))] in
  let other := [(u "notes.txt", Raise OSError)] in
  (forall e, In e other -> glob_match (fst e) = false)
  /\ load_all_flashcards (d ++ other) = load_all_flashcards d.
Proof.
  intros d other.
  assert (H : forall e, In e other -> glob_match (fst e) = false)
    by (intros e [<-|[]]; reflexivity).
  split; [exact H | exact (proj1 (load_all_flashcards_other_files d other H))].
Defined.

Lemma load_all_flashcards_first_failure_witness :
  let d := [(u "lecture_03.tex", Raise UnicodeDecodeError);
            (u "lecture_02.tex", Raise OSError);
            (u "lecture_01.tex", Ok (u "\section{Q}A"))] in
  load_all_flashcards d = Raise OSError.
Proof.
  intros d.
  apply (load_all_flashcards_first_failure d (u "lecture_02.tex") OSError).
  - repeat constructor; simpl; intros H;
      repeat (destruct H as [H|H]; [discriminate H|]); exact H.
  - right; left; reflexivity.
  - reflexivity.
  - intros n f [E|[E|[E|[]]]]; injection E as <- <-; intros _ Hle Hne.
    + vm_compute in Hle. discriminate Hle.
    + contradiction.
    + eexists. reflexivity.
Defined.

Lemma shuffle_permutes_witness :
  let c1 := ApiCard (u "q1") (u "a1") (u "lecture_01.tex") in
  let c2 := ApiCard (u "q2") (u "a2") (u "lecture_02.tex") in
  let st := startQuiz 0 [] (fetched 0 [c1; c2]) in
  let st' := shuffle 0 (fun _ => 0) st in
  cards st = SameArray
  /\ allCards st = [c1; c2]
  /\ allCards st' = [c2; c1]
  /\ allCards st' = the_cards st'.
Proof.
  intros c1 c2 st st'.
  destruct (shuffle_permutes 0 (fun _ => 0) st) as (_ & _ & H & _).
  split; [reflexivity|]. split; [reflexivity|]. split; [reflexivity|].
  exact (proj1 (H eq_refl)).
Defined.

Lemma startQuiz_deck_witness :
  let c1 := ApiCard (u "q1") (u "a1") (u "lecture_01.tex") in
  let c2 := ApiCard (u "q2") (u "a2") (u "lecture_02.tex") in
  let st := fetched 0 [c1; c2] in
  let st' := startQuiz 0 [u "lecture_02.tex"] st in
  (exists c, In c (allCards st) /\ chosen [u "lecture_02.tex"] c)
  /\ the_cards st' = [c2]
  /\ exists keep, the_cards st' = filter keep (allCards st).
Proof.
  intros c1 c2 st st'.
  assert (H : exists c, In c (allCards st) /\ chosen [u "lecture_02.tex"] c).
  { exists c2. split; [right; left; reflexivity | left; reflexivity]. }
  split; [exact H|]. split; [reflexivity|].
  destruct (startQuiz_deck 0 [u "lecture_02.tex"] st) as (D & _).
  destruct (D H) as (keep & E & _). exists keep. exact E.
Defined.

Lemma play_index_in_range_witness :
  let c1 := ApiCard (u "q1") (u "a1") (u "lecture_01.tex") in
  let c2 := ApiCard (u "q2") (u "a2") (u "lecture_02.tex") in
  let actions := [NextCard; StartQuiz []; NextCard; Rate 1; Rate 1;
                  Shuffle (fun i => i); NextCard; NextCard; PrevCard] in
  let st := play 0 Nat.add actions (fetched 0 [c1; c2]) in
  currentIndex st < length (the_cards st).
Proof.
  intros c1 c2 actions st.
  destruct (play_index_in_range 0 Nat.add [c1; c2] actions) as (_ & _ & _ & H).
  apply H.
  - discriminate.
  - exists []. right; left; reflexivity.
Defined.

Lemma rate_shows_then_counts_witness :
  let c1 := ApiCard (u "q1") (u "a1") (u "lecture_01.tex") in
  let c2 := ApiCard (u "q2") (u "a2") (u "lecture_02.tex") in
  let st := startQuiz 0 [] (fetched 0 [c1; c2]) in
  showingAnswer st = false
  /\ answered (rate Nat.add 1 st) = 0
  /\ answered (rate Nat.add 1 (rate Nat.add 1 st)) = 1
  /\ score (rate Nat.add 1 (rate Nat.add 1 st)) = 1.
Proof.
  intros c1 c2 st.
  destruct (rate_shows_then_counts Nat.add 1 1 st eq_refl)
    as ((_ & _ & H1 & _) & H2 & H3 & _).
  repeat split; assumption.
Defined.

Lemma rate_last_card_repeats_witness :
  let c1 := ApiCard (u "q1") (u "a1") (u "lecture_01.tex") in
  let st := toggleAnswer (startQuiz 0 [] (fetched 0 [c1])) in
  let st' := play 0 Nat.add (repeat (Rate 1) 3) st in
  length (the_cards st') = 1 /\ answered st' = 3.
Proof.
  intros c1 st st'.
  destruct (rate_last_card_repeats 0 Nat.add 1 3 st eq_refl) as (H1 & _).
  - simpl. lia.
  - split; [reflexivity | exact H1].
Defined.

Lemma showSelector_count_lectures_witness :
  let data := [(u "Q1", u "A1", u "lecture_01.tex");
               (u "Q2", u "A2", u "lecture_02.tex");
               (u "Q3", u "A3", u "lecture_01.tex")] in
  exists cards,
    get_cards data = Ok cards
    /\ map fst (showSelector cards) = [u "lecture_01.tex"; u "lecture_02.tex"]
    /\ length (showSelector cards) = count_lectures data.
Proof.
  intros data.
  exists [ApiCard (u "Q1") (u "A1") (u "lecture_01.tex");
          ApiCard (u "Q2") (u "A2") (u "lecture_02.tex");
          ApiCard (u "Q3") (u "A3") (u "lecture_01.tex")].
  assert (H : get_cards data
              = Ok [ApiCard (u "Q1") (u "A1") (u "lecture_01.tex");
                    ApiCard (u "Q2") (u "A2") (u "lecture_02.tex");
                    ApiCard (u "Q3") (u "A3") (u "lecture_01.tex")])
    by (vm_compute; reflexivity).
  split; [exact H|]. split; [reflexivity|].
  exact (showSelector_count_lectures data _ H).
Defined.

Lemma answer_span_partition_witness :
  let content := u "\section{Q1}A1\section{Q2}A2\part{P}" in
  let sections := finditer section_pattern content in
  nth_error sections 1 = Some (Match 14 26 (Some (23, 25)))
  /\ span_end content sections 1 (Match 14 26 (Some (23, 25))) 28
  /\ card_of content sections 1 (Match 14 26 (Some (23, 25))) = Some (u "Q2", u "A2")
  /\ In (u "Q2", u "A2") (parse_content content).
Proof.
  intros content. cbv zeta.
  destruct (answer_span_partition content) as (H & (ends & Hl & Hs & Hp) & _).
  set (sections := finditer section_pattern content) in *.
  assert (Es : sections = [Match 0 12 (Some (9, 11)); Match 14 26 (Some (23, 25))])
    by (vm_compute; reflexivity).
  clearbody sections. subst sections.
  destruct (H 1 (Match 14 26 (Some (23, 25))) eq_refl) as (H1 & Hu & _ & H4).
  assert (Ea : answer_end_of content
                 [Match 0 12 (Some (9, 11)); Match 14 26 (Some (23, 25))] 1
                 (Match 14 26 (Some (23, 25))) = 28)
    by (vm_compute; reflexivity).
  rewrite Ea in *.
  split; [reflexivity|]. split; [exact H1|]. split.
  - rewrite H4. vm_compute. reflexivity.
  - simpl length in Hl.
    destruct ends as [|a0 [|a1 [|a2 ends]]]; try discriminate Hl.
    pose proof (Hu a1 (Hs 1 (Match 14 26 (Some (23, 25))) a1 eq_refl eq_refl)) as E.
    subst a1. rewrite Hp. cbn [combine flat_map fst snd].
    apply in_or_app. right.
    assert (R : record_of_span content (Match 14 26 (Some (23, 25))) 28
                = [(u "Q2", u "A2")]) by (vm_compute; reflexivity).
    rewrite R. left. reflexivity.
Defined.

Lemma load_all_flashcards_propagates_witness :
  let d := [(u "lecture_01.tex", Ok (u "\section{Q1}A1"));
            (u "lecture_02.tex", Raise UnicodeDecodeError)] in
  (exists name e, load_all_flashcards_from (Listable d) = Raise e
                  /\ In (name, Raise e) d)
  /\ load_all_flashcards_from (Unlistable d) = Ok [].
Proof.
  intros d.
  destruct load_all_flashcards_propagates as (_ & H & _ & U & _).
  split; [|exact (U d)].
  destruct (H d (u "lecture_02.tex") UnicodeDecodeError) as (name & e & H1 & H2 & _).
  - right; left; reflexivity.
  - reflexivity.
  - exists name, e. split; assumption.
Defined.


Lemma itemize_in_settled_context_witness :
  let pre := u "Steps for $\alpha$:" ++ [nl] in
  let first := u " " ++ (u "\textbf{" ++ u "fast" ++ u "}") ++ u " $\beta$" ++ [nl] in
  let items := [Labelled (u "a)") first; Bare (u " second" ++ [nl])] in
  let post := nl :: u "\textbf{end" in
  quiet pre = true
  /\ prepare_latex_for_katex (pre ++ itemize [nl] items ++ post)
     = Ok (u "Steps for $\alpha$:" ++ nl :: u "<ul>" ++ nl
             :: u "<li><strong>a)</strong>  <strong>fast</strong> $\beta$" ++ nl
             :: u "<li> second" ++ nl :: u "</ul>" ++ nl
             :: u "\textbf{end").
Proof.
  intros pre first items post.
  destruct itemize_in_settled_context as (H & Q & _ & B & A & S & _).
  split; [reflexivity|].
  assert (Hfirst : self_contained first).
  { apply A; [exact (proj1 (Q (u " ") eq_refl))|].
    apply A; [|exact (proj1 (Q (u " $\beta$" ++ [nl]) eq_refl))].
    apply (B (u "fast")); [discriminate | reflexivity | reflexivity]. }
  assert (Hitems : Forall item_ok items).
  { constructor; [|constructor; [|constructor]].
    - split; [reflexivity|]. split; [reflexivity | exact Hfirst].
    - split; [exact (proj1 (Q (u " second" ++ [nl]) eq_refl)) | reflexivity]. }
  destruct (H pre [nl] post items (S pre (proj1 (Q pre eq_refl)))
              (proj1 (Q [nl] eq_refl)) Hitems)
    as (_ & E & _).
  rewrite E. vm_compute. reflexivity.
Defined.
